(** * Tableau metadata extractor: formula resolver, extractor and row builder

    A shallow embedding of [tableau_metadata_extractor.py]:
    [clean_calculation_formula], [extract_all_data], [build_final_output],
    [extract_twb_tree] and [process_all_files].

    A Python string is a sequence of code points; it is modelled by the
    [string] of the bytes of its UTF-8 encoding, so that two Python strings
    are equal exactly when their models are, and a string of ASCII is its
    own model. The class [\d] of the regular expressions is the decimal
    digits of the interpreter's Unicode database: 0 to 9 below 128, and
    above it whatever the database says, which the class [UnicodeData]
    holds as a parameter of the resolver and of all that calls it.

    Dictionaries are modelled by [gmap]; the element tree of
    [xml.etree.ElementTree] by the inductive type [Element]; the mutable
    accumulators of the loops by explicit state passing through
    [fold_left]; the items of the dictionary of workbooks by the list of
    its (file name, model) pairs, in insertion order; the operating system,
    the archives and the parser behind the loader by the class
    [FileSystem]; a call that may raise by [result]; the lines printed by a
    list of strings.

    The source is embedded first, function by function; then comes the
    vocabulary the statements use; then the theorems, for the resolver, the
    extractor and the row builder in turn; then further properties of these
    functions, of how they compose, of the loader and of the batch.
    Statements that hold for every Unicode database are proved for every
    one; the examples are computed with the decimal digits of Unicode
    14.0. *)

From Stdlib Require Import Ascii String NArith.
From Equations Require Import Equations.
From stdpp Require Import gmap strings list.

#[local] Set Warnings "-clear-no-such-hyp".

(** ** Strings *)

(** [s.startswith(p)], returning what follows the prefix. *)
Fixpoint strip_prefix (p s : string) : option string :=
  match p, s with
  | EmptyString, _ => Some s
  | String a p', String b s' => if Ascii.eqb a b then strip_prefix p' s' else None
  | String _ _, EmptyString => None
  end.

Definition startswith (s p : string) : bool :=
  match strip_prefix p s with Some _ => true | None => false end.

(** [s.endswith(c)] for a one-character suffix of ASCII. *)
Fixpoint endswith (s : string) (c : ascii) : bool :=
  match s with
  | EmptyString => false
  | String a EmptyString => Ascii.eqb a c
  | String _ s' => endswith s' c
  end.

(** [s[:-1]] for a string that ends with a character of ASCII. *)
Fixpoint drop_last (s : string) : string :=
  match s with
  | EmptyString => EmptyString
  | String _ EmptyString => EmptyString
  | String a s' => String a (drop_last s')
  end.

(** [s[1:-1]] for a string that begins and ends with a character of ASCII,
    as the one place that takes this slice has checked. *)
Definition slice_1_m1 (s : string) : string :=
  match s with
  | EmptyString => EmptyString
  | String _ s' => drop_last s'
  end.

(** [sub in s] *)
Fixpoint contains (sub s : string) : bool :=
  startswith s sub ||
  match s with
  | EmptyString => false
  | String _ s' => contains sub s'
  end.

(** ** Characters and digits *)

(** What the regular expressions ask of the interpreter's Unicode database:
    which code points above ASCII are decimal digits (general category Nd).
    The answer grows from one version of Unicode to the next, so it is a
    parameter; below 128 the decimal digits are 0 to 9 in every version. *)
Class UnicodeData := { decimal : N → bool }.

Section Resolver.
Context {unicode : UnicodeData}.

(** The class [\d] of a [str] pattern, on code points. *)
Definition is_digit (cp : N) : bool :=
  if (cp <? 128)%N then (48 <=? cp)%N && (cp <=? 57)%N else decimal cp.

(** The six bits a continuation byte carries. *)
Definition continuation (c : ascii) : option N :=
  let b := N_of_ascii c in
  if (128 <=? b)%N && (b <? 192)%N then Some (b - 128)%N else None.

(** The character at the head of [s]: its code point, its encoding (one to
    four bytes) and what follows it; [None] when [s] is empty or does not
    begin with the encoding of a code point. *)
Definition utf8_head (s : string) : option (N * string * string) :=
  match s with
  | EmptyString => None
  | String a s1 =>
      let a0 := N_of_ascii a in
      if (a0 <? 128)%N then Some (a0, String a "", s1)
      else if (a0 <? 192)%N then None
      else if (a0 <? 224)%N then
        match s1 with
        | String b s2 =>
            match continuation b with
            | Some b0 =>
                let cp := ((a0 - 192) * 64 + b0)%N in
                if (128 <=? cp)%N
                then Some (cp, String a (String b ""), s2) else None
            | None => None
            end
        | EmptyString => None
        end
      else if (a0 <? 240)%N then
        match s1 with
        | String b (String c s3) =>
            match continuation b, continuation c with
            | Some b0, Some c0 =>
                let cp := (((a0 - 224) * 64 + b0) * 64 + c0)%N in
                if (2048 <=? cp)%N
                then Some (cp, String a (String b (String c "")), s3)
                else None
            | _, _ => None
            end
        | _ => None
        end
      else if (a0 <? 248)%N then
        match s1 with
        | String b (String c (String d s4)) =>
            match continuation b, continuation c, continuation d with
            | Some b0, Some c0, Some d0 =>
                let cp :=
                  ((((a0 - 240) * 64 + b0) * 64 + c0) * 64 + d0)%N in
                if (65536 <=? cp)%N && (cp <=? 1114111)%N
                then Some (cp, String a (String b (String c (String d ""))),
                           s4)
                else None
            | _, _, _ => None
            end
        | _ => None
        end
      else None
  end.

(** [\d] at the head of [s]: the encoding of the digit and what follows. *)
Definition digit_head (s : string) : option (string * string) :=
  match utf8_head s with
  | Some (cp, d, r) => if is_digit cp then Some (d, r) else None
  | None => None
  end.

Lemma utf8_head_length s cp d r :
  utf8_head s = Some (cp, d, r) → String.length r < String.length s.
Proof.
  unfold utf8_head. intros Hs.
  repeat (case_match; simplify_eq; try done); cbn; lia.
Qed.

Lemma digit_head_length s d r :
  digit_head s = Some (d, r) → String.length r < String.length s.
Proof.
  unfold digit_head. destruct (utf8_head s) as [[[cp d'] r']|] eqn:E; [|done].
  destruct (is_digit cp); [|done]. intros [= <- <-].
  by eapply utf8_head_length.
Qed.

Definition inspect {A} (a : A) : {b | a = b} := exist _ a eq_refl.

(** The longest run of digits at the head of [s]: how many digits it has,
    the run and the rest: a greedy [\d*]. *)
Equations? span_digits (s : string) : nat * string * string
    by wf (String.length s) lt :=
  span_digits s with inspect (digit_head s) := {
    | @exist (Some (d, r)) Heq =>
        let '(n, ds, r') := span_digits r in (S n, d +:+ ds, r');
    | @exist None Heq => (0, EmptyString, s) }.
Proof. by eapply digit_head_length. Qed.

(** ** The regular expressions of the resolver *)

(** Each of the three reference syntaxes is a literal, a group of at least
    [min_digits] digits, and one closing character:
    [\[Calculation_(\d+)\]], [@\{(\d+)\}] and [\[(\d{10,})\]]. *)
Record ref_pattern := RefPattern {
  lit : string;
  min_digits : nat;
  closer : ascii
}.

Definition calc_pattern : ref_pattern := RefPattern "[Calculation_" 1 "]".
Definition at_pattern : ref_pattern := RefPattern "@{" 1 "}".
Definition direct_id_pattern : ref_pattern := RefPattern "[" 10 "]".

(** A match object: [group(0)] is the whole match, [group(1)] the digits. *)
Record re_match := ReMatch { group0 : string; group1 : string }.

(** The pattern matched at the head of [s]: the match and what follows it.
    The digit group is greedy; the closing character is never a digit, so
    giving digits back cannot produce another match. *)
Definition match_at (p : ref_pattern) (s : string) : option (re_match * string) :=
  match strip_prefix (lit p) s with
  | Some r =>
      let '(n, ds, r') := span_digits r in
      if (min_digits p <=? n)%nat then
        match r' with
        | String c r'' =>
            if Ascii.eqb c (closer p)
            then Some (ReMatch (lit p +:+ ds +:+ String c "") ds, r'')
            else None
        | EmptyString => None
        end
      else None
  | None => None
  end.

(** [re.search(a1|a2|..., s)]: some alternative matches at some position.
    The positions of the program are the characters of the string, those of
    the model its bytes; the patterns begin with a character of ASCII, which
    is no byte of the encoding of another character, so there is no match
    at the other bytes. *)
Fixpoint re_search (alts : list ref_pattern) (s : string) : bool :=
  existsb (λ p, bool_decide (is_Some (match_at p s))) alts ||
  match s with
  | EmptyString => false
  | String _ s' => re_search alts s'
  end.

Lemma strip_prefix_length p s r :
  strip_prefix p s = Some r → String.length r ≤ String.length s.
Proof.
  revert s; induction p as [|a p IH]; intros [|b s] H; simpl in *;
    simplify_eq; auto.
  destruct (Ascii.eqb a b); [|done]. apply IH in H. lia.
Qed.

Lemma span_digits_length s n ds r :
  span_digits s = (n, ds, r) → String.length r ≤ String.length s.
Proof.
  remember (String.length s) as k eqn:Hk. revert s Hk n ds r.
  induction (lt_wf k) as [k _ IH]. intros s -> n ds r.
  rewrite span_digits_equation_1.
  destruct (inspect (digit_head s)) as [[[d r0]|] Heq]; cbn.
  - destruct (span_digits r0) as [[n0 ds0] r1] eqn:E0. intros [= <- <- <-].
    pose proof (digit_head_length _ _ _ Heq) as Hlt.
    specialize (IH _ Hlt _ eq_refl _ _ _ E0). lia.
  - by intros [= <- <- <-].
Qed.

Lemma match_at_length p s m rest :
  match_at p s = Some (m, rest) → String.length rest < String.length s.
Proof.
  unfold match_at. destruct (strip_prefix (lit p) s) as [r|] eqn:E1; [|done].
  destruct (span_digits r) as [[n ds] r'] eqn:E2.
  destruct (_ <=? _)%nat; [|done]. destruct r' as [|c r'']; [done|].
  destruct (Ascii.eqb c (closer p)); [|done]. intros [= <- <-].
  apply strip_prefix_length in E1. apply span_digits_length in E2.
  simpl in *. lia.
Qed.

(** [re.sub(p, repl, s)] with a callback that reads and updates the counter
    [replacements_made] (the [nonlocal] variable of the source): matches are
    found left to right, never overlap, and the scan resumes after each
    match. Where there is no match the program copies one character and the
    model one byte, which comes to the same, there being no match at the
    later bytes of a character. *)
Equations? re_sub (p : ref_pattern) (repl : re_match → nat → string * nat)
    (s : string) (replacements_made : nat) : string * nat
    by wf (String.length s) lt :=
  re_sub p repl s n with inspect (match_at p s) := {
    | @exist (Some (m, rest)) Heq =>
        let '(r, n1) := repl m n in
        let '(out, n2) := re_sub p repl rest n1 in
        (r +:+ out, n2);
    | @exist None Heq with s := {
        | EmptyString => (EmptyString, n)
        | String c s' =>
            let '(out, n1) := re_sub p repl s' n in
            (String c out, n1) } }.
Proof.
  - eapply match_at_length; eauto.
  - simpl. lia.
Qed.

(** ** The formula resolver *)

Definition replace_calc_id (calc_map : gmap string string)
    (m : re_match) (replacements_made : nat) : string * nat :=
  let calc_id := group1 m in
  match calc_map !! calc_id with
  | Some name => ("[" +:+ name +:+ "]", replacements_made + 1)
  | None => (group0 m, replacements_made)
  end.

Definition replace_at_id (calc_map : gmap string string)
    (m : re_match) (replacements_made : nat) : string * nat :=
  let calc_id := group1 m in
  match calc_map !! calc_id with
  | Some name => ("[" +:+ name +:+ "]", replacements_made + 1)
  | None => (group0 m, replacements_made)
  end.

Definition replace_direct_id (calc_map : gmap string string)
    (m : re_match) (replacements_made : nat) : string * nat :=
  let calc_id := group1 m in
  match calc_map !! calc_id with
  | Some name => ("[" +:+ name +:+ "]", replacements_made + 1)
  | None => (group0 m, replacements_made)
  end.

(** [\[Calculation_\d+\]|\[\d{10,}\]|@\{\d+\}] *)
Definition any_reference : list ref_pattern :=
  [calc_pattern; direct_id_pattern; at_pattern].

(** The three substitution passes of the [try] block, with the counter. *)
Definition substitute_references (raw_formula : string)
    (calc_map : gmap string string) : string * nat :=
  let cleaned := raw_formula in
  let replacements_made := 0 in
  let '(cleaned, replacements_made) :=
    re_sub calc_pattern (replace_calc_id calc_map) cleaned replacements_made in
  let '(cleaned, replacements_made) :=
    re_sub at_pattern (replace_at_id calc_map) cleaned replacements_made in
  re_sub direct_id_pattern (replace_direct_id calc_map) cleaned replacements_made.

(** Nothing in the [try] block raises on strings and a string-valued map,
    so the [except] branch is not reached. *)
Definition clean_calculation_formula (raw_formula : string)
    (calc_map : gmap string string) : string * string :=
  if decide (raw_formula = "") then (raw_formula, "No Formula") else
  let status := "Success" in
  let '(cleaned, replacements_made) :=
    substitute_references raw_formula calc_map in
  let status :=
    if (replacements_made =? 0) && re_search any_reference raw_formula
    then "Unresolved References" else status in
  let status :=
    if (0 <? replacements_made) && re_search any_reference cleaned
    then "Partially Resolved" else status in
  (cleaned, status).

End Resolver.

(** ** The document tree *)

(** An element of [xml.etree.ElementTree]: tag, attribute dictionary, text
    ([None] when the element has none) and child elements. *)
#[warning="-register-all"]
Inductive Element : Type :=
  mkElement {
    tag : string;
    attrib : gmap string string;
    text : option string;
    children : list Element
  }.

(** [e.iter()]: the element and its descendants, in document order. *)
Fixpoint iter (e : Element) : list Element :=
  e :: flat_map iter (children e).

(** [e.get(key, default)] *)
Definition get (e : Element) (key dflt : string) : string :=
  default dflt (attrib e !! key).

(** [e.findall('.//t')]: the proper descendants with tag [t], in document
    order. *)
Definition findall (e : Element) (t : string) : list Element :=
  filter (λ x, tag x = t) (flat_map iter (children e)).

(** [e.find('.//t')]: the first of them, if any. *)
Definition find (e : Element) (t : string) : option Element :=
  head (findall e t).

(** [e.findall('.//t1//t2')]: for every [t1] descendant in turn, its [t2]
    descendants. *)
Definition findall2 (e : Element) (t1 t2 : string) : list Element :=
  flat_map (λ x, findall x t2) (findall e t1).

(** ** The intermediate model *)

Module Field.
Record t := mk {
  name : string;
  caption : string;
  datatype : string;
  role : string;
  datasource : string;
  formula : string;
  field_type : string
}.
End Field.

Module Usage.
Record t := mk {
  field : string;
  worksheet : string;
  datasource : string
}.
End Usage.

Module Connection.
Record t := mk {
  name : string;
  alias : string;
  class : string
}.
End Connection.

Record Data := mkData {
  fields : list Field.t;
  calculations : gmap string string;
  field_worksheet_usage : list Usage.t;
  connections : gmap string Connection.t
}.

(** ** The metadata extractor *)

(** First pass, columns: [calc_id_to_caption[calc_id] = caption]. *)
Definition column_caption (calc_id_to_caption : gmap string string)
    (col : Element) : gmap string string :=
  match find col "calculation" with
  | Some calc_elem =>
      let calc_id := get calc_elem "id" "" in
      if decide (calc_id = "") then calc_id_to_caption else
      let caption := get col "caption" (get col "name" "") in
      if decide (caption = "") then calc_id_to_caption else
      <[calc_id := caption]> calc_id_to_caption
  | None => calc_id_to_caption
  end.

(** First pass, calculation elements. *)
Definition calculation_caption (calc_id_to_caption : gmap string string)
    (calc : Element) : gmap string string :=
  let calc_id := get calc "id" "" in
  if decide (calc_id = "") then calc_id_to_caption else
  let caption := get calc "caption" (get calc "name" "") in
  if decide (caption = "") then calc_id_to_caption else
  <[calc_id := caption]> calc_id_to_caption.

(** The connection recorded for a datasource. *)
Definition connection_info (conn : Element) (ds_caption : string)
    : Connection.t :=
  let conn_class := get conn "class" "" in
  let conn_name :=
    get conn "server" (get conn "filename" (get conn "database" "")) in
  {| Connection.name := conn_name;
     Connection.alias := ds_caption;
     Connection.class := conn_class |}.

(** The body of the loop over the columns of a datasource. *)
Definition column_step (ds_name : string) (data : Data) (col : Element)
    : Data :=
  let field_name := get col "name" "" in
  let field_caption := get col "caption" field_name in
  let calc_elem := find col "calculation" in
  let formula := "" in
  let field_type := "Dimension" in
  let '(formula, field_type, calcs) :=
    match calc_elem with
    | Some calc_elem =>
        let formula := get calc_elem "formula" "" in
        let field_type := "Calculated Field" in
        let calc_class := get calc_elem "class" "" in
        let field_type :=
          if contains "tableau" calc_class then "Table Calculation"
          else field_type in
        let calc_id := get calc_elem "id" "" in
        let calcs :=
          if decide (calc_id ≠ "" ∧ field_caption ≠ "")
          then <[calc_id := field_caption]> (calculations data)
          else calculations data in
        (formula, field_type, calcs)
    | None =>
        if decide (attrib col !! "role" = Some "measure") then
          let field_type := "Measure" in
          let field_type :=
            match attrib col !! "aggregation" with
            | Some a => if decide (a = "") then field_type
                        else "Aggregated Measure"
            | None => field_type
            end in
          (formula, field_type, calculations data)
        else (formula, field_type, calculations data)
    end in
  let field :=
    {| Field.name := field_name;
       Field.caption := field_caption;
       Field.datatype := get col "datatype" "";
       Field.role := get col "role" "";
       Field.datasource := ds_name;
       Field.formula := formula;
       Field.field_type := field_type |} in
  mkData (fields data ++ [field]) calcs
    (field_worksheet_usage data) (connections data).

(** The body of the loop over the datasources. *)
Definition datasource_step (data : Data) (ds : Element) : Data :=
  let ds_name := get ds "name" "" in
  let ds_caption := get ds "caption" ds_name in
  let data :=
    match find ds "connection" with
    | Some conn =>
        mkData (fields data) (calculations data) (field_worksheet_usage data)
          (<[ds_name := connection_info conn ds_caption]> (connections data))
    | None => data
    end in
  fold_left (column_step ds_name) (findall ds "column") data.

(** The body of the loop over standalone calculations. *)
Definition calculation_step (data : Data) (calc : Element) : Data :=
  let calc_name := get calc "name" "" in
  let calc_caption := get calc "caption" calc_name in
  let formula := get calc "formula" "" in
  if bool_decide (calc_name ≠ "") &&
     negb (existsb (λ f, bool_decide (Field.name f = calc_name)) (fields data))
  then
    let field :=
      {| Field.name := calc_name;
         Field.caption := calc_caption;
         Field.datatype := get calc "datatype" "";
         Field.role := get calc "role" "";
         Field.datasource := "";
         Field.formula := formula;
         Field.field_type := "Calculated Field" |} in
    mkData (fields data ++ [field]) (calculations data)
      (field_worksheet_usage data) (connections data)
  else data.

(** Usage pairs from the datasource dependencies of a worksheet. *)
Definition dependency_usage (ws_name : string) (usage : list Usage.t)
    (dep : Element) : list Usage.t :=
  let ds_name := get dep "datasource" "" in
  fold_left
    (λ usage col,
       let field_name := get col "name" "" in
       if decide (field_name = "") then usage else
       usage ++ [ {| Usage.field := field_name;
                     Usage.worksheet := ws_name;
                     Usage.datasource := ds_name |} ])
    (findall dep "column") usage.

(** Usage pairs from the encodings of a worksheet. *)
Definition encoding_usage (ws_name : string) (usage : list Usage.t)
    (enc_col : Element) : list Usage.t :=
  let field_ref :=
    match text enc_col with
    | Some t => if decide (t = "") then get enc_col "column" "" else t
    | None => get enc_col "column" ""
    end in
  if decide (field_ref = "") then usage else
  let field_ref :=
    if startswith field_ref "[" && endswith field_ref "]"
    then slice_1_m1 field_ref else field_ref in
  usage ++ [ {| Usage.field := field_ref;
                Usage.worksheet := ws_name;
                Usage.datasource := "" |} ].

(** The body of the loop over the worksheets. *)
Definition worksheet_step (usage : list Usage.t) (ws : Element)
    : list Usage.t :=
  let ws_name := get ws "name" "" in
  let usage :=
    fold_left (dependency_usage ws_name)
      (findall ws "datasource-dependencies") usage in
  fold_left (encoding_usage ws_name) (findall2 ws "encoding" "column") usage.

(** The deduplication loop: [seen] is the set of keys met so far. *)
Definition unique_step (st : gset (string * string) * list Usage.t)
    (usage : Usage.t) : gset (string * string) * list Usage.t :=
  let '(seen, unique_usage) := st in
  let key := (Usage.field usage, Usage.worksheet usage) in
  if decide (key ∈ seen) then (seen, unique_usage)
  else ({[key]} ∪ seen, unique_usage ++ [usage]).

Definition remove_duplicates (usages : list Usage.t) : list Usage.t :=
  snd (fold_left unique_step usages (∅, [])).

(** The usage pairs collected over all worksheets, before deduplication. *)
Definition collect_usage (root : Element) : list Usage.t :=
  fold_left worksheet_step (findall root "worksheet") [].

Definition extract_all_data (root : Element) (filename : string) : Data :=
  let data := mkData [] ∅ [] ∅ in
  let calc_id_to_caption : gmap string string := ∅ in
  let calc_id_to_caption :=
    fold_left column_caption (findall root "column") calc_id_to_caption in
  let calc_id_to_caption :=
    fold_left calculation_caption (findall root "calculation")
      calc_id_to_caption in
  let data :=
    mkData (fields data) calc_id_to_caption (field_worksheet_usage data)
      (connections data) in
  let data := fold_left datasource_step (findall root "datasource") data in
  let data := fold_left calculation_step (findall root "calculation") data in
  let data :=
    mkData (fields data) (calculations data)
      (fold_left worksheet_step (findall root "worksheet")
         (field_worksheet_usage data))
      (connections data) in
  mkData (fields data) (calculations data)
    (remove_duplicates (field_worksheet_usage data)) (connections data).

(** ** The row builder *)

Module Row.
Record t := mk {
  column_id : nat;
  column_name : string;
  column_alias : string;
  field_type : string;
  connection_name : string;
  connection_alias : string;
  datatype : string;
  role : string;
  calculation_formula : string;
  original_calculation : string;
  calc_clean_status : string;
  field_used_in_worksheets : string;
  worksheet_name : string;
  file_name : string
}.
End Row.

(** [usage_by_field[field].append(usage['worksheet'])], the list being
    created empty when the field is met for the first time. *)
Definition usage_step (usage_by_field : gmap string (list string))
    (usage : Usage.t) : gmap string (list string) :=
  let field := Usage.field usage in
  let usage_by_field :=
    match usage_by_field !! field with
    | None => <[field := []]> usage_by_field
    | Some _ => usage_by_field
    end in
  alter (λ l, l ++ [Usage.worksheet usage]) field usage_by_field.

(** The dictionary appended to [final_rows]. *)
Definition final_row (filename : string) (field : Field.t)
    (conn_name conn_alias cleaned_formula original_formula clean_status : string)
    (column_id : nat) (worksheet : string) : Row.t :=
  let field_used := if decide (worksheet = "") then "No" else "Yes" in
  {| Row.column_id := column_id;
     Row.column_name := Field.name field;
     Row.column_alias := Field.caption field;
     Row.field_type := Field.field_type field;
     Row.connection_name := conn_name;
     Row.connection_alias := conn_alias;
     Row.datatype := Field.datatype field;
     Row.role := Field.role field;
     Row.calculation_formula := cleaned_formula;
     Row.original_calculation := original_formula;
     Row.calc_clean_status := clean_status;
     Row.field_used_in_worksheets := field_used;
     Row.worksheet_name := worksheet;
     Row.file_name := filename |}.

(** The body of the innermost loop: one row, and the next identifier. *)
Definition row_step (filename : string) (field : Field.t)
    (conn_name conn_alias cleaned_formula original_formula clean_status : string)
    (st : list Row.t * nat) (worksheet : string) : list Row.t * nat :=
  let '(final_rows, column_id) := st in
  (final_rows ++
     [final_row filename field conn_name conn_alias cleaned_formula
        original_formula clean_status column_id worksheet],
   column_id + 1).

Section RowBuilder.
Context {unicode : UnicodeData}.

(** The body of the loop over the fields of a workbook. *)
Definition field_step (filename : string) (data : Data)
    (calc_map : gmap string string)
    (usage_by_field : gmap string (list string))
    (st : list Row.t * nat) (field : Field.t) : list Row.t * nat :=
  let field_name := Field.name field in
  let worksheets := default [""] (usage_by_field !! field_name) in
  let conn_info := connections data !! Field.datasource field in
  let conn_name := from_option Connection.name "" conn_info in
  let conn_alias :=
    from_option Connection.alias (Field.datasource field) conn_info in
  let original_formula := Field.formula field in
  let cleaned_formula := "" in
  let clean_status := "No Calculation" in
  let '(cleaned_formula, clean_status) :=
    if decide (original_formula = "") then (cleaned_formula, clean_status)
    else clean_calculation_formula original_formula calc_map in
  let worksheets :=
    match worksheets with [] => [""] | _ => worksheets end in
  fold_left
    (row_step filename field conn_name conn_alias cleaned_formula
       original_formula clean_status)
    worksheets st.

(** The body of the loop over the workbooks. *)
Definition workbook_step (st : list Row.t * nat) (item : string * Data)
    : list Row.t * nat :=
  let '(filename, data) := item in
  let calc_map := calculations data in
  let fields_by_name : gmap string Field.t :=
    fold_left (λ m f, <[Field.name f := f]> m) (fields data) ∅ in
  let usage_by_field :=
    fold_left usage_step (field_worksheet_usage data) ∅ in
  fold_left (field_step filename data calc_map usage_by_field)
    (fields data) st.

(** [all_workbook_data.items()] is the list of (file name, model) pairs in
    insertion order. *)
Definition build_final_output (all_workbook_data : list (string * Data))
    : list Row.t :=
  let final_rows := [] in
  let column_id := 1 in
  fst (fold_left workbook_step all_workbook_data (final_rows, column_id)).

End RowBuilder.

(** ** The loader and the batch *)

(** [c.lower()] on the bytes of a string: the letters A to Z move up by 32.
    The bytes of the characters above ASCII are left as they are; the
    program lowers those characters too, but its only use of a lowered
    string is to ask whether it ends with ".twb" or ".twbx", and no
    character above ASCII lowers to a string that holds one of the
    characters of these suffixes. *)
Definition lower_char (c : ascii) : ascii :=
  let n := nat_of_ascii c in
  if (65 <=? n) && (n <=? 90) then ascii_of_nat (n + 32) else c.

(** [s.lower()] *)
Fixpoint lower (s : string) : string :=
  match s with
  | EmptyString => EmptyString
  | String c s' => String (lower_char c) (lower s')
  end.

(** [s.endswith(suffix)] for a suffix of any length. *)
Fixpoint endswith_str (s suffix : string) : bool :=
  bool_decide (s = suffix) ||
  match s with
  | EmptyString => false
  | String _ s' => endswith_str s' suffix
  end.

(** The outcome of a call that may raise: the value returned, or the
    message [str(e)] of the exception raised. *)
Inductive result (A : Type) : Type :=
  | Ok (a : A)
  | Raised (message : string).
Arguments Ok {A} a.
Arguments Raised {A} message.

#[global] Instance result_bind : MBind result := λ A B f r,
  match r with
  | Ok a => f a
  | Raised message => Raised message
  end.

(** What the program asks of the operating system and of the libraries:
    [os.walk], [os.path.join], [os.path.basename], the member names of the
    archive at a path ([zipfile.ZipFile(path, 'r')] and [namelist()]), the
    root of the document parsed from a member of the archive ([zf.open] and
    [ET.parse]) and the root of the document parsed from a file
    ([ET.parse(path)]). *)
Class FileSystem := {
  os_walk : string → list (string * list string * list string);
  os_path_join : string → string → string;
  os_path_basename : string → string;
  zip_namelist : string → result (list string);
  zip_parse : string → string → result Element;
  et_parse : string → result Element
}.

(** [next(n for n in names if n.lower().endswith('.twb'))]; an exhausted
    generator raises [StopIteration], whose message is empty. *)
Definition next_twb (names : list string) : result string :=
  match filter (λ n, endswith_str (lower n) ".twb" = true) names with
  | twb :: _ => Ok twb
  | [] => Raised ""
  end.

(** The root of the parsed document stands for the tree [ET.parse]
    returns, of which the caller takes [getroot()] at once. *)
Definition extract_twb_tree `{FileSystem} (path : string)
    : result (Element * string) :=
  if endswith_str (lower path) ".twbx" then
    names ← zip_namelist path;
    twb ← next_twb names;
    root ← zip_parse path twb;
    Ok (root, os_path_basename path)
  else
    root ← et_parse path;
    Ok (root, os_path_basename path).

(** [d[k] = v] on the items of a dictionary: the value of a key already
    there is replaced where it stands, a new key goes to the end. *)
Fixpoint dict_set {V} (k : string) (v : V) (d : list (string * V))
    : list (string * V) :=
  match d with
  | [] => [(k, v)]
  | (k', v') :: d' =>
      if decide (k' = k) then (k, v) :: d' else (k', v') :: dict_set k v d'
  end.

(** The body of the loop over the files of a directory: the dictionary of
    workbooks and the lines printed so far. *)
Definition file_step `{FileSystem} (root_dir : string)
    (st : list (string * Data) * list string) (f : string)
    : list (string * Data) * list string :=
  let '(all_workbook_data, printed) := st in
  if endswith_str (lower f) ".twb" || endswith_str (lower f) ".twbx" then
    let filepath := os_path_join root_dir f in
    match extract_twb_tree filepath with
    | Ok (root, filename) =>
        let printed := printed ++ ["Processing " +:+ filename +:+ "..."] in
        let data := extract_all_data root filename in
        (dict_set filename data all_workbook_data, printed)
    | Raised message =>
        (all_workbook_data,
         printed ++ ["Error processing " +:+ f +:+ ": " +:+ message])
    end
  else st.

(** The dictionary returned, with the lines printed on the way. *)
Definition process_all_files `{FileSystem} (input_dir : string)
    : list (string * Data) * list string :=
  fold_left
    (λ st '(root_dir, _, files), fold_left (file_step root_dir) files st)
    (os_walk input_dir) ([], []).

(** ** Specification vocabulary for the resolver *)

Section ResolverVocabulary.
Context {unicode : UnicodeData}.

(** The text of a reference in syntax [p] to identifier [id]. *)
Definition reference (p : ref_pattern) (id : string) : string :=
  lit p +:+ id +:+ String (closer p) "".

(** [s] is made of [n] digits: the encodings of [n] characters of the
    class [\d], one after the other. *)
Inductive digit_string : nat → string → Prop :=
  | digit_string_nil : digit_string 0 ""
  | digit_string_cons d n s :
      digit_head d = Some (d, "") → digit_string n s →
      digit_string (S n) (d +:+ s).

(** [id] is an identifier of syntax [p]: digits, at least [min_digits p]. *)
Definition identifier (p : ref_pattern) (id : string) : Prop :=
  ∃ n, digit_string n id ∧ min_digits p ≤ n.

(** A reference in syntax [p] to [id] stands somewhere in [s]. *)
Definition occurs (p : ref_pattern) (id s : string) : Prop :=
  identifier p id ∧ ∃ pre post, s = pre +:+ reference p id +:+ post.

(** [s] matches one of the three reference syntaxes. *)
Definition has_reference (s : string) : Prop :=
  ∃ p id, p ∈ any_reference ∧ occurs p id s.

(** [c] is a character of ASCII other than the digits 0 to 9. *)
Definition plain_ascii (c : ascii) : bool :=
  let b := N_of_ascii c in
  ((b <? 128) && negb ((48 <=? b) && (b <=? 57)))%N.

(** [c] occurs in [s]. *)
Fixpoint has_char (c : ascii) (s : string) : bool :=
  match s with
  | EmptyString => false
  | String a s' => Ascii.eqb a c || has_char c s'
  end.

(** Every reference of [s] names an identifier of the map. *)
Definition references_resolvable (calc_map : gmap string string)
    (s : string) : Prop :=
  ∀ p id, p ∈ any_reference → occurs p id s → is_Some (calc_map !! id).

(** No caption of the map, once bracketed, matches a reference syntax. *)
Definition captions_plain (calc_map : gmap string string) : Prop :=
  ∀ id name, calc_map !! id = Some name →
             ¬ has_reference ("[" +:+ name +:+ "]").

(** The identifiers of the references in syntax [p] that [s] holds, by
    position. *)
Fixpoint reference_ids (p : ref_pattern) (s : string) : list string :=
  match match_at p s with
  | Some (m, _) => [group1 m]
  | None => []
  end ++
  match s with
  | EmptyString => []
  | String _ s' => reference_ids p s'
  end.

(** What a pass in syntax [p] puts in place of a reference to [id]. *)
Definition replacement (calc_map : gmap string string) (p : ref_pattern)
    (id : string) : string :=
  from_option (λ name, "[" +:+ name +:+ "]") (reference p id)
    (calc_map !! id).

(** The identifiers of [ids] that are keys of the map. *)
Definition resolvable_ids (calc_map : gmap string string)
    (ids : list string) : list string :=
  filter (λ id, is_Some (calc_map !! id)) ids.

(** Some reference of [s] names a key of the map. *)
Definition resolvable_reference (calc_map : gmap string string)
    (s : string) : Prop :=
  ∃ p id, p ∈ any_reference ∧ occurs p id s ∧ is_Some (calc_map !! id).

(** Some reference of [s] names no key of the map. *)
Definition unresolvable_reference (calc_map : gmap string string)
    (s : string) : Prop :=
  ∃ p id, p ∈ any_reference ∧ occurs p id s ∧ calc_map !! id = None.

End ResolverVocabulary.

(** ** Specification vocabulary for the extractor *)

(** The composite key of a usage pair. *)
Definition usage_key (u : Usage.t) : string * string :=
  (Usage.field u, Usage.worksheet u).

(** The declaration a column makes: the identifier of its nested calculation
    and the column's caption (or name), when both are non-empty. *)
Definition column_declaration (col : Element) : option (string * string) :=
  calc_elem ← find col "calculation";
  let calc_id := get calc_elem "id" "" in
  let caption := get col "caption" (get col "name" "") in
  if decide (calc_id ≠ "" ∧ caption ≠ "") then Some (calc_id, caption)
  else None.

(** The declaration a calculation element makes by itself: its identifier
    and its own caption (or name), when both are non-empty. *)
Definition calculation_declaration (calc : Element)
    : option (string * string) :=
  let calc_id := get calc "id" "" in
  let caption := get calc "caption" (get calc "name" "") in
  if decide (calc_id ≠ "" ∧ caption ≠ "") then Some (calc_id, caption)
  else None.

(** The columns below the datasources, datasource by datasource. *)
Definition datasource_columns (root : Element) : list (Element * Element) :=
  flat_map (λ ds, (λ col, (ds, col)) <$> findall ds "column")
    (findall root "datasource").

(** The writes to the calculation map in the order the extractor makes
    them: every column of the document, then every calculation element of
    the document, then the columns below the datasources. *)
Definition calculation_writes (root : Element) : list (string * string) :=
  omap column_declaration (findall root "column") ++
  omap calculation_declaration (findall root "calculation") ++
  omap column_declaration
    (flat_map (λ ds, findall ds "column") (findall root "datasource")).

(** The value a sequence of writes leaves at a key. *)
Definition last_write {V} (k : string) (writes : list (string * V))
    : option V :=
  snd <$> last (filter (λ w, fst w = k) writes).

(** One write to a dictionary. *)
Definition write {V} (m : gmap string V) (w : string * V) : gmap string V :=
  <[fst w := snd w]> m.

(** Modelled from the claim's words (C5): the declarations of the document
    in document traversal order, datasource-column calculations and
    standalone calculation declarations merged. *)
Definition document_order_declarations (root : Element)
    : list (string * string) :=
  omap (λ e, if decide (tag e = "column") then column_declaration e
             else if decide (tag e = "calculation")
                  then calculation_declaration e
                  else None)
    (flat_map iter (children root)).

(** The first of the listed attributes that the element carries, whatever
    its value. *)
Definition first_present (e : Element) (keys : list string) : string :=
  default "" (head (omap (λ k, attrib e !! k) keys)).

(** Modelled from the claim's words (C4): the first of the listed
    attributes whose value is non-empty. *)
Definition first_non_empty (e : Element) (keys : list string) : string :=
  default "" (head (filter (λ v, v ≠ "") (omap (λ k, attrib e !! k) keys))).

(** The connection a datasource element records, if it has a connection
    element, with the endpoint as [first_present] finds it. *)
Definition datasource_connection (ds : Element)
    : option (string * Connection.t) :=
  conn ← find ds "connection";
  Some (get ds "name" "",
        {| Connection.name :=
             first_present conn ["server"; "filename"; "database"];
           Connection.alias := get ds "caption" (get ds "name" "");
           Connection.class := get conn "class" "" |}).

(** The precedence of field types: a nested calculation first, then the
    measure role, with the aggregation attribute counting when it has a
    non-empty value. *)
Definition field_type_by_precedence (col : Element) : string :=
  match find col "calculation" with
  | Some calc_elem =>
      if contains "tableau" (get calc_elem "class" "")
      then "Table Calculation" else "Calculated Field"
  | None =>
      if decide (attrib col !! "role" = Some "measure") then
        if decide (get col "aggregation" "" ≠ "")
        then "Aggregated Measure" else "Measure"
      else "Dimension"
  end.

(** Modelled from the claim's words (C7): the same precedence, with the
    aggregation attribute counting as soon as it is present. *)
Definition field_type_as_claimed (col : Element) : string :=
  match find col "calculation" with
  | Some calc_elem =>
      if contains "tableau" (get calc_elem "class" "")
      then "Table Calculation" else "Calculated Field"
  | None =>
      if decide (attrib col !! "role" = Some "measure") then
        if decide (is_Some (attrib col !! "aggregation"))
        then "Aggregated Measure" else "Measure"
      else "Dimension"
  end.

(** The field the extractor records for a column of a datasource. *)
Definition column_field (ds_name : string) (col : Element) : Field.t :=
  {| Field.name := get col "name" "";
     Field.caption := get col "caption" (get col "name" "");
     Field.datatype := get col "datatype" "";
     Field.role := get col "role" "";
     Field.datasource := ds_name;
     Field.formula :=
       from_option (λ calc_elem, get calc_elem "formula" "") ""
         (find col "calculation");
     Field.field_type := field_type_by_precedence col |}.

(** The fields of the columns below the datasources, in order. *)
Definition datasource_fields (root : Element) : list Field.t :=
  flat_map (λ ds, column_field (get ds "name" "") <$> findall ds "column")
    (findall root "datasource").

(** The field a standalone calculation is recorded as. *)
Definition calculation_field (calc : Element) : Field.t :=
  {| Field.name := get calc "name" "";
     Field.caption := get calc "caption" (get calc "name" "");
     Field.datatype := get calc "datatype" "";
     Field.role := get calc "role" "";
     Field.datasource := "";
     Field.formula := get calc "formula" "";
     Field.field_type := "Calculated Field" |}.

(** Of the elements that share a name, the first; the others are left
    out. *)
Fixpoint first_of_each_name (calcs : list Element) : list Element :=
  match calcs with
  | [] => []
  | calc :: calcs' =>
      calc :: filter (λ c, get c "name" "" ≠ get calc "name" "")
                (first_of_each_name calcs')
  end.

(** [calc] has a name, and none of the names [seen]. *)
Definition new_name (seen : list string) (calc : Element) : Prop :=
  get calc "name" "" ≠ "" ∧ get calc "name" "" ∉ seen.

#[global] Instance new_name_dec seen calc : Decision (new_name seen calc).
Proof. unfold new_name. apply _. Defined.

(** The calculation elements that become fields of their own: those with a
    name that no datasource column has, the first of every name. *)
Definition standalone_calculations (root : Element) : list Element :=
  first_of_each_name
    (filter (new_name (Field.name <$> datasource_fields root))
       (findall root "calculation")).

(** The usage pair of a dependency column, if the column has a name. *)
Definition dependency_entry (ws_name : string) (dep col : Element)
    : option Usage.t :=
  if decide (get col "name" "" = "") then None
  else Some {| Usage.field := get col "name" "";
               Usage.worksheet := ws_name;
               Usage.datasource := get dep "datasource" "" |}.

(** Where a collected usage pair comes from. *)
Definition usage_origin (wss : list Element) (u : Usage.t) : Prop :=
  ∃ ws, ws ∈ wss ∧ Usage.worksheet u = get ws "name" "" ∧
        (Usage.datasource u ≠ "" → Usage.field u ≠ "").

(** The pairs the loop keeps from [usages] when [seen] is the set of keys
    already met. *)
Definition kept_after (seen : gset (string * string))
    (usages : list Usage.t) : list Usage.t :=
  snd (fold_left unique_step usages (seen, [])).

(** ** Specification vocabulary for the row builder *)

Section RowBuilderVocabulary.
Context {unicode : UnicodeData}.

(** The worksheets of the usage entries naming a field, in order. *)
Definition usages_of (data : Data) (field_name : string) : list string :=
  Usage.worksheet <$>
    filter (λ u, Usage.field u = field_name) (field_worksheet_usage data).

(** The worksheet entries a field is expanded over: its usages, or the
    single empty entry when it has none. *)
Definition worksheets_of (data : Data) (field_name : string) : list string :=
  match usages_of data field_name with
  | [] => [""]
  | ws => ws
  end.

(** The index [usage_by_field] that the row builder computes for a model. *)
Definition usage_index (data : Data) : gmap string (list string) :=
  fold_left usage_step (field_worksheet_usage data) ∅.

(** The rows the loop emits while it is at [field], the counter being at
    [column_id] when it gets there. *)
Definition field_rows (filename : string) (data : Data) (field : Field.t)
    (column_id : nat) : list Row.t :=
  fst (field_step filename data (calculations data) (usage_index data)
         ([], column_id) field).

(** The rows emitted over a list of fields, then over a list of workbooks,
    the counter running on. *)
Fixpoint fields_rows (filename : string) (data : Data) (fs : list Field.t)
    (column_id : nat) : list Row.t :=
  match fs with
  | [] => []
  | f :: fs' =>
      let rs := field_rows filename data f column_id in
      rs ++ fields_rows filename data fs' (column_id + length rs)
  end.

Fixpoint workbooks_rows (wbs : list (string * Data)) (column_id : nat)
    : list Row.t :=
  match wbs with
  | [] => []
  | (filename, data) :: wbs' =>
      let rs := fields_rows filename data (fields data) column_id in
      rs ++ workbooks_rows wbs' (column_id + length rs)
  end.

(** The row for one worksheet entry of a field, as the specification
    describes it: field attributes, resolved connection, resolved formula. *)
Definition row_of (filename : string) (data : Data) (field : Field.t)
    (column_id : nat) (worksheet : string) : Row.t :=
  let conn_info := connections data !! Field.datasource field in
  let resolved :=
    if decide (Field.formula field = "") then ("", "No Calculation")
    else clean_calculation_formula (Field.formula field) (calculations data) in
  final_row filename field
    (from_option Connection.name "" conn_info)
    (from_option Connection.alias (Field.datasource field) conn_info)
    (fst resolved) (Field.formula field) (snd resolved) column_id worksheet.

(** A model without the usage pairs whose field names no field of it. *)
Definition without_unmatched (data : Data) : Data :=
  mkData (fields data) (calculations data)
    (filter (λ u, Usage.field u ∈ Field.name <$> fields data)
       (field_worksheet_usage data))
    (connections data).

Definition drop_unmatched (item : string * Data) : string * Data :=
  (fst item, without_unmatched (snd item)).

(** Where a row sits in the traversal: file, field, worksheet. *)
Definition row_key (r : Row.t) : string * string * string :=
  (Row.file_name r, Row.column_name r, Row.worksheet_name r).

(** A row with its Column ID moved up by [k]. *)
Definition shift_column_id (k : nat) (r : Row.t) : Row.t :=
  {| Row.column_id := k + Row.column_id r;
     Row.column_name := Row.column_name r;
     Row.column_alias := Row.column_alias r;
     Row.field_type := Row.field_type r;
     Row.connection_name := Row.connection_name r;
     Row.connection_alias := Row.connection_alias r;
     Row.datatype := Row.datatype r;
     Row.role := Row.role r;
     Row.calculation_formula := Row.calculation_formula r;
     Row.original_calculation := Row.original_calculation r;
     Row.calc_clean_status := Row.calc_clean_status r;
     Row.field_used_in_worksheets := Row.field_used_in_worksheets r;
     Row.worksheet_name := Row.worksheet_name r;
     Row.file_name := Row.file_name r |}.

End RowBuilderVocabulary.

(** ** Specification vocabulary for the loader and the batch *)

(** [name] ends with an extension that reads [ext] in lower case. *)
Definition has_extension (ext name : string) : Prop :=
  ∃ stem e, name = stem +:+ e ∧ lower e = ext.

(** The workbook files of the walk, each with the directory it is in, in
    the order of the walk. *)
Definition workbook_files `{FileSystem} (input_dir : string)
    : list (string * string) :=
  flat_map (λ '(root_dir, _, files),
      (λ f, (root_dir, f)) <$>
        filter (λ f, endswith_str (lower f) ".twb" ||
                     endswith_str (lower f) ".twbx" = true) files)
    (os_walk input_dir).

(** The model of a workbook file, under its display name, when the file
    loads. *)
Definition loaded_workbook `{FileSystem} (file : string * string)
    : option (string * Data) :=
  match extract_twb_tree (os_path_join (fst file) (snd file)) with
  | Ok (root, filename) => Some (filename, extract_all_data root filename)
  | Raised _ => None
  end.

(** The line printed for a workbook file. *)
Definition printed_line `{FileSystem} (file : string * string) : string :=
  match extract_twb_tree (os_path_join (fst file) (snd file)) with
  | Ok (_, filename) => "Processing " +:+ filename +:+ "..."
  | Raised message => "Error processing " +:+ snd file +:+ ": " +:+ message
  end.

(** The distinct elements of a list, in the order in which they first
    occur. *)
Fixpoint first_occurrences (l : list string) : list string :=
  match l with
  | [] => []
  | x :: l' => x :: filter (λ y, y ≠ x) (first_occurrences l')
  end.

(** [d.get(k)] on the items of a dictionary. *)
Definition dict_get {V} (k : string) (d : list (string * V)) : option V :=
  snd <$> head (filter (λ item, fst item = k) d).

(** ** Sample maps, documents and models *)

(** The decimal digits of Unicode 14.0 above ASCII: the code points of the
    digit zero of every script, each followed by its digits one to nine. *)
Definition decimal_zeros : list N :=
  [ 0x660; 0x6F0; 0x7C0; 0x966; 0x9E6; 0xA66; 0xAE6; 0xB66; 0xBE6; 0xC66;
    0xCE6; 0xD66; 0xDE6; 0xE50; 0xED0; 0xF20; 0x1040; 0x1090; 0x17E0;
    0x1810; 0x1946; 0x19D0; 0x1A80; 0x1A90; 0x1B50; 0x1BB0; 0x1C40;
    0x1C50; 0xA620; 0xA8D0; 0xA900; 0xA9D0; 0xA9F0; 0xAA50; 0xABF0;
    0xFF10; 0x104A0; 0x10D30; 0x11066; 0x110F0; 0x11136; 0x111D0;
    0x112F0; 0x11450; 0x114D0; 0x11650; 0x116C0; 0x11730; 0x118E0;
    0x11950; 0x11C50; 0x11D50; 0x11DA0; 0x16A60; 0x16AC0; 0x16B50;
    0x1D7CE; 0x1D7D8; 0x1D7E2; 0x1D7EC; 0x1D7F6; 0x1E140; 0x1E2F0;
    0x1E950; 0x1FBF0 ]%N.

Definition unicode_14_0 : UnicodeData :=
  {| decimal cp :=
       existsb (λ zero, (zero <=? cp)%N && (cp <=? zero + 9)%N)
         decimal_zeros |}.

(** The map of the specification's first example. *)
Definition profit_sales_map : gmap string string :=
  <["1001" := "Profit"]> (<["1002" := "Sales"]> ∅).

(** A map one of whose captions is the name of another calculation. *)
Definition chained_map : gmap string string :=
  <["1" := "Calculation_2"]> (<["2" := "Profit"]> ∅).

(** An attribute dictionary from its (name, value) pairs. *)
Definition attrs (l : list (string * string)) : gmap string string :=
  list_to_map l.

(** A file datasource whose connection carries an empty [server]. *)
Definition csv_connection : Element :=
  mkElement "connection"
    (attrs [("class", "textscan"); ("server", ""); ("filename", "sales.csv")])
    None [].

Definition csv_document : Element :=
  mkElement "workbook" ∅ None
    [ mkElement "datasources" ∅ None
        [ mkElement "datasource" (attrs [("name", "Sales")]) None
            [csv_connection] ] ].

(** A datasource column and, later in the document, a standalone
    calculation with the same identifier. *)
Definition shared_id_document : Element :=
  mkElement "workbook" ∅ None
    [ mkElement "datasource" (attrs [("name", "Sales")]) None
        [ mkElement "column"
            (attrs [("name", "[Calculation_1]"); ("caption", "Margin")]) None
            [ mkElement "calculation"
                (attrs [("id", "1"); ("formula", "[Profit]/[Sales]")])
                None [] ] ];
      mkElement "calculation"
        (attrs [("id", "1"); ("name", "[ratio]"); ("caption", "Ratio")])
        None [] ].

(** A measure whose [aggregation] attribute is present and empty. *)
Definition empty_aggregation_column : Element :=
  mkElement "column"
    (attrs [("name", "[Amount]"); ("role", "measure"); ("aggregation", "")])
    None [].

Definition empty_aggregation_document : Element :=
  mkElement "workbook" ∅ None
    [ mkElement "datasource" (attrs [("name", "Sales")]) None
        [empty_aggregation_column] ].

(** A worksheet with one encoding column, whose text is a bracketed
    reference. *)
Definition region_encoding : Element :=
  mkElement "column" ∅ (Some "[Region]") [].

Definition map_worksheet : Element :=
  mkElement "worksheet" (attrs [("name", "Map")]) None
    [ mkElement "encoding" ∅ None [region_encoding] ].

Definition encoded_document : Element :=
  mkElement "workbook" ∅ None [map_worksheet].

(** A workbook with one field of a datasource that has no connection. *)
Definition orphan_field : Field.t :=
  Field.mk "[Region]" "Region" "string" "dimension" "Orders" "" "Dimension".

Definition orphan_model : Data := mkData [orphan_field] ∅ [] ∅.

(** A workbook with one field of a datasource that has a connection. *)
Definition sales_connection : Connection.t :=
  Connection.mk "sales.csv" "Sales data" "textscan".

Definition sales_field : Field.t :=
  Field.mk "[Amount]" "Amount" "real" "measure" "Sales" "" "Measure".

Definition sales_model : Data :=
  mkData [sales_field] ∅ [] {["Sales" := sales_connection]}.

(** * Theorems *)

(** ** Resolver *)

#[local] Arguments String.append : simpl nomatch.

(** The three cases of a pattern of [any_reference]. *)
Ltac pattern_cases H :=
  unfold any_reference in H; rewrite !elem_of_cons, elem_of_nil in H;
  destruct H as [->|[->|[->|[]]]].

Section ResolverTheorems.
Context {unicode : UnicodeData}.

Lemma append_nil_r (s : string) : s +:+ "" = s.
Proof. induction s as [|c s IH]; cbn; [done|]. by rewrite IH. Qed.

Lemma append_assoc (a b c : string) : (a +:+ b) +:+ c = a +:+ b +:+ c.
Proof. induction a as [|x a IH]; cbn; [done|]. by rewrite IH. Qed.

(** Two ways of cutting the same string: one cut point comes first. *)
Lemma append_eq_append (a b c d : string) :
  a +:+ b = c +:+ d →
  (∃ e, c = a +:+ e ∧ b = e +:+ d) ∨ (∃ e, a = c +:+ e ∧ d = e +:+ b).
Proof.
  revert c; induction a as [|x a IH]; intros c H; cbn in *.
  - left. by exists c.
  - destruct c as [|y c]; cbn in *.
    + right. by exists (String x a).
    + injection H as -> H. destruct (IH _ H) as [(e & -> & ->)|(e & -> & ->)].
      * left. by exists e.
      * right. by exists e.
Qed.

Lemma strip_prefix_spec p s r : strip_prefix p s = Some r ↔ s = p +:+ r.
Proof.
  revert s; induction p as [|a p IH]; intros s; cbn.
  - split; [by intros [= ->]|by intros ->].
  - destruct s as [|b s].
    + split; [done|discriminate].
    + destruct (Ascii.eqb_spec a b) as [->|Hab].
      * rewrite IH. split; [by intros ->|by intros [= ->]].
      * split; [done|]. intros [= ? ?]. done.
Qed.

Lemma append_cancel_l (a b c : string) : a +:+ b = a +:+ c → b = c.
Proof. induction a as [|x a IH]; cbn; [done|]. intros [= E]. by apply IH. Qed.

(** The character at the head of a string is followed by the rest. *)
Lemma utf8_head_app s cp d r :
  utf8_head s = Some (cp, d, r) → s = d +:+ r.
Proof.
  unfold utf8_head. intros Hs.
  repeat (case_match; simplify_eq; try done).
Qed.

(** It is the same whatever follows it. *)
Lemma utf8_head_ext s cp d r t :
  utf8_head s = Some (cp, d, r) → utf8_head (s +:+ t) = Some (cp, d, r +:+ t).
Proof.
  unfold utf8_head. intros Hs.
  destruct s as [|a s1]; [done|]. cbn [String.append]. cbv zeta in *.
  destruct (N_of_ascii a <? 128)%N; [by simplify_eq|].
  destruct (N_of_ascii a <? 192)%N; [done|].
  destruct (N_of_ascii a <? 224)%N.
  { destruct s1 as [|b s2]; [done|]. cbn [String.append].
    destruct (continuation b); [|done]. case_match; by simplify_eq. }
  destruct (N_of_ascii a <? 240)%N.
  { destruct s1 as [|b [|c s3]]; [done..|]. cbn [String.append].
    destruct (continuation b), (continuation c); try done.
    case_match; by simplify_eq. }
  destruct (N_of_ascii a <? 248)%N; [|done].
  destruct s1 as [|b [|c [|d0 s4]]]; [done..|]. cbn [String.append].
  destruct (continuation b), (continuation c), (continuation d0); try done.
  case_match; by simplify_eq.
Qed.

Lemma utf8_head_single s cp d r :
  utf8_head s = Some (cp, d, r) → utf8_head d = Some (cp, d, "").
Proof.
  unfold utf8_head. intros Hs.
  destruct s as [|a s1]; [done|]. cbv zeta in *.
  destruct (N_of_ascii a <? 128)%N eqn:E1;
    [simplify_eq; by rewrite E1|].
  destruct (N_of_ascii a <? 192)%N eqn:E2; [done|].
  destruct (N_of_ascii a <? 224)%N eqn:E3.
  { destruct s1 as [|b s2]; [done|].
    destruct (continuation b) eqn:Eb; [|done].
    case_match eqn:E; simplify_eq. by rewrite E1, E2, E3, Eb, E. }
  destruct (N_of_ascii a <? 240)%N eqn:E4.
  { destruct s1 as [|b [|c s3]]; [done..|].
    destruct (continuation b) eqn:Eb, (continuation c) eqn:Ec; try done.
    case_match eqn:E; simplify_eq. by rewrite E1, E2, E3, E4, Eb, Ec, E. }
  destruct (N_of_ascii a <? 248)%N eqn:E5; [|done].
  destruct s1 as [|b [|c [|d0 s4]]]; [done..|].
  destruct (continuation b) eqn:Eb, (continuation c) eqn:Ec,
    (continuation d0) eqn:Ed; try done.
  case_match eqn:E; simplify_eq.
  by rewrite E1, E2, E3, E4, E5, Eb, Ec, Ed, E.
Qed.

Lemma continuation_not_ascii c n x :
  continuation c = Some n → (N_of_ascii x < 128)%N → Ascii.eqb c x = false.
Proof.
  unfold continuation. case_match eqn:E; [|done]. intros _ Hx.
  apply andb_true_iff in E as [E%N.leb_le _].
  destruct (Ascii.eqb_spec c x) as [->|]; [lia|done].
Qed.

(** A character of ASCII is its own encoding; the encoding of any other
    character holds no byte of ASCII. *)
Lemma utf8_head_bytes s cp d r :
  utf8_head s = Some (cp, d, r) →
  (cp < 128)%N ∧ d = String (ascii_of_N cp) "" ∨
  (128 <= cp)%N ∧ ∀ x, (N_of_ascii x < 128)%N → has_char x d = false.
Proof.
  unfold utf8_head. intros Hs.
  destruct s as [|a s1]; [done|]. cbv zeta in *.
  destruct (N.ltb_spec (N_of_ascii a) 128).
  { left. simplify_eq. split; [done|]. by rewrite ascii_N_embedding. }
  assert (Ha : ∀ x, (N_of_ascii x < 128)%N → Ascii.eqb a x = false).
  { intros x Hx. destruct (Ascii.eqb_spec a x) as [->|]; [lia|done]. }
  right.
  destruct (N_of_ascii a <? 192)%N; [done|].
  destruct (N_of_ascii a <? 224)%N.
  { destruct s1 as [|b s2]; [done|].
    destruct (continuation b) eqn:Eb; [|done].
    destruct (N.leb_spec 128 (((N_of_ascii a - 192) * 64 + n))); [|done].
    simplify_eq. split; [done|]. intros x Hx. cbn.
    by rewrite (Ha x Hx), (continuation_not_ascii _ _ _ Eb Hx). }
  destruct (N_of_ascii a <? 240)%N.
  { destruct s1 as [|b [|c s3]]; [done..|].
    destruct (continuation b) eqn:Eb, (continuation c) eqn:Ec; try done.
    case_match eqn:E; [|done]. apply N.leb_le in E.
    simplify_eq. split; [lia|]. intros x Hx. cbn.
    by rewrite (Ha x Hx), (continuation_not_ascii _ _ _ Eb Hx),
      (continuation_not_ascii _ _ _ Ec Hx). }
  destruct (N_of_ascii a <? 248)%N; [|done].
  destruct s1 as [|b [|c [|d0 s4]]]; [done..|].
  destruct (continuation b) eqn:Eb, (continuation c) eqn:Ec,
    (continuation d0) eqn:Ed; try done.
  case_match eqn:E; [|done]. apply andb_true_iff in E as [E%N.leb_le _].
  simplify_eq. split; [lia|]. intros x Hx. cbn.
  by rewrite (Ha x Hx), (continuation_not_ascii _ _ _ Eb Hx),
    (continuation_not_ascii _ _ _ Ec Hx), (continuation_not_ascii _ _ _ Ed Hx).
Qed.

Lemma digit_head_app s d r : digit_head s = Some (d, r) → s = d +:+ r.
Proof.
  unfold digit_head. destruct (utf8_head s) as [[[cp d'] r']|] eqn:E; [|done].
  destruct (is_digit cp); [|done]. intros [= <- <-].
  by eapply utf8_head_app.
Qed.

Lemma digit_head_ext s d r t :
  digit_head s = Some (d, r) → digit_head (s +:+ t) = Some (d, r +:+ t).
Proof.
  unfold digit_head. destruct (utf8_head s) as [[[cp d'] r']|] eqn:E; [|done].
  rewrite (utf8_head_ext _ _ _ _ t E).
  destruct (is_digit cp); [|done]. by intros [= <- <-].
Qed.

Lemma digit_head_single s d r :
  digit_head s = Some (d, r) → digit_head d = Some (d, "").
Proof.
  unfold digit_head. destruct (utf8_head s) as [[[cp d'] r']|] eqn:E; [|done].
  destruct (is_digit cp) eqn:Hd; [|done]. intros [= <- <-].
  by rewrite (utf8_head_single _ _ _ _ E), Hd.
Qed.

(** The encoding of a digit is not empty and holds no character of ASCII
    but a digit. *)
Lemma digit_head_bytes s d r :
  digit_head s = Some (d, r) →
  d ≠ "" ∧ ∀ x, plain_ascii x = true → has_char x d = false.
Proof.
  unfold digit_head. destruct (utf8_head s) as [[[cp d'] r']|] eqn:E; [|done].
  destruct (is_digit cp) eqn:Hd; [|done]. intros [= <- <-].
  destruct (utf8_head_bytes _ _ _ _ E) as [[Hcp ->]|[Hcp Hb]].
  - split; [done|]. intros x Hx. cbn. rewrite orb_false_r.
    destruct (Ascii.eqb_spec (ascii_of_N cp) x) as [<-|]; [|done].
    unfold plain_ascii in Hx. rewrite N_ascii_embedding in Hx by lia.
    unfold is_digit in Hd. apply N.ltb_lt in Hcp. rewrite Hcp in Hd, Hx.
    by rewrite Hd in Hx.
  - split.
    + intros ->. by apply utf8_head_single in E.
    + intros x Hx. apply Hb. unfold plain_ascii in Hx.
      apply andb_true_iff in Hx as [Hx%N.ltb_lt _]. done.
Qed.

(** No digit begins with a character of ASCII that is no digit. *)
Lemma digit_head_plain c r :
  plain_ascii c = true → digit_head (String c r) = None.
Proof.
  intros Hc. destruct (digit_head (String c r)) as [[d r']|] eqn:E; [|done].
  pose proof (digit_head_app _ _ _ E) as Happ.
  destruct (digit_head_bytes _ _ _ E) as [Hne Hb].
  destruct d as [|x d]; [by destruct Hne|]. cbn in Happ.
  injection Happ as <- _.
  specialize (Hb c Hc). cbn in Hb. by rewrite Ascii.eqb_refl in Hb.
Qed.

Lemma span_digits_eq s :
  span_digits s =
    match digit_head s with
    | Some (d, r) => let '(n, ds, r') := span_digits r in (S n, d +:+ ds, r')
    | None => (0, "", s)
    end.
Proof.
  rewrite span_digits_equation_1.
  destruct (inspect (digit_head s)) as [[[d r]|] Heq]; cbn; by rewrite Heq.
Qed.

(** The greedy run is the one way of cutting a string into digits and a
    rest that does not begin with a digit. *)
Lemma span_digits_spec s n ds r :
  span_digits s = (n, ds, r) ↔
  s = ds +:+ r ∧ digit_string n ds ∧ digit_head r = None.
Proof.
  split.
  - remember (String.length s) as k eqn:Hk. revert s Hk n ds r.
    induction (lt_wf k) as [k _ IH]. intros s -> n ds r.
    rewrite span_digits_eq. destruct (digit_head s) as [[d r0]|] eqn:E.
    + destruct (span_digits r0) as [[n0 ds0] r1] eqn:E0. intros [= <- <- <-].
      destruct (IH _ (digit_head_length _ _ _ E) _ eq_refl _ _ _ E0)
        as (-> & Hds & Hr).
      split_and!; [|by constructor; [eapply digit_head_single|]|done].
      rewrite append_assoc. by apply digit_head_app.
    + intros [= <- <- <-]. split_and!; [done|constructor|done].
  - intros (-> & Hds & Hr). induction Hds as [|d n s Hd Hs IH].
    + rewrite span_digits_eq. cbn. by rewrite Hr.
    + rewrite span_digits_eq, append_assoc.
      rewrite (digit_head_ext _ _ _ (s +:+ r) Hd). cbn [String.append].
      by rewrite IH.
Qed.

(** What [match_at] accepts, when the closing character is a character of
    ASCII and no digit: the strings that begin with the text of a
    reference. *)
Lemma match_at_spec p s m rest :
  plain_ascii (closer p) = true →
  match_at p s = Some (m, rest) ↔
  ∃ id, identifier p id ∧ m = ReMatch (reference p id) id ∧
        s = reference p id +:+ rest.
Proof.
  intros Hcl. unfold match_at, identifier, reference. split.
  - destruct (strip_prefix (lit p) s) as [r|] eqn:E1; [|done].
    apply strip_prefix_spec in E1 as ->.
    destruct (span_digits r) as [[n ds] r'] eqn:E2.
    apply span_digits_spec in E2 as (-> & Hds & _).
    destruct (Nat.leb_spec (min_digits p) n); [|done].
    destruct r' as [|c r'']; [done|].
    destruct (Ascii.eqb_spec c (closer p)) as [->|]; [|done].
    intros [= <- <-]. exists ds. split_and!; [by exists n|done|].
    by rewrite !append_assoc.
  - intros (id & (n & Hds & Hlen) & -> & ->).
    rewrite !append_assoc.
    rewrite (proj2 (strip_prefix_spec _ _ _) eq_refl).
    rewrite (proj2 (span_digits_spec _ n id (String (closer p) rest)))
      by (split_and!; [done..|by apply digit_head_plain]).
    apply Nat.leb_le in Hlen. rewrite Hlen. cbn. by rewrite Ascii.eqb_refl.
Qed.

Lemma closer_not_digit p : p ∈ any_reference → plain_ascii (closer p) = true.
Proof.
  unfold any_reference. rewrite !elem_of_cons, elem_of_nil.
  by intros [->|[->|[->|[]]]].
Qed.

Lemma re_search_spec alts s :
  re_search alts s = true ↔
  ∃ p pre t, p ∈ alts ∧ s = pre +:+ t ∧ is_Some (match_at p t).
Proof.
  induction s as [|c s IH]; cbn.
  - rewrite orb_false_r, existsb_exists. split.
    + intros (p & Hp%list_elem_of_In & Hm%bool_decide_eq_true).
      by exists p, "", "".
    + intros (p & pre & t & Hp & Hs & Hm). destruct pre; [|done].
      cbn in Hs. subst t. exists p. split; [by apply list_elem_of_In|].
      by apply bool_decide_eq_true.
  - rewrite orb_true_iff, existsb_exists, IH. split.
    + intros [(p & Hp%list_elem_of_In & Hm%bool_decide_eq_true)
             |(p & pre & t & Hp & -> & Hm)].
      * by exists p, "", (String c s).
      * by exists p, (String c pre), t.
    + intros (p & pre & t & Hp & Hs & Hm). destruct pre as [|c' pre].
      * cbn in Hs. subst t. left. exists p.
        split; [by apply list_elem_of_In|]. by apply bool_decide_eq_true.
      * cbn in Hs. injection Hs as -> ->. right. by exists p, pre, t.
Qed.

(** [re.search] with the alternation of the three syntaxes decides
    [has_reference]. *)
Lemma re_search_has_reference s :
  re_search any_reference s = true ↔ has_reference s.
Proof.
  rewrite re_search_spec. unfold has_reference, occurs. split.
  - intros (p & pre & t & Hp & -> & [[m rest] Hm]).
    apply match_at_spec in Hm as (id & Hid & -> & ->);
      [|by apply closer_not_digit].
    exists p, id. split_and!; [done..|]. by exists pre, rest.
  - intros (p & id & Hp & Hid & pre & post & ->).
    exists p, pre, (reference p id +:+ post). split_and!; [done..|].
    exists (ReMatch (reference p id) id, post).
    apply match_at_spec; [by apply closer_not_digit|]. by exists id.
Qed.

(** C1: the status of [clean_calculation_formula].  An empty formula is
    returned unchanged with "No Formula".  Otherwise, with [cleaned] the
    result of the three substitution passes and [n] the number of
    substitutions they made: "Unresolved References" when [n] is zero and
    the original string matches one of the three reference syntaxes;
    "Partially Resolved" when [n] is positive and the cleaned string
    matches one of them; "Success" in every other case. *)
Theorem status_classification (raw_formula : string)
    (calc_map : gmap string string) :
  let cleaned := fst (substitute_references raw_formula calc_map) in
  let n := snd (substitute_references raw_formula calc_map) in
  (raw_formula = "" →
     clean_calculation_formula raw_formula calc_map =
       (raw_formula, "No Formula")) ∧
  (raw_formula ≠ "" → n = 0 → has_reference raw_formula →
     clean_calculation_formula raw_formula calc_map =
       (cleaned, "Unresolved References")) ∧
  (raw_formula ≠ "" → 0 < n → has_reference cleaned →
     clean_calculation_formula raw_formula calc_map =
       (cleaned, "Partially Resolved")) ∧
  (raw_formula ≠ "" →
     ¬ (n = 0 ∧ has_reference raw_formula) →
     ¬ (0 < n ∧ has_reference cleaned) →
     clean_calculation_formula raw_formula calc_map = (cleaned, "Success")).
Proof.
  intros cleaned n. unfold clean_calculation_formula.
  subst cleaned n. destruct (substitute_references _ _) as [cleaned n].
  cbn [fst snd].
  split; [intros ->; by rewrite decide_True|].
  split_and!; intros Hne; rewrite decide_False by done.
  - intros -> Href%re_search_has_reference. by rewrite Href.
  - intros Hn Href%re_search_has_reference. rewrite Href.
    destruct n; [lia|]. cbn. done.
  - intros H0 H1.
    destruct (re_search any_reference raw_formula) eqn:E0;
      destruct (re_search any_reference cleaned) eqn:E1;
      destruct n as [|n]; cbn; try done.
    + exfalso. apply H0. split; [done|]. by apply re_search_has_reference.
    + exfalso. apply H1. split; [lia|]. by apply re_search_has_reference.
    + exfalso. apply H0. split; [done|]. by apply re_search_has_reference.
    + exfalso. apply H1. split; [lia|]. by apply re_search_has_reference.
Qed.

Lemma match_at_nil p : match_at p "" = None.
Proof.
  unfold match_at. destruct (strip_prefix (lit p) "") as [r|] eqn:E; [|done].
  apply strip_prefix_spec in E. destruct (lit p); [|done]. cbn in E. subst r.
  rewrite span_digits_eq. cbn. by destruct (_ <=? _)%nat.
Qed.

Lemma re_sub_nil p repl n : re_sub p repl "" n = ("", n).
Proof.
  rewrite re_sub_equation_1.
  destruct (inspect (match_at p "")) as [[[m rest]|] Heq]; [|done].
  exfalso. by rewrite match_at_nil in Heq.
Qed.

Lemma re_sub_match p repl s n m rest :
  match_at p s = Some (m, rest) →
  re_sub p repl s n =
    (fst (repl m n) +:+ fst (re_sub p repl rest (snd (repl m n))),
     snd (re_sub p repl rest (snd (repl m n)))).
Proof.
  intros H. rewrite re_sub_equation_1.
  destruct (inspect (match_at p s)) as [[[m' rest']|] Heq]; [|congruence].
  cbn. assert (Some (m', rest') = Some (m, rest)) as E by congruence.
  clear Heq. injection E as -> ->.
  destruct (repl m n) as [r n1]. cbn.
  by destruct (re_sub p repl rest n1).
Qed.

Lemma re_sub_skip p repl c s n :
  match_at p (String c s) = None →
  re_sub p repl (String c s) n =
    (String c (fst (re_sub p repl s n)), snd (re_sub p repl s n)).
Proof.
  intros H. rewrite re_sub_equation_1.
  destruct (inspect (match_at p (String c s))) as [[[m' rest']|] Heq];
    [congruence|].
  cbn. by destruct (re_sub p repl s n).
Qed.

(** Induction along the scan of [re_sub]. *)
Lemma re_sub_scan_ind p (P : string → Prop) :
  P "" →
  (∀ s m rest, match_at p s = Some (m, rest) → P rest → P s) →
  (∀ c s, match_at p (String c s) = None → P s → P (String c s)) →
  ∀ s, P s.
Proof.
  intros Hnil Hmatch Hskip s.
  remember (String.length s) as k eqn:Hk. revert s Hk.
  induction (lt_wf k) as [k _ IH]. intros s ->.
  destruct (match_at p s) as [[m rest]|] eqn:E.
  - eapply Hmatch; [exact E|]. eapply IH; [|reflexivity].
    by eapply match_at_length.
  - destruct s as [|c s]; [done|]. apply Hskip; [done|].
    eapply IH; [|reflexivity]. cbn. lia.
Qed.

Lemma has_char_app c a b :
  has_char c (a +:+ b) = has_char c a || has_char c b.
Proof.
  induction a as [|x a IH]; cbn; [done|]. by rewrite IH, orb_assoc.
Qed.

Lemma has_char_digits c n id :
  digit_string n id → plain_ascii c = true → has_char c id = false.
Proof.
  intros Hid Hc. induction Hid as [|d n s Hd Hs IH]; [done|].
  rewrite has_char_app, IH, orb_false_r.
  by apply (digit_head_bytes _ _ _ Hd).
Qed.

(** A character that stands nowhere in [w] can only be the last one of
    [w] followed by one more character. *)
Lemma last_char_unique x w y a e :
  has_char x w = false → w +:+ String y "" = a +:+ String x e → e = "".
Proof.
  revert a; induction w as [|w0 w IH]; intros a Hw H; cbn in *.
  - destruct a as [|a0 a]; cbn in H; [by injection H|].
    injection H as _ H. by destruct a.
  - apply orb_false_iff in Hw as [Hw0 Hw].
    destruct a as [|a0 a]; cbn in H.
    + injection H as -> _. by rewrite Ascii.eqb_refl in Hw0.
    + injection H as _ H. by eapply IH.
Qed.

(** A non-empty tail of [a ++ x] ends with [x]. *)
Lemma suffix_ends a x pre e :
  a +:+ String x "" = pre +:+ e → e ≠ "" → ∃ e0, e = e0 +:+ String x "".
Proof.
  intros H He. apply append_eq_append in H as [(e1 & -> & H)|(e1 & -> & ->)].
  - destruct e1 as [|c e1]; cbn in H.
    + exists "". by subst e.
    + injection H as _ H. destruct e1; cbn in H; [by subst e|done].
  - by exists e1.
Qed.

(** An identifier begins with a digit of ASCII or with a byte that is not
    of ASCII. *)
Lemma identifier_cons p id :
  p ∈ any_reference → identifier p id →
  ∃ d id', id = String d id' ∧ plain_ascii d = false.
Proof.
  intros Hp (n & Hd & Hlen). destruct Hd as [|d n s Hd Hs].
  - pattern_cases Hp; cbn in Hlen; lia.
  - destruct (digit_head_bytes _ _ _ Hd) as [Hne Hb].
    destruct d as [|c d]; [by destruct Hne|]. exists c, (d +:+ s).
    split; [done|]. destruct (plain_ascii c) eqn:E; [|done].
    specialize (Hb c E). cbn in Hb. by rewrite Ascii.eqb_refl in Hb.
Qed.

(** The text of a reference begins with "[" or "@", and neither character
    stands anywhere else in it. *)
Lemma reference_opening q id :
  q ∈ any_reference → identifier q id →
  ∃ c w, reference q id = String c w ∧ (c = "[" ∨ c = "@")%char ∧
         has_char "[" w = false ∧ has_char "@" w = false.
Proof.
  intros Hq (n & Hd & _). unfold reference.
  pattern_cases Hq; cbn; eexists _, _; (split; [reflexivity|]); cbn;
    rewrite !has_char_app, (has_char_digits "[" n id Hd eq_refl),
      (has_char_digits "@" n id Hd eq_refl); cbn; split_and!; auto.
Qed.

(** "]" stands nowhere in the text of a reference but, possibly, at its
    end. *)
Lemma reference_closing q id a e :
  q ∈ any_reference → identifier q id →
  reference q id = a +:+ String "]" e → e = "".
Proof.
  intros Hq (n & Hd & _) H. unfold reference in H.
  rewrite <- append_assoc in H.
  apply (last_char_unique "]" (lit q +:+ id) (closer q) a e); [|exact H].
  rewrite has_char_app, (has_char_digits "]" n id Hd eq_refl), orb_false_r.
  by pattern_cases Hq.
Qed.

Lemma reference_not_empty p id : reference p id ≠ "".
Proof. unfold reference. destruct (lit p), id; done. Qed.

Lemma match_at_reference p id rest :
  p ∈ any_reference → identifier p id →
  match_at p (reference p id +:+ rest) =
    Some (ReMatch (reference p id) id, rest).
Proof.
  intros Hp Hid. apply match_at_spec; [by apply closer_not_digit|].
  by exists id.
Qed.

(** A string begins with the text of at most one reference. *)
Lemma reference_head p q id0 id x rest :
  p ∈ any_reference → q ∈ any_reference →
  identifier p id0 → identifier q id →
  reference p id0 +:+ x = reference q id +:+ rest →
  q = p ∧ id = id0.
Proof.
  intros Hp Hq Hid0 Hid H.
  destruct (identifier_cons p id0 Hp Hid0) as (d0 & id0' & E0 & Hd0).
  destruct (identifier_cons q id Hq Hid) as (d & id' & E & Hd).
  assert (q = p) as ->.
  { subst id0 id. unfold reference in H.
    pattern_cases Hp; pattern_cases Hq; cbn in H; try done;
      injection H as H; subst; done. }
  split; [done|].
  pose proof (match_at_reference p id0 x Hp Hid0) as H1.
  pose proof (match_at_reference p id rest Hp Hid) as H2.
  rewrite H in H1. rewrite H1 in H2. by injection H2.
Qed.

(** The opening character of a reference stands nowhere inside the text of
    another: a tail of one text that begins like another is the whole
    text. *)
Lemma opener_only_first p q id0 id pre x e w :
  p ∈ any_reference → q ∈ any_reference →
  identifier p id0 → identifier q id →
  reference p id0 = pre +:+ String x e → reference q id = String x w →
  pre = "".
Proof.
  intros Hp Hq Hid0 Hid H0 H.
  destruct (reference_opening p id0 Hp Hid0) as (c & u & Eu & _ & Hu1 & Hu2).
  destruct (reference_opening q id Hq Hid) as (c' & u' & Eu' & Hc' & _).
  rewrite Eu' in H. injection H as -> _.
  destruct pre as [|c0 pre]; [done|]. exfalso.
  rewrite Eu in H0. cbn in H0. injection H0 as _ ->.
  rewrite !has_char_app in Hu1, Hu2. cbn in Hu1, Hu2.
  destruct Hc' as [->| ->].
  - by rewrite orb_true_r in Hu1.
  - by rewrite orb_true_r in Hu2.
Qed.

Lemma occurs_app_l q id a s : occurs q id s → occurs q id (a +:+ s).
Proof.
  intros [Hid (pre & post & ->)]. split; [done|].
  exists (a +:+ pre), post. by rewrite append_assoc.
Qed.

Lemma replace_calc_id_match calc_map g id n :
  replace_calc_id calc_map (ReMatch g id) n =
    from_option (λ name, ("[" +:+ name +:+ "]", n + 1)) (g, n)
      (calc_map !! id).
Proof. unfold replace_calc_id. cbn. by destruct (calc_map !! id). Qed.

Section Substitution.
Context (calc_map : gmap string string) (p : ref_pattern).
Hypothesis Hp : p ∈ any_reference.

#[local] Abbreviation sub := (re_sub p (replace_calc_id calc_map)).
#[local] Abbreviation replacement := (replacement calc_map p).

(** One step of the scan, at a reference. *)
Lemma sub_reference id rest n :
  identifier p id →
  ∃ n', fst (sub (reference p id +:+ rest) n) =
          replacement id +:+ fst (sub rest n').
Proof.
  intros Hid.
  rewrite (re_sub_match _ _ _ _ _ _ (match_at_reference p id rest Hp Hid)).
  eexists. unfold replace_calc_id at 1, replacement. cbn.
  by destruct (calc_map !! id).
Qed.

(** The output never loses a prefix that is free of "[": such a prefix
    of the output is a prefix of the input. *)
Lemma sub_plain_prefix s n w r :
  fst (sub s n) = w +:+ r → has_char "[" w = false → ∃ r', s = w +:+ r'.
Proof.
  revert n w r.
  induction s as [|s m rest Hm IH|c s Hm IH] using (re_sub_scan_ind p);
    intros n w r Hout Hw.
  - rewrite re_sub_nil in Hout. destruct w; [|done]. by exists "".
  - apply match_at_spec in Hm as (id & Hid & -> & ->);
      [|by apply closer_not_digit].
    destruct (sub_reference id rest n Hid) as [n' Hsub].
    rewrite Hsub in Hout. clear Hsub.
    destruct w as [|b w]; [by eexists|].
    unfold replacement in Hout.
    destruct (calc_map !! id) as [name|]; cbn [from_option] in Hout.
    + exfalso. cbn in Hout. injection Hout as <- _. by cbn in Hw.
    + apply append_eq_append in Hout as [(e & He & Hout)|(e & -> & _)].
      * rewrite He, has_char_app in Hw.
        apply orb_false_iff in Hw as [_ Hw].
        destruct (IH _ _ _ Hout Hw) as [r' ->].
        exists r'. by rewrite He, append_assoc.
      * exists (e +:+ rest). by rewrite append_assoc.
  - rewrite re_sub_skip in Hout by done. cbn [fst] in Hout.
    destruct w as [|b w]; [by eexists|].
    cbn in Hout, Hw. injection Hout as <- Hout.
    apply orb_false_iff in Hw as [_ Hw].
    destruct (IH _ _ _ Hout Hw) as [r' ->]. by exists r'.
Qed.

Hypothesis Hplain : captions_plain calc_map.

(** A pass creates no reference: every reference of the output, in
    whatever syntax, is a reference of the input, and a reference in the
    syntax of the pass that is still there names no key of the map. *)
Lemma sub_references q s n pre id post :
  q ∈ any_reference → identifier q id →
  fst (sub s n) = pre +:+ reference q id +:+ post →
  occurs q id s ∧ (q = p → calc_map !! id = None).
Proof.
  intros Hq Hid. revert n pre post.
  induction s as [|s m rest Hm IH|c s Hm IH] using (re_sub_scan_ind p);
    intros n pre post Hout.
  - rewrite re_sub_nil in Hout. cbn [fst] in Hout.
    destruct pre; cbn in Hout; [|done].
    destruct (reference q id) eqn:E; [|done].
    by apply reference_not_empty in E.
  - apply match_at_spec in Hm as (id0 & Hid0 & -> & ->);
      [|by apply closer_not_digit].
    destruct (sub_reference id0 rest n Hid0) as [n' Hsub].
    rewrite Hsub in Hout. clear Hsub.
    assert (Hrest : ∀ pre' post',
              fst (sub rest n') = pre' +:+ reference q id +:+ post' →
              occurs q id (reference p id0 +:+ rest) ∧
              (q = p → calc_map !! id = None)).
    { intros pre' post' H. destruct (IH _ _ _ H) as [Hocc ?].
      split; [|done]. by apply occurs_app_l. }
    (* a reference that begins at the head of an untouched reference *)
    assert (Hsame : ∀ a b, calc_map !! id0 = None →
              reference p id0 +:+ a = reference q id +:+ b →
              occurs q id (reference p id0 +:+ rest) ∧
              (q = p → calc_map !! id = None)).
    { intros a b Emap Heq.
      apply reference_head in Heq as [-> ->]; [|done..].
      split; [|done]. split; [done|]. by exists "", rest. }
    (* a reference that lies within the replacement *)
    assert (Hin : ∀ e', replacement id0 = pre +:+ reference q id +:+ e' →
              occurs q id (reference p id0 +:+ rest) ∧
              (q = p → calc_map !! id = None)).
    { intros e' Hchunk. unfold replacement in Hchunk.
      destruct (calc_map !! id0) as [name|] eqn:Emap;
        cbn [from_option] in Hchunk.
      - exfalso. apply (Hplain _ _ Emap). exists q, id.
        split; [done|]. split; [done|]. by exists pre, e'.
      - destruct (reference_opening q id Hq Hid) as (x & w & Ew & _).
        assert (pre = "") as ->.
        { eapply (opener_only_first p q id0 id pre x (w +:+ e') w);
            [done..| |done]. by rewrite Hchunk, Ew. }
        apply (Hsame "" e'); [done|]. by rewrite append_nil_r. }
    apply append_eq_append in Hout as [(e & -> & Hout)|(e & Hchunk & Hout)].
    { by eapply Hrest. }
    apply append_eq_append in Hout as [(e' & -> & Hout)|(e' & Href & Hout)].
    { by apply (Hin e'). }
    (* the reference begins in the replacement and runs into the rest *)
    destruct e as [|x e].
    { cbn in Href. subst e'. apply (Hrest "" post). exact Hout. }
    destruct e' as [|y e'].
    { apply (Hin ""). by rewrite Hchunk, Href, !append_nil_r. }
    unfold replacement in Hchunk.
    destruct (calc_map !! id0) as [name|] eqn:Emap;
      cbn [from_option] in Hchunk.
    + exfalso.
      assert (∃ e0, String x e = e0 +:+ "]") as [e0 He0].
      { apply (suffix_ends ("[" +:+ name) _ pre); [|done].
        by rewrite <- Hchunk, append_assoc. }
      rewrite He0, append_assoc in Href.
      by pose proof (reference_closing q id _ _ Hq Hid Href).
    + assert (pre = "") as ->.
      { by eapply (opener_only_first p q id0 id pre x e
                     (e +:+ String y e')). }
      cbn in Hchunk. apply (Hsame (String y e') ""); [done|].
      by rewrite Hchunk, Href, append_nil_r.
  - rewrite re_sub_skip in Hout by done. cbn [fst] in Hout.
    destruct pre as [|c0 pre].
    + destruct (reference_opening q id Hq Hid) as (x & w & Ew & _ & Hw & _).
      rewrite Ew in Hout. cbn in Hout. injection Hout as <- Hout.
      destruct (sub_plain_prefix _ _ _ _ Hout Hw) as [r' ->].
      assert (String c (w +:+ r') = reference q id +:+ r') as E
        by (by rewrite Ew).
      split.
      * rewrite E. split; [done|]. by exists "", r'.
      * intros ->. rewrite E, match_at_reference in Hm; done.
    + cbn in Hout. injection Hout as <- Hout.
      destruct (IH _ _ _ Hout) as [Hocc ?]. split; [|done].
      by apply (occurs_app_l q id (String c "")).
Qed.

Lemma sub_occurs q s n id :
  q ∈ any_reference → occurs q id (fst (sub s n)) →
  occurs q id s ∧ (q = p → calc_map !! id = None).
Proof.
  intros Hq [Hid (pre & post & E)]. by eapply sub_references.
Qed.

(** A pass over a string without reference in its syntax changes
    nothing. *)
Lemma sub_no_reference s n :
  (∀ id, ¬ occurs p id s) → sub s n = (s, n).
Proof.
  intros Hno.
  assert (Hnone : ∀ pre t, s = pre +:+ t → match_at p t = None).
  { intros pre t ->. destruct (match_at p t) as [[m rest]|] eqn:E; [|done].
    apply match_at_spec in E as (id & Hid & -> & ->);
      [|by apply closer_not_digit].
    exfalso. apply (Hno id). split; [done|]. by exists pre, rest. }
  clear Hno. induction s as [|c s IH]; [apply re_sub_nil|].
  rewrite re_sub_skip by (by apply (Hnone "")).
  rewrite IH; [done|]. intros pre t ->. by apply (Hnone (String c pre)).
Qed.

(** The counter only grows, and a pass that leaves it as it was has left
    the string as it was. *)
Lemma sub_counter s n :
  n ≤ snd (sub s n) ∧ (snd (sub s n) = n → fst (sub s n) = s).
Proof.
  revert n.
  induction s as [|s m rest Hm IH|c s Hm IH] using (re_sub_scan_ind p); intros n.
  - by rewrite re_sub_nil.
  - rewrite (re_sub_match _ _ _ _ _ _ Hm). cbn [fst snd].
    apply match_at_spec in Hm as (id & Hid & -> & ->);
      [|by apply closer_not_digit].
    rewrite !replace_calc_id_match.
    destruct (calc_map !! id) as [name|]; cbn [from_option fst snd].
    + destruct (IH (n + 1)) as [Hle _].
      split; [lia|intros ?; exfalso; lia].
    + destruct (IH n) as [Hle Heq]. split; [done|].
      intros H. by rewrite Heq.
  - rewrite re_sub_skip by done. cbn [fst snd].
    destruct (IH n) as [Hle Heq]. split; [done|].
    intros H. by rewrite Heq.
Qed.

Lemma sub_not_empty s n : s ≠ "" → fst (sub s n) ≠ "".
Proof.
  intros Hs. destruct (match_at p s) as [[m rest]|] eqn:Hm.
  - rewrite (re_sub_match _ _ _ _ _ _ Hm). cbn [fst].
    apply match_at_spec in Hm as (id & Hid & -> & ->);
      [|by apply closer_not_digit].
    unfold replace_calc_id. cbn [group0 group1].
    destruct (calc_map !! id) as [name|]; cbn [fst]; [done|].
    pose proof (reference_not_empty p id). by destruct (reference p id).
  - destruct s as [|c s]; [done|]. by rewrite re_sub_skip.
Qed.

End Substitution.

Lemma pass_patterns :
  calc_pattern ∈ any_reference ∧ at_pattern ∈ any_reference ∧
  direct_id_pattern ∈ any_reference.
Proof. unfold any_reference. set_solver. Qed.

(** Whatever reference the three passes leave was in the raw formula and
    names no key of the map, provided the captions are plain. *)
Lemma substitute_references_occurs raw calc_map q id :
  captions_plain calc_map → q ∈ any_reference →
  occurs q id (fst (substitute_references raw calc_map)) →
  occurs q id raw ∧ calc_map !! id = None.
Proof.
  intros Hplain Hq. unfold substitute_references.
  destruct pass_patterns as (Hc & Ha & Hd).
  destruct (re_sub calc_pattern _ raw 0) as [s1 n1] eqn:E1.
  destruct (re_sub at_pattern _ s1 n1) as [s2 n2] eqn:E2.
  change (replace_at_id calc_map) with (replace_calc_id calc_map) in E2.
  change (replace_direct_id calc_map) with (replace_calc_id calc_map).
  intros H3.
  apply (sub_occurs calc_map direct_id_pattern Hd Hplain q) in H3
    as [H2 N3]; [|done].
  replace s2 with (fst (re_sub at_pattern (replace_calc_id calc_map) s1 n1))
    in H2 by (by rewrite E2).
  apply (sub_occurs calc_map at_pattern Ha Hplain q) in H2 as [H1 N2]; [|done].
  replace s1 with (fst (re_sub calc_pattern (replace_calc_id calc_map) raw 0))
    in H1 by (by rewrite E1).
  apply (sub_occurs calc_map calc_pattern Hc Hplain q) in H1 as [H0 N1];
    [|done].
  split; [done|]. pattern_cases Hq; auto.
Qed.

(** On a string without reference the three passes change nothing and
    count nothing. *)
Lemma substitute_references_fixed s calc_map :
  ¬ has_reference s → substitute_references s calc_map = (s, 0).
Proof.
  intros Hno. unfold substitute_references.
  destruct pass_patterns as (Hc & Ha & Hd).
  assert (∀ p, p ∈ any_reference → ∀ id, ¬ occurs p id s) as Hnone.
  { intros p Hp id Hocc. apply Hno. by exists p, id. }
  change (replace_at_id calc_map) with (replace_calc_id calc_map).
  change (replace_direct_id calc_map) with (replace_calc_id calc_map).
  rewrite (sub_no_reference calc_map calc_pattern) by auto.
  rewrite (sub_no_reference calc_map at_pattern) by auto.
  by rewrite (sub_no_reference calc_map direct_id_pattern) by auto.
Qed.

(** When the three passes count nothing they change nothing; and they never
    empty a formula. *)
Lemma substitute_references_counter raw calc_map :
  (snd (substitute_references raw calc_map) = 0 →
   fst (substitute_references raw calc_map) = raw) ∧
  (raw ≠ "" → fst (substitute_references raw calc_map) ≠ "").
Proof.
  unfold substitute_references.
  destruct pass_patterns as (Hc & Ha & Hd).
  change (replace_at_id calc_map) with (replace_calc_id calc_map).
  change (replace_direct_id calc_map) with (replace_calc_id calc_map).
  pose proof (sub_counter calc_map calc_pattern Hc raw 0) as [L1 F1].
  pose proof (sub_not_empty calc_map calc_pattern Hc raw 0) as X1.
  destruct (re_sub calc_pattern _ raw 0) as [s1 n1]. cbn [fst snd] in *.
  pose proof (sub_counter calc_map at_pattern Ha s1 n1) as [L2 F2].
  pose proof (sub_not_empty calc_map at_pattern Ha s1 n1) as X2.
  destruct (re_sub at_pattern _ s1 n1) as [s2 n2]. cbn [fst snd] in *.
  pose proof (sub_counter calc_map direct_id_pattern Hd s2 n2) as [L3 F3].
  pose proof (sub_not_empty calc_map direct_id_pattern Hd s2 n2) as X3.
  destruct (re_sub direct_id_pattern _ s2 n2) as [s3 n3]. cbn [fst snd] in *.
  split.
  - intros ->. assert (n2 = 0) as -> by lia. assert (n1 = 0) as -> by lia.
    rewrite F3, F2, F1 by done. done.
  - auto.
Qed.

(** The status of a non-empty formula is "Success" as soon as neither test
    for references fires. *)
Lemma clean_success raw calc_map :
  raw ≠ "" →
  (snd (substitute_references raw calc_map) = 0 → ¬ has_reference raw) →
  ¬ has_reference (fst (substitute_references raw calc_map)) →
  clean_calculation_formula raw calc_map =
    (fst (substitute_references raw calc_map), "Success").
Proof.
  intros Hne H0 H1. unfold clean_calculation_formula.
  rewrite decide_False by done.
  destruct (substitute_references raw calc_map) as [cleaned n].
  cbn [fst snd] in *.
  destruct (re_search any_reference cleaned) eqn:E1.
  { exfalso. by apply H1, re_search_has_reference. }
  rewrite andb_false_r.
  destruct n as [|n]; cbn; [|done].
  destruct (re_search any_reference raw) eqn:E0; [|done].
  exfalso. by apply H0, re_search_has_reference.
Qed.

(** C2, amended: for a non-empty formula all of whose references name keys
    of the map, and a map none of whose captions, once bracketed, matches a
    reference syntax, cleaning succeeds and is idempotent: cleaning the
    cleaned formula returns it unchanged with status "Success". *)
Theorem cleaning_idempotent (raw_formula : string)
    (calc_map : gmap string string) :
  raw_formula ≠ "" →
  references_resolvable calc_map raw_formula →
  captions_plain calc_map →
  let cleaned := fst (clean_calculation_formula raw_formula calc_map) in
  clean_calculation_formula raw_formula calc_map = (cleaned, "Success") ∧
  clean_calculation_formula cleaned calc_map = (cleaned, "Success").
Proof.
  intros Hne Hres Hplain.
  assert (Hnone : ¬ has_reference (fst (substitute_references raw_formula calc_map))).
  { intros (q & id & Hq & Hocc).
    apply substitute_references_occurs in Hocc as [Hocc Hmap]; [|done..].
    destruct (Hres q id Hq Hocc) as [name Hname]. congruence. }
  assert (Hfirst : clean_calculation_formula raw_formula calc_map =
            (fst (substitute_references raw_formula calc_map), "Success")).
  { apply clean_success; [done| |done].
    intros Hn. apply substitute_references_counter in Hn.
    by rewrite <- Hn at 1. }
  intros cleaned. subst cleaned. rewrite Hfirst. cbn [fst].
  split; [done|].
  pose proof (substitute_references_fixed _ calc_map Hnone) as Hfix.
  rewrite clean_success; rewrite ?Hfix; cbn [fst snd]; try done.
  by apply substitute_references_counter.
Qed.

Lemma occurs_reference_ids p id s :
  p ∈ any_reference → occurs p id s → id ∈ reference_ids p s.
Proof.
  intros Hp [Hid (pre & post & ->)].
  induction pre as [|c pre IH]; cbn [String.append].
  - pose proof (match_at_reference p id post Hp Hid) as Hm.
    destruct (reference p id +:+ post) as [|c t] eqn:E; cbn [reference_ids];
      rewrite Hm; set_solver.
  - cbn [reference_ids]. set_solver.
Qed.

(** Checks by computation for the two conditions on a map and a formula. *)
Lemma references_resolvable_check calc_map s :
  forallb (λ p, forallb (λ id, bool_decide (is_Some (calc_map !! id)))
                  (reference_ids p s)) any_reference = true →
  references_resolvable calc_map s.
Proof.
  intros H p id Hp Hocc. rewrite forallb_forall in H.
  specialize (H p (proj1 (list_elem_of_In _ _) Hp)).
  rewrite forallb_forall in H.
  apply occurs_reference_ids in Hocc; [|done].
  eapply bool_decide_eq_true_1, H, list_elem_of_In, Hocc.
Qed.

Lemma captions_plain_check (calc_map : gmap string string) :
  forallb (λ kv, negb (re_search any_reference ("[" +:+ snd kv +:+ "]")))
    (map_to_list calc_map) = true →
  captions_plain calc_map.
Proof.
  intros H id name Hmap Href. rewrite forallb_forall in H.
  apply elem_of_map_to_list, list_elem_of_In in Hmap.
  apply H, negb_true_iff in Hmap. cbn [snd] in Hmap.
  apply re_search_has_reference in Href. congruence.
Qed.

End ResolverTheorems.

(** *** Examples, with the decimal digits of Unicode 14.0 *)

Section ResolverExamples.
#[local] Existing Instance unicode_14_0.

(** The two resolver examples of the specification. *)
Example resolves_profit_and_sales :
  clean_calculation_formula "[Calculation_1001]+[Calculation_1002]"
    profit_sales_map = ("[Profit]+[Sales]", "Success").
Proof. by vm_compute. Qed.

Example unresolved_at_reference :
  clean_calculation_formula "@{2001}" ∅ =
    ("@{2001}", "Unresolved References").
Proof. by vm_compute. Qed.

(** A short bare number is no reference; a long one is. *)
Example bare_numbers :
  clean_calculation_formula "[123456789]+[1234567890]"
    (<["1234567890" := "Quota"]> (<["123456789" := "Other"]> ∅)) =
    ("[123456789]+[Quota]", "Success").
Proof. by vm_compute. Qed.

(** Digits above ASCII are digits: a reference written with Arabic-Indic
    digits is one, and an identifier written with fullwidth digits is looked
    up as it is written. *)
Example arabic_indic_at_reference :
  clean_calculation_formula "@{١٢}" ∅ = ("@{١٢}", "Unresolved References").
Proof. by vm_compute. Qed.

Example fullwidth_calculation_reference :
  clean_calculation_formula "[Calculation_１２]"
    (<["１２" := "Profit"]> (<["12" := "Sales"]> ∅)) =
    ("[Profit]", "Success").
Proof. by vm_compute. Qed.

(** The ten digits of a bare number are ten characters, of however many
    bytes: nine mathematical digits, of four bytes each, are no reference,
    ten are one; and a superscript two is no digit. *)
Example bare_numbers_count_characters :
  clean_calculation_formula "[𝟎𝟏𝟐𝟑𝟒𝟓𝟔𝟕𝟖]+[𝟎𝟏𝟐𝟑𝟒𝟓𝟔𝟕𝟖𝟗]+@{²}"
    (<["𝟎𝟏𝟐𝟑𝟒𝟓𝟔𝟕𝟖𝟗" := "Quota"]> (<["𝟎𝟏𝟐𝟑𝟒𝟓𝟔𝟕𝟖" := "Other"]> ∅)) =
    ("[𝟎𝟏𝟐𝟑𝟒𝟓𝟔𝟕𝟖]+[Quota]+@{²}", "Success").
Proof. by vm_compute. Qed.

Lemma cleaning_idempotent_witness :
  "[Calculation_1001]+[Calculation_1002]" ≠ "" ∧
  references_resolvable profit_sales_map
    "[Calculation_1001]+[Calculation_1002]" ∧
  captions_plain profit_sales_map ∧
  clean_calculation_formula "[Calculation_1001]+[Calculation_1002]"
    profit_sales_map =
    (fst (clean_calculation_formula "[Calculation_1001]+[Calculation_1002]"
            profit_sales_map), "Success") ∧
  clean_calculation_formula
    (fst (clean_calculation_formula "[Calculation_1001]+[Calculation_1002]"
            profit_sales_map)) profit_sales_map =
    (fst (clean_calculation_formula "[Calculation_1001]+[Calculation_1002]"
            profit_sales_map), "Success").
Proof.
  assert (H1 : "[Calculation_1001]+[Calculation_1002]" ≠ "") by discriminate.
  assert (H2 : references_resolvable profit_sales_map
                 "[Calculation_1001]+[Calculation_1002]")
    by (apply references_resolvable_check; vm_compute; reflexivity).
  assert (H3 : captions_plain profit_sales_map)
    by (apply captions_plain_check; vm_compute; reflexivity).
  split; [exact H1|]. split; [exact H2|]. split; [exact H3|].
  exact (cleaning_idempotent _ _ H1 H2 H3).
Defined.

(** C2 as stated fails, in two ways.  The empty formula has no reference
    at all, and cleaning its cleaned result gives "No Formula", not
    "Success".  And with a caption that reads like a reference, the only
    reference of "[Calculation_1]" names a key of the map, its cleaned
    result is "[Calculation_2]", and cleaning that gives another string,
    "[Profit]". *)
Lemma cleaning_not_idempotent :
  (references_resolvable ∅ "" ∧
   clean_calculation_formula "" ∅ = ("", "No Formula") ∧
   clean_calculation_formula (fst (clean_calculation_formula "" ∅)) ∅ =
     ("", "No Formula")) ∧
  (references_resolvable chained_map "[Calculation_1]" ∧
   clean_calculation_formula "[Calculation_1]" chained_map =
     ("[Calculation_2]", "Partially Resolved") ∧
   clean_calculation_formula
     (fst (clean_calculation_formula "[Calculation_1]" chained_map))
     chained_map = ("[Profit]", "Success")).
Proof.
  split; (split; [apply references_resolvable_check|]); by vm_compute.
Qed.

End ResolverExamples.

(** ** Extractor *)

Lemma column_caption_declaration m col :
  column_caption m col =
    match column_declaration col with
    | Some (k, v) => <[k := v]> m
    | None => m
    end.
Proof.
  unfold column_caption, column_declaration.
  destruct (find col "calculation") as [calc|]; cbn; [|done].
  repeat case_decide; naive_solver.
Qed.

Lemma calculation_caption_declaration m calc :
  calculation_caption m calc =
    match calculation_declaration calc with
    | Some (k, v) => <[k := v]> m
    | None => m
    end.
Proof.
  unfold calculation_caption, calculation_declaration.
  repeat case_decide; naive_solver.
Qed.

Lemma column_step_eq ds_name data col :
  column_step ds_name data col =
    mkData (fields data ++ [column_field ds_name col])
      (column_caption (calculations data) col)
      (field_worksheet_usage data) (connections data).
Proof.
  unfold column_step, column_field, column_caption, field_type_by_precedence.
  destruct (find col "calculation") as [calc|]; cbn.
  - repeat case_decide; try naive_solver.
  - case_decide; [|done].
    unfold get. destruct (attrib col !! "aggregation") as [a|] eqn:E; cbn.
    + repeat case_decide; naive_solver.
    + case_decide; naive_solver.
Qed.

Lemma fold_left_write {V} (writes : list (string * V)) (m : gmap string V) k :
  fold_left write writes m !! k =
    match last_write k writes with
    | Some v => Some v
    | None => m !! k
    end.
Proof.
  induction writes as [|[k' v] writes IH] using rev_ind; [done|].
  rewrite fold_left_app. cbn. unfold write at 1, last_write. cbn.
  rewrite filter_app, filter_cons, filter_nil. cbn.
  case_decide as Hk.
  - subst k'. by rewrite last_snoc, lookup_insert_eq.
  - rewrite app_nil_r, lookup_insert_ne by done. apply IH.
Qed.

Lemma fold_left_omap_write {A V} (f : A → option (string * V))
    (step : gmap string V → A → gmap string V) l m :
  (∀ m x, step m x = from_option (write m) m (f x)) →
  fold_left step l m = fold_left write (omap f l) m.
Proof.
  intros Hstep. revert m; induction l as [|x l IH]; intros m; [done|].
  cbn. rewrite Hstep, IH. by destruct (f x).
Qed.

Lemma fold_left_column_caption cols m :
  fold_left column_caption cols m =
    fold_left write (omap column_declaration cols) m.
Proof.
  apply fold_left_omap_write. intros m' col.
  rewrite column_caption_declaration.
  by destruct (column_declaration col) as [[??]|].
Qed.

Lemma fold_left_calculation_caption calcs m :
  fold_left calculation_caption calcs m =
    fold_left write (omap calculation_declaration calcs) m.
Proof.
  apply fold_left_omap_write. intros m' calc.
  rewrite calculation_caption_declaration.
  by destruct (calculation_declaration calc) as [[??]|].
Qed.

Lemma fold_left_column_step ds_name cols data :
  fold_left (column_step ds_name) cols data =
    mkData (fields data ++ (column_field ds_name <$> cols))
      (fold_left column_caption cols (calculations data))
      (field_worksheet_usage data) (connections data).
Proof.
  revert data; induction cols as [|col cols IH]; intros data; cbn.
  - rewrite app_nil_r. by destruct data.
  - rewrite IH, column_step_eq. cbn. by rewrite <- app_assoc.
Qed.

Lemma connection_info_first_present conn ds_caption :
  connection_info conn ds_caption =
    {| Connection.name :=
         first_present conn ["server"; "filename"; "database"];
       Connection.alias := ds_caption;
       Connection.class := get conn "class" "" |}.
Proof.
  unfold connection_info, first_present, get. cbn. f_equal.
  destruct (attrib conn !! "server"); [done|].
  destruct (attrib conn !! "filename"); [done|].
  by destruct (attrib conn !! "database").
Qed.

Lemma datasource_step_eq data ds :
  datasource_step data ds =
    mkData
      (fields data ++
         (column_field (get ds "name" "") <$> findall ds "column"))
      (fold_left column_caption (findall ds "column") (calculations data))
      (field_worksheet_usage data)
      (from_option (write (connections data)) (connections data)
         (datasource_connection ds)).
Proof.
  unfold datasource_step, datasource_connection.
  destruct (find ds "connection") as [conn|]; cbn.
  - rewrite fold_left_column_step. cbn.
    by rewrite connection_info_first_present.
  - by rewrite fold_left_column_step.
Qed.

Lemma fold_left_datasource_step dss data :
  fold_left datasource_step dss data =
    mkData
      (fields data ++
         flat_map (λ ds, column_field (get ds "name" "") <$>
                           findall ds "column") dss)
      (fold_left column_caption
         (flat_map (λ ds, findall ds "column") dss) (calculations data))
      (field_worksheet_usage data)
      (fold_left write (omap datasource_connection dss) (connections data)).
Proof.
  revert data; induction dss as [|ds dss IH]; intros data; cbn.
  - rewrite app_nil_r. by destruct data.
  - rewrite IH, datasource_step_eq. cbn.
    rewrite <- app_assoc, fold_left_app.
    by destruct (datasource_connection ds).
Qed.

Lemma fold_left_calculation_step calcs data :
  ∃ standalone,
    fold_left calculation_step calcs data =
      mkData (fields data ++ standalone) (calculations data)
        (field_worksheet_usage data) (connections data).
Proof.
  revert data; induction calcs as [|calc calcs IH]; intros data; cbn.
  - exists []. rewrite app_nil_r. by destruct data.
  - destruct (IH (calculation_step data calc)) as [st ->].
    unfold calculation_step.
    destruct (_ && _); cbn.
    + eexists (_ :: st). by rewrite <- app_assoc.
    + by exists st.
Qed.

Lemma extract_all_data_eq root filename :
  ∃ standalone,
    extract_all_data root filename =
      mkData
        (flat_map (λ ds, column_field (get ds "name" "") <$>
                           findall ds "column") (findall root "datasource")
           ++ standalone)
        (fold_left write (calculation_writes root) ∅)
        (remove_duplicates (collect_usage root))
        (fold_left write
           (omap datasource_connection (findall root "datasource")) ∅).
Proof.
  unfold extract_all_data. cbv zeta. rewrite fold_left_datasource_step. cbn.
  match goal with |- context [fold_left calculation_step ?l ?d] =>
    destruct (fold_left_calculation_step l d) as [st ->] end.
  cbn. exists st. f_equal.
  unfold calculation_writes. rewrite !fold_left_app.
  rewrite fold_left_column_caption, fold_left_calculation_caption.
  by rewrite fold_left_column_caption.
Qed.

(** C4 as stated fails: the connection has an empty [server] and the
    filename "sales.csv"; the recorded endpoint is the empty string, not
    the first non-empty attribute. *)
Lemma empty_server_wins :
  find (mkElement "datasource" (attrs [("name", "Sales")]) None
          [csv_connection]) "connection" = Some csv_connection ∧
  connections (extract_all_data csv_document "book.twb") !! "Sales" =
    Some (Connection.mk "" "Sales" "textscan") ∧
  first_non_empty csv_connection ["server"; "filename"; "database"] =
    "sales.csv".
Proof. by vm_compute. Qed.

(** C4, amended: the connection recorded under a datasource name is that of
    the last datasource element of that name that has a connection element;
    its endpoint is the first of the server, filename and database
    attributes that is present, whatever its value, and the empty string
    when none is. *)
Theorem connection_endpoint_first_present (root : Element)
    (filename ds_name : string) :
  connections (extract_all_data root filename) !! ds_name =
    last_write ds_name
      (omap datasource_connection (findall root "datasource")).
Proof.
  destruct (extract_all_data_eq root filename) as [st ->]. cbn.
  rewrite fold_left_write, lookup_empty. by destruct (last_write _ _).
Qed.

(** C5 as stated fails: the standalone calculation comes last in the
    document and declares "Ratio" for identifier 1, yet the map holds the
    datasource column's caption "Margin". *)
Lemma datasource_column_wins :
  calculations (extract_all_data shared_id_document "book.twb") !! "1" =
    Some "Margin" ∧
  last_write "1" (document_order_declarations shared_id_document) =
    Some "Ratio".
Proof. by vm_compute. Qed.

(** C5, amended: the calculation map holds, for every identifier, the value
    of the last write in the extractor's own order of writes: the columns of
    the whole document, then the calculation elements of the whole document,
    then the columns below the datasources. *)
Theorem calculation_map_last_write (root : Element) (filename id : string) :
  calculations (extract_all_data root filename) !! id =
    last_write id (calculation_writes root).
Proof.
  destruct (extract_all_data_eq root filename) as [st ->]. cbn.
  rewrite fold_left_write, lookup_empty. by destruct (last_write _ _).
Qed.

(** C7 as stated fails: the column has the measure role and an aggregation
    attribute that is present but empty; its field type is "Measure". *)
Lemma empty_aggregation_is_measure :
  Field.field_type <$>
    fields (extract_all_data empty_aggregation_document "book.twb") =
    ["Measure"] ∧
  field_type_as_claimed empty_aggregation_column = "Aggregated Measure".
Proof. by vm_compute. Qed.

(** C7, amended: the fields of the columns below the datasources come first
    in the field list, in order, and the field type of each follows the
    precedence: nested calculation ("Table Calculation" when its class
    contains "tableau", else "Calculated Field"), then the measure role
    ("Aggregated Measure" when the aggregation attribute has a non-empty
    value, else "Measure"), else "Dimension". *)
Theorem field_type_precedence (root : Element) (filename : string) :
  ∃ ds_fields standalone,
    fields (extract_all_data root filename) = ds_fields ++ standalone ∧
    Forall2 (λ dc f,
               Field.datasource f = get (fst dc) "name" "" ∧
               Field.name f = get (snd dc) "name" "" ∧
               Field.field_type f = field_type_by_precedence (snd dc))
      (datasource_columns root) ds_fields.
Proof.
  destruct (extract_all_data_eq root filename) as [st ->]. cbn.
  eexists _, st. split; [reflexivity|].
  unfold datasource_columns.
  induction (findall root "datasource") as [|ds dss IH]; cbn; [constructor|].
  apply Forall2_app; [|apply IH].
  apply Forall2_fmap, Forall_Forall2_diag, Forall_forall. by intros col _.
Qed.

Lemma fold_left_unique_step (usages : list Usage.t)
    (seen : gset (string * string)) (unique_usage : list Usage.t) :
  seen = list_to_set (usage_key <$> unique_usage) →
  NoDup (usage_key <$> unique_usage) →
  ∃ kept,
    fold_left unique_step usages (seen, unique_usage) =
      (seen ∪ list_to_set (usage_key <$> usages), unique_usage ++ kept) ∧
    NoDup (usage_key <$> (unique_usage ++ kept)) ∧
    list_to_set (usage_key <$> (unique_usage ++ kept)) =@{gset _}
      seen ∪ list_to_set (usage_key <$> usages) ∧
    kept `sublist_of` usages.
Proof.
  revert seen unique_usage.
  induction usages as [|u usages IH]; intros seen uniq Hseen Hnd.
  - exists []. cbn. rewrite app_nil_r, union_empty_r_L. done.
  - cbn [fold_left]. unfold unique_step at 2.
    fold (usage_key u). case_decide as Hin.
    + destruct (IH seen uniq Hseen Hnd) as (kept & -> & Hnd' & Hset & Hsub).
      exists kept. rewrite fmap_cons, list_to_set_cons.
      replace (seen ∪ ({[usage_key u]} ∪ list_to_set (usage_key <$> usages)))
        with (seen ∪ list_to_set (usage_key <$> usages))
        by (clear -Hin; set_solver).
      split_and!; [done..|]. by apply sublist_cons.
    + destruct (IH ({[usage_key u]} ∪ seen) (uniq ++ [u]))
        as (kept & -> & Hnd' & Hset & Hsub).
      * rewrite fmap_app, list_to_set_app_L. cbn. clear -Hseen. set_solver.
      * rewrite fmap_app. cbn. apply NoDup_app. split; [done|].
        split; [|apply NoDup_singleton].
        intros k Hk ->%list_elem_of_singleton. apply Hin.
        rewrite Hseen. by apply elem_of_list_to_set.
      * exists (u :: kept). rewrite <- !app_assoc in *. cbn in *.
        replace (seen ∪ ({[usage_key u]} ∪ list_to_set (usage_key <$> usages)))
          with ({[usage_key u]} ∪ seen ∪ list_to_set (usage_key <$> usages))
          by (clear; set_solver).
        split_and!; [done..|]. by apply sublist_skip.
Qed.

(** C8: the deduplicated usage list has as many entries as there are
    distinct (field, worksheet) keys among the collected pairs, holds every
    such key exactly once (no key twice, and the same set of keys), keeps
    entries of the collected list in their order, and is what
    [extract_all_data] returns. *)
Theorem usage_deduplicated (root : Element) (filename : string)
    (usages : list Usage.t) :
  length (remove_duplicates usages) =
    size (list_to_set (usage_key <$> usages) : gset (string * string)) ∧
  NoDup (usage_key <$> remove_duplicates usages) ∧
  (list_to_set (usage_key <$> remove_duplicates usages)
     : gset (string * string)) = list_to_set (usage_key <$> usages) ∧
  remove_duplicates usages `sublist_of` usages ∧
  field_worksheet_usage (extract_all_data root filename) =
    remove_duplicates (collect_usage root).
Proof.
  assert (Hret : field_worksheet_usage (extract_all_data root filename) =
                   remove_duplicates (collect_usage root))
    by (by destruct (extract_all_data_eq root filename) as [st ->]).
  revert Hret. generalize (remove_duplicates (collect_usage root)) as ret.
  intros ret Hret. unfold remove_duplicates.
  destruct (fold_left_unique_step usages ∅ [])
    as (kept & -> & Hnd & Hset & Hsub); [done|constructor|].
  cbn in *. rewrite union_empty_l_L in Hset.
  split_and!; [|done..].
  rewrite <- Hset, size_list_to_set by done. by rewrite length_fmap.
Qed.

(** ** Row builder *)

Section RowBuilderTheorems.
Context {unicode : UnicodeData}.

Lemma fold_left_usage_step (us : list Usage.t) (m : gmap string (list string)) k :
  fold_left usage_step us m !! k =
    match Usage.worksheet <$> filter (λ u, Usage.field u = k) us with
    | [] => m !! k
    | ws => Some (default [] (m !! k) ++ ws)
    end.
Proof.
  revert m; induction us as [|u us IH]; intros m; [done|].
  cbn [fold_left]. rewrite IH. rewrite filter_cons.
  assert (Hstep : usage_step m u !! k =
    if decide (Usage.field u = k)
    then Some (default [] (m !! k) ++ [Usage.worksheet u]) else m !! k).
  { unfold usage_step. case_decide as Hk.
    - subst k. destruct (m !! Usage.field u) as [l|] eqn:E.
      + by rewrite lookup_alter_eq, E.
      + by rewrite lookup_alter_eq, lookup_insert_eq.
    - rewrite lookup_alter_ne by done.
      destruct (m !! Usage.field u); [done|]. by rewrite lookup_insert_ne. }
  rewrite Hstep. case_decide; [|done].
  rewrite fmap_cons. cbn [default].
  destruct (Usage.worksheet <$> filter _ us) as [|w ws]; cbn.
  - done.
  - by rewrite <- app_assoc.
Qed.

Lemma usage_index_lookup data k :
  usage_index data !! k =
    match usages_of data k with [] => None | ws => Some ws end.
Proof.
  unfold usage_index, usages_of. rewrite fold_left_usage_step.
  by rewrite lookup_empty.
Qed.

Lemma usage_index_worksheets data k :
  match default [""] (usage_index data !! k) with
  | [] => [""]
  | _ :: _ => default [""] (usage_index data !! k)
  end = worksheets_of data k.
Proof.
  rewrite usage_index_lookup. unfold worksheets_of.
  by destruct (usages_of data k).
Qed.

Lemma fold_left_row_step fn f cn ca cf orig cs ws rows id :
  fold_left (row_step fn f cn ca cf orig cs) ws (rows, id) =
    (rows ++ imap (λ i w, final_row fn f cn ca cf orig cs (id + i) w) ws,
     id + length ws).
Proof.
  revert rows id; induction ws as [|w ws IH]; intros rows id; cbn.
  - by rewrite app_nil_r, Nat.add_0_r.
  - rewrite IH, <- app_assoc. cbn. rewrite Nat.add_0_r. f_equal; [|lia].
    do 2 f_equal. apply imap_ext; intros i x _. cbn. f_equal; lia.
Qed.

Lemma field_step_rows fn data rows id f :
  field_step fn data (calculations data) (usage_index data) (rows, id) f =
    (rows ++ imap (λ i w, row_of fn data f (id + i) w)
               (worksheets_of data (Field.name f)),
     id + length (worksheets_of data (Field.name f))).
Proof.
  unfold field_step, row_of. cbv zeta. rewrite usage_index_worksheets.
  destruct (decide (Field.formula f = "")) as [E|E]; cbn [fst snd].
  - by rewrite fold_left_row_step.
  - destruct (clean_calculation_formula _ _) as [c st].
    by rewrite fold_left_row_step.
Qed.

Lemma field_rows_eq fn data f id :
  field_rows fn data f id =
    imap (λ i w, row_of fn data f (id + i) w)
      (worksheets_of data (Field.name f)).
Proof. unfold field_rows. by rewrite field_step_rows. Qed.

Lemma field_rows_length fn data f id :
  length (field_rows fn data f id) =
    length (worksheets_of data (Field.name f)).
Proof. by rewrite field_rows_eq, length_imap. Qed.

Lemma field_step_field_rows fn data rows id f :
  field_step fn data (calculations data) (usage_index data) (rows, id) f =
    (rows ++ field_rows fn data f id,
     id + length (field_rows fn data f id)).
Proof. by rewrite field_rows_length, field_rows_eq, field_step_rows. Qed.

Lemma fold_left_field_step fn data fs rows id :
  fold_left (field_step fn data (calculations data) (usage_index data)) fs
    (rows, id) =
    (rows ++ fields_rows fn data fs id,
     id + length (fields_rows fn data fs id)).
Proof.
  revert rows id; induction fs as [|f fs IH]; intros rows id; cbn.
  - by rewrite app_nil_r, Nat.add_0_r.
  - rewrite field_step_field_rows, IH, <- app_assoc, length_app.
    f_equal. lia.
Qed.

Lemma fold_left_workbook_step wbs rows id :
  fold_left workbook_step wbs (rows, id) =
    (rows ++ workbooks_rows wbs id, id + length (workbooks_rows wbs id)).
Proof.
  revert rows id; induction wbs as [|[fn data] wbs IH]; intros rows id; cbn.
  - by rewrite app_nil_r, Nat.add_0_r.
  - fold (usage_index data). rewrite fold_left_field_step, IH.
    rewrite <- app_assoc, length_app. f_equal. lia.
Qed.

Lemma build_final_output_rows wbs :
  build_final_output wbs = workbooks_rows wbs 1.
Proof. unfold build_final_output. by rewrite fold_left_workbook_step. Qed.

Lemma imap_add_seq {A} (l : list A) (id : nat) :
  imap (λ i _, id + i) l = seq id (length l).
Proof.
  revert id; induction l as [|x l IH]; intros id; cbn; [done|].
  rewrite Nat.add_0_r. f_equal. rewrite <- IH.
  apply imap_ext; intros i y _. cbn. lia.
Qed.

Lemma field_rows_ids fn data f id :
  Row.column_id <$> field_rows fn data f id =
    seq id (length (field_rows fn data f id)).
Proof.
  rewrite field_rows_length, field_rows_eq, fmap_imap.
  by rewrite <- imap_add_seq.
Qed.

Lemma fields_rows_ids fn data fs id :
  Row.column_id <$> fields_rows fn data fs id =
    seq id (length (fields_rows fn data fs id)).
Proof.
  revert id; induction fs as [|f fs IH]; intros id; cbn; [done|].
  by rewrite fmap_app, length_app, seq_app, field_rows_ids, IH.
Qed.

Lemma workbooks_rows_ids wbs id :
  Row.column_id <$> workbooks_rows wbs id =
    seq id (length (workbooks_rows wbs id)).
Proof.
  revert id; induction wbs as [|[fn data] wbs IH]; intros id; cbn; [done|].
  by rewrite fmap_app, length_app, seq_app, fields_rows_ids, IH.
Qed.

Lemma field_rows_keys fn data f id :
  row_key <$> field_rows fn data f id =
    (λ w, (fn, Field.name f, w)) <$> worksheets_of data (Field.name f).
Proof.
  rewrite field_rows_eq, fmap_imap.
  generalize (worksheets_of data (Field.name f)) as ws. intros ws.
  revert id; induction ws as [|w ws IH]; intros id; cbn; [done|].
  f_equal. rewrite <- (IH (S id)). apply imap_ext; intros i y _. cbn.
  by replace (id + S i) with (S id + i) by lia.
Qed.

Lemma fields_rows_keys fn data fs id :
  row_key <$> fields_rows fn data fs id =
    flat_map (λ f, (λ w, (fn, Field.name f, w)) <$>
                     worksheets_of data (Field.name f)) fs.
Proof.
  revert id; induction fs as [|f fs IH]; intros id; cbn; [done|].
  by rewrite fmap_app, field_rows_keys, IH.
Qed.

Lemma workbooks_rows_keys wbs id :
  row_key <$> workbooks_rows wbs id =
    flat_map (λ '(fn, data),
      flat_map (λ f, (λ w, (fn, Field.name f, w)) <$>
                       worksheets_of data (Field.name f)) (fields data)) wbs.
Proof.
  revert id; induction wbs as [|[fn data] wbs IH]; intros id; cbn; [done|].
  by rewrite fmap_app, fields_rows_keys, IH.
Qed.

(** C3: the Column ID values of the rows of [build_final_output] are
    exactly 1, 2, ..., N in emission order, N being the number of rows, and
    the rows come in workbook order, then field order within the workbook,
    then worksheet order within the field. *)
Theorem column_ids_are_1_to_N (all_workbook_data : list (string * Data)) :
  Row.column_id <$> build_final_output all_workbook_data =
    seq 1 (length (build_final_output all_workbook_data)) ∧
  row_key <$> build_final_output all_workbook_data =
    flat_map (λ '(filename, data),
      flat_map (λ f, (λ w, (filename, Field.name f, w)) <$>
                       worksheets_of data (Field.name f)) (fields data))
      all_workbook_data.
Proof.
  rewrite build_final_output_rows. split.
  - apply workbooks_rows_ids.
  - apply workbooks_rows_keys.
Qed.

Lemma shift_row_of fn data f k i w :
  shift_column_id k (row_of fn data f i w) = row_of fn data f (k + i) w.
Proof. done. Qed.

Lemma field_rows_shift fn data f k id :
  field_rows fn data f (k + id) =
    shift_column_id k <$> field_rows fn data f id.
Proof.
  rewrite !field_rows_eq, fmap_imap. apply imap_ext.
  intros i w _. cbn. rewrite shift_row_of. f_equal. lia.
Qed.

Lemma fields_rows_shift fn data fs k id :
  fields_rows fn data fs (k + id) =
    shift_column_id k <$> fields_rows fn data fs id.
Proof.
  revert id. induction fs as [|f fs IH]; intros id; cbn; [done|].
  rewrite fmap_app, field_rows_shift, length_fmap.
  by rewrite <- Nat.add_assoc, IH.
Qed.

Lemma workbooks_rows_shift wbs k id :
  workbooks_rows wbs (k + id) = shift_column_id k <$> workbooks_rows wbs id.
Proof.
  revert id. induction wbs as [|[fn data] wbs IH]; intros id; cbn; [done|].
  rewrite fmap_app, fields_rows_shift, length_fmap.
  by rewrite <- Nat.add_assoc, IH.
Qed.

Lemma workbooks_rows_app w1 w2 id :
  workbooks_rows (w1 ++ w2) id =
    workbooks_rows w1 id ++
    workbooks_rows w2 (id + length (workbooks_rows w1 id)).
Proof.
  revert id. induction w1 as [|[fn data] w1 IH]; intros id; cbn.
  - by rewrite Nat.add_0_r.
  - rewrite IH, <- app_assoc, length_app. do 3 f_equal. lia.
Qed.

Lemma fields_rows_app fn data fs1 fs2 id :
  fields_rows fn data (fs1 ++ fs2) id =
    fields_rows fn data fs1 id ++
    fields_rows fn data fs2 (id + length (fields_rows fn data fs1 id)).
Proof.
  revert id. induction fs1 as [|f fs1 IH]; intros id; cbn.
  - by rewrite Nat.add_0_r.
  - rewrite IH, <- app_assoc, length_app. do 3 f_equal. lia.
Qed.

Lemma fields_rows_length_shift fn data fs id :
  length (fields_rows fn data fs id) = length (fields_rows fn data fs 0).
Proof.
  rewrite <- (Nat.add_0_r id) at 1. by rewrite fields_rows_shift, length_fmap.
Qed.

(** The rows of a list of fields depend on the model through its
    calculation map, its usage pairs and its connections only. *)
Lemma fields_rows_model fn fs fs1 fs2 calc_map usage conns id :
  fields_rows fn (mkData fs1 calc_map usage conns) fs id =
    fields_rows fn (mkData fs2 calc_map usage conns) fs id.
Proof.
  revert id. induction fs as [|f fs IH]; intros id; cbn [fields_rows]; [done|].
  change (field_rows fn (mkData fs1 calc_map usage conns) f id)
    with (field_rows fn (mkData fs2 calc_map usage conns) f id).
  by rewrite IH.
Qed.

(** C6: the rows of [build_final_output] for a field of a model.  Whatever
    workbooks come before and after the model's and whatever fields before
    and after the field, the output is the rows emitted before the field is
    reached, then the rows of the field, then the rows of what follows,
    numbered on.  A field whose name has no usage entry gets exactly one
    row, with an empty Worksheet Name and Field Used in Worksheets = "No";
    a field with k >= 1 usage entries gets exactly k rows, one per usage in
    order, each with Field Used in Worksheets = "Yes" iff its worksheet
    name is not empty. *)
Theorem rows_per_field
    (workbooks_before workbooks_after : list (string * Data))
    (filename : string) (fields_before fields_after : list Field.t)
    (field : Field.t) (calc_map : gmap string string)
    (usage : list Usage.t) (conns : gmap string Connection.t) :
  let model fs := mkData fs calc_map usage conns in
  let data := model (fields_before ++ field :: fields_after) in
  let k := length (usages_of data (Field.name field)) in
  ∃ rows_before emitted rows_after,
    build_final_output
      (workbooks_before ++ (filename, data) :: workbooks_after) =
      rows_before ++ emitted ++ rows_after ∧
    rows_before =
      build_final_output
        (workbooks_before ++ [(filename, model fields_before)]) ∧
    rows_after =
      (shift_column_id (length rows_before + length emitted) <$>
         build_final_output
           ((filename, model fields_after) :: workbooks_after)) ∧
    Forall (λ r, Row.file_name r = filename ∧
                 Row.column_name r = Field.name field) emitted ∧
    Row.column_id <$> emitted =
      seq (1 + length rows_before) (length emitted) ∧
    (k = 0 → ∃ r, emitted = [r] ∧ Row.worksheet_name r = "" ∧
                   Row.field_used_in_worksheets r = "No") ∧
    (1 ≤ k → length emitted = k ∧
             Row.worksheet_name <$> emitted =
               usages_of data (Field.name field) ∧
             Forall (λ r, Row.field_used_in_worksheets r = "Yes" ↔
                          Row.worksheet_name r ≠ "") emitted).
Proof.
  intros model data k.
  set (rows_before := build_final_output
         (workbooks_before ++ [(filename, model fields_before)])).
  set (emitted := field_rows filename data field (1 + length rows_before)).
  exists rows_before, emitted, (shift_column_id (length rows_before + length emitted) <$>
         build_final_output
           ((filename, model fields_after) :: workbooks_after)).
  split; [|split; [done|]; split; [done|]; split; [|split]].
  - subst rows_before emitted k data model.
    rewrite !build_final_output_rows, !workbooks_rows_app.
    cbn [workbooks_rows fields]. rewrite !app_nil_r, fields_rows_app.
    cbn [fields_rows].
    rewrite fmap_app, <- fields_rows_shift, <- workbooks_rows_shift.
    rewrite (fields_rows_model filename fields_before fields_before
               (fields_before ++ field :: fields_after)).
    rewrite (fields_rows_model filename fields_after fields_after
               (fields_before ++ field :: fields_after)).
    set (data := mkData (fields_before ++ field :: fields_after) calc_map
                   usage conns).
    set (B := workbooks_rows workbooks_before 1).
    set (E := fields_rows filename data fields_before (1 + length B)).
    rewrite <- !app_assoc, !length_app. do 2 f_equal.
    replace (1 + (length B + length E)) with (1 + length B + length E) by lia.
    set (F := field_rows filename data field (1 + length B + length E)).
    f_equal. f_equal; [f_equal; lia|].
    f_equal.
    rewrite (fields_rows_model filename fields_after fields_after
               (fields_before ++ field :: fields_after)).
    fold data.
    rewrite (fields_rows_length_shift filename data fields_after 1),
      (fields_rows_length_shift filename data fields_after
         (1 + length B + length E + length F)).
    lia.
  - subst emitted. rewrite field_rows_eq. apply Forall_forall. intros r Hr.
    by apply elem_of_lookup_imap in Hr as (i & w & -> & _).
  - apply field_rows_ids.
  - subst k emitted. rewrite field_rows_eq. unfold worksheets_of.
    destruct (usages_of data (Field.name field)) as [|w ws] eqn:E.
    + split; [|cbn; lia]. intros _. eexists. split; [reflexivity|]. done.
    + split; [done|]. intros _. split; [by rewrite length_imap|]. split.
      * rewrite fmap_imap. cbn. f_equal.
        clear E. generalize (S (length rows_before)) as n.
        induction ws as [|x ws IH]; intros n; [done|].
        cbn. f_equal. apply (IH (S n)).
      * apply Forall_forall. intros r Hr.
        apply elem_of_lookup_imap in Hr as (i & x & -> & _).
        unfold row_of, final_row. cbn. case_decide; split; done.
Qed.

Lemma row_of_connection fn data f id w :
  Row.connection_name (row_of fn data f id w) =
    from_option Connection.name "" (connections data !! Field.datasource f) ∧
  Row.connection_alias (row_of fn data f id w) =
    from_option Connection.alias (Field.datasource f)
      (connections data !! Field.datasource f).
Proof. done. Qed.

(** C9, amended: when the field's datasource name is not a key of the
    connections map, every row emitted for the field has an empty
    Connection Name, and its Connection Alias is the field's datasource
    name. *)
Theorem absent_connection_rows (filename : string) (data : Data)
    (field : Field.t) (final_rows : list Row.t) (column_id : nat) :
  connections data !! Field.datasource field = None →
  let emitted := field_rows filename data field column_id in
  field_step filename data (calculations data) (usage_index data)
    (final_rows, column_id) field =
    (final_rows ++ emitted, column_id + length emitted) ∧
  Forall (λ r, Row.connection_name r = "" ∧
               Row.connection_alias r = Field.datasource field) emitted.
Proof.
  intros Hno emitted. split; [apply field_step_field_rows|].
  subst emitted. rewrite field_rows_eq. apply Forall_forall. intros r Hr.
  apply elem_of_lookup_imap in Hr as (i & w & -> & _).
  destruct (row_of_connection filename data field (column_id + i) w) as [-> ->].
  by rewrite Hno.
Qed.

Lemma field_rows_origin fn data f id :
  Forall (λ r, Row.file_name r = fn ∧ Row.column_name r = Field.name f)
    (field_rows fn data f id).
Proof.
  rewrite field_rows_eq. apply Forall_forall. intros r Hr.
  by apply elem_of_lookup_imap in Hr as (i & w & -> & _).
Qed.

Lemma fields_rows_origin fn data fs id :
  Forall (λ r, ∃ f, f ∈ fs ∧ Row.file_name r = fn ∧
                    Row.column_name r = Field.name f)
    (fields_rows fn data fs id).
Proof.
  revert id; induction fs as [|f fs IH]; intros id; cbn; [done|].
  apply Forall_app. split.
  - eapply Forall_impl; [apply field_rows_origin|].
    intros r [? ?]. exists f. split; [left|done].
  - eapply Forall_impl; [apply IH|].
    intros r (g & ? & ?). exists g. split; [by right|done].
Qed.

Lemma workbooks_rows_origin wbs id :
  Forall (λ r, ∃ fn data f, (fn, data) ∈ wbs ∧ f ∈ fields data ∧
                            Row.file_name r = fn ∧
                            Row.column_name r = Field.name f)
    (workbooks_rows wbs id).
Proof.
  revert id; induction wbs as [|[fn data] wbs IH]; intros id; cbn; [done|].
  apply Forall_app. split.
  - eapply Forall_impl; [apply fields_rows_origin|].
    intros r (f & ? & ?). exists fn, data, f. split; [left|done].
  - eapply Forall_impl; [apply IH|].
    intros r (fn' & data' & f & ? & ?). exists fn', data', f.
    split; [by right|done].
Qed.

Lemma usages_of_without_unmatched data k :
  k ∈ Field.name <$> fields data →
  usages_of (without_unmatched data) k = usages_of data k.
Proof.
  intros Hk. unfold usages_of. cbn. f_equal.
  rewrite list_filter_filter. apply list_filter_iff.
  intros u. split; [tauto|]. intros Hu. split; [done|]. by rewrite Hu.
Qed.

Lemma field_rows_without_unmatched fn data f id :
  f ∈ fields data →
  field_rows fn (without_unmatched data) f id = field_rows fn data f id.
Proof.
  intros Hf. rewrite !field_rows_eq. unfold worksheets_of.
  rewrite usages_of_without_unmatched by (by apply list_elem_of_fmap_2).
  done.
Qed.

Lemma fields_rows_without_unmatched fn data fs id :
  fs ⊆ fields data →
  fields_rows fn (without_unmatched data) fs id = fields_rows fn data fs id.
Proof.
  revert id; induction fs as [|f fs IH]; intros id Hfs; cbn; [done|].
  rewrite field_rows_without_unmatched by set_solver.
  rewrite IH by set_solver. done.
Qed.

Lemma workbooks_rows_drop_unmatched wbs id :
  workbooks_rows (drop_unmatched <$> wbs) id = workbooks_rows wbs id.
Proof.
  revert id; induction wbs as [|[fn data] wbs IH]; intros id; cbn; [done|].
  change (fields (without_unmatched data)) with (fields data).
  rewrite fields_rows_without_unmatched by done. by rewrite IH.
Qed.

(** C10: every row of [build_final_output] has the Column Name of some
    field of its workbook's field list (and that workbook's File Name); so
    usage pairs whose field names no field of the model contribute nothing:
    removing them leaves the output unchanged. *)
Theorem rows_come_from_fields (all_workbook_data : list (string * Data)) :
  Forall (λ r, ∃ filename data f,
            (filename, data) ∈ all_workbook_data ∧ f ∈ fields data ∧
            Row.file_name r = filename ∧ Row.column_name r = Field.name f)
    (build_final_output all_workbook_data) ∧
  build_final_output (drop_unmatched <$> all_workbook_data) =
    build_final_output all_workbook_data.
Proof.
  rewrite !build_final_output_rows. split.
  - apply workbooks_rows_origin.
  - apply workbooks_rows_drop_unmatched.
Qed.

End RowBuilderTheorems.

(** *** Examples, with the decimal digits of Unicode 14.0 *)

Section RowBuilderExamples.
#[local] Existing Instance unicode_14_0.

(** The two row-builder examples of the specification: a field used in the
    worksheets "A" and "B", and a field used nowhere. *)
Example used_in_two_worksheets :
  (λ r, (Row.column_id r, Row.worksheet_name r,
         Row.field_used_in_worksheets r, Row.calc_clean_status r)) <$>
    build_final_output
      [("book.twb",
        mkData [orphan_field] ∅
          [Usage.mk "[Region]" "A" ""; Usage.mk "[Region]" "B" ""] ∅)] =
    [(1, "A", "Yes", "No Calculation"); (2, "B", "Yes", "No Calculation")].
Proof. by vm_compute. Qed.

Example used_nowhere :
  (λ r, (Row.column_id r, Row.worksheet_name r,
         Row.field_used_in_worksheets r)) <$>
    build_final_output [("book.twb", orphan_model)] = [(1, "", "No")].
Proof. by vm_compute. Qed.

(** C9 as stated fails: the datasource "Orders" is not a key of the
    connections map, and the row's Connection Alias is "Orders", not the
    empty string. *)
Lemma connection_alias_not_empty :
  connections orphan_model !! Field.datasource orphan_field = None ∧
  Row.connection_alias <$> build_final_output [("book.twb", orphan_model)] =
    ["Orders"] ∧
  "Orders" ≠ "".
Proof. split; [reflexivity|]. split; [reflexivity|discriminate]. Qed.

Lemma absent_connection_rows_witness :
  connections orphan_model !! Field.datasource orphan_field = None ∧
  Forall (λ r, Row.connection_name r = "" ∧
               Row.connection_alias r = Field.datasource orphan_field)
    (field_rows "book.twb" orphan_model orphan_field 1).
Proof.
  split; [reflexivity|].
  apply (absent_connection_rows "book.twb" orphan_model orphan_field [] 1).
  reflexivity.
Defined.

End RowBuilderExamples.

(** * Further properties *)

(** ** Resolver: what a pass counts and what it leaves *)

Section ResolverFurther.
Context {unicode : UnicodeData}.

Lemma reference_ids_occurs p id s :
  p ∈ any_reference → id ∈ reference_ids p s → occurs p id s.
Proof.
  intros Hp. induction s as [|c s IH]; cbn [reference_ids].
  - rewrite match_at_nil. set_solver.
  - destruct (match_at p (String c s)) as [[m rest]|] eqn:Hm.
    + apply match_at_spec in Hm as (id0 & Hid0 & -> & Hs);
        [|by apply closer_not_digit].
      cbn [group1]. rewrite elem_of_app, list_elem_of_singleton.
      intros [->|Hin].
      * split; [done|]. exists "", rest. by rewrite Hs.
      * by apply (occurs_app_l p id (String c "")), IH.
    + rewrite app_nil_l. intros Hin.
      by apply (occurs_app_l p id (String c "")), IH.
Qed.

(** Inside the text of a reference no other reference of the same syntax
    begins. *)
Lemma reference_ids_tail p id pre u rest :
  p ∈ any_reference → identifier p id →
  reference p id = pre +:+ u → pre ≠ "" →
  reference_ids p (u +:+ rest) = reference_ids p rest.
Proof.
  intros Hp Hid. revert pre. induction u as [|x u IH]; intros pre E Hpre.
  - done.
  - cbn [String.append reference_ids].
    destruct (match_at p (String x (u +:+ rest))) as [[m r]|] eqn:Hm.
    + exfalso. apply match_at_spec in Hm as (id' & Hid' & -> & Hs);
        [|by apply closer_not_digit].
      destruct (reference_opening p id' Hp Hid') as (c & w & Ew & _).
      rewrite Ew in Hs. cbn in Hs. injection Hs as -> _.
      by apply Hpre, (opener_only_first p p id id' pre c u w).
    + rewrite app_nil_l. apply (IH (pre +:+ String x "")).
      * by rewrite append_assoc.
      * by destruct pre.
Qed.

Lemma reference_ids_reference p id rest :
  p ∈ any_reference → identifier p id →
  reference_ids p (reference p id +:+ rest) = id :: reference_ids p rest.
Proof.
  intros Hp Hid.
  destruct (reference_opening p id Hp Hid) as (c & w & Ew & _).
  pose proof (match_at_reference p id rest Hp Hid) as Hm.
  rewrite Ew in Hm |- *. cbn [String.append] in Hm.
  cbn [String.append reference_ids]. rewrite Hm.
  cbn [group1 app]. f_equal.
  apply (reference_ids_tail p id (String c "") w rest); [done..| |done].
  by rewrite Ew.
Qed.

Lemma sub_count calc_map p s n :
  p ∈ any_reference →
  snd (re_sub p (replace_calc_id calc_map) s n) =
    n + length (resolvable_ids calc_map (reference_ids p s)).
Proof.
  intros Hp. revert n.
  induction s as [|s m rest Hm IH|c s Hm IH] using (re_sub_scan_ind p);
    intros n.
  - rewrite re_sub_nil. cbn [reference_ids snd]. rewrite match_at_nil.
    cbn. lia.
  - rewrite (re_sub_match _ _ _ _ _ _ Hm). cbn [snd].
    apply match_at_spec in Hm as (id & Hid & -> & ->);
      [|by apply closer_not_digit].
    rewrite reference_ids_reference, IH, replace_calc_id_match by done.
    unfold resolvable_ids. rewrite filter_cons.
    destruct (calc_map !! id) as [name|] eqn:E; cbn [from_option snd].
    + rewrite decide_True by eauto. cbn. lia.
    + rewrite decide_False by (by intros [? ?]). done.
  - rewrite re_sub_skip by done. cbn [snd reference_ids].
    rewrite Hm, app_nil_l. apply IH.
Qed.

(** X1: each pass counts exactly the references of its syntax, position by
    position, whose identifier is a key of the map. *)
Theorem substitution_count (calc_map : gmap string string) (s : string)
    (n : nat) :
  snd (re_sub calc_pattern (replace_calc_id calc_map) s n) =
    n + length (resolvable_ids calc_map (reference_ids calc_pattern s)) ∧
  snd (re_sub at_pattern (replace_at_id calc_map) s n) =
    n + length (resolvable_ids calc_map (reference_ids at_pattern s)) ∧
  snd (re_sub direct_id_pattern (replace_direct_id calc_map) s n) =
    n + length (resolvable_ids calc_map (reference_ids direct_id_pattern s)).
Proof.
  destruct pass_patterns as (Hc & Ha & Hd).
  change (replace_at_id calc_map) with (replace_calc_id calc_map).
  change (replace_direct_id calc_map) with (replace_calc_id calc_map).
  split_and!; by apply sub_count.
Qed.

Section Preservation.
Context (calc_map : gmap string string) (p : ref_pattern).
Hypothesis Hp : p ∈ any_reference.

#[local] Abbreviation sub := (re_sub p (replace_calc_id calc_map)).

(** No reference begins at a character that opens none. *)
Lemma match_at_plain c s :
  c ≠ "["%char → c ≠ "@"%char → match_at p (String c s) = None.
Proof.
  intros H1 H2. destruct (match_at p (String c s)) as [[m r]|] eqn:Hm; [|done].
  exfalso. apply match_at_spec in Hm as (id & Hid & -> & Hs);
    [|by apply closer_not_digit].
  destruct (reference_opening p id Hp Hid) as (x & w & Ew & Hx & _).
  rewrite Ew in Hs. cbn in Hs. injection Hs as -> _. by destruct Hx.
Qed.

(** A run of text free of "[" and "@" goes through a pass unchanged, and
    the scan goes on behind it. *)
Lemma sub_plain_run w r n :
  has_char "[" w = false → has_char "@" w = false →
  sub (w +:+ r) n =
    (w +:+ fst (sub r n), snd (sub r n)).
Proof.
  induction w as [|x w IH]; intros H1 H2; cbn [String.append].
  - by destruct (sub r n).
  - cbn in H1, H2. apply orb_false_iff in H1 as [X1 H1].
    apply orb_false_iff in H2 as [X2 H2].
    rewrite re_sub_skip, IH by
      (done || apply match_at_plain; intros ->; by rewrite Ascii.eqb_refl in * ).
    done.
Qed.

(** A pass removes no reference but those it resolves. *)
Lemma sub_keeps q id s n :
  q ∈ any_reference → (q = p → calc_map !! id = None) →
  occurs q id s → occurs q id (fst (sub s n)).
Proof.
  intros Hq Hnone [Hid (pre & post & Hs)]. revert n pre post Hs.
  induction s as [|s m rest Hm IH|c s Hm IH] using (re_sub_scan_ind p);
    intros n pre post Hs.
  - destruct pre; cbn in Hs; [|done].
    pose proof (reference_not_empty q id). by destruct (reference q id).
  - apply match_at_spec in Hm as (id0 & Hid0 & -> & ->);
      [|by apply closer_not_digit].
    destruct (sub_reference calc_map p Hp id0 rest n Hid0) as [n' ->].
    apply append_eq_append in Hs as [(e & -> & Hs)|(e & Hpre & Hs)].
    { apply occurs_app_l. by eapply IH. }
    destruct e as [|x e].
    { cbn in Hs. apply occurs_app_l. by eapply (IH _ ""). }
    destruct (reference_opening q id Hq Hid) as (c & w & Ew & _).
    assert (c = x) as ->.
    { rewrite Ew in Hs. cbn in Hs. by injection Hs. }
    assert (pre = "") as ->
      by (by eapply (opener_only_first p q id0 id pre x e w)).
    cbn in Hpre. rewrite <- Hpre in Hs.
    assert (q = p ∧ id = id0) as [-> ->].
    { eapply reference_head; [done..|]. symmetry. exact Hs. }
    unfold replacement. rewrite Hnone by done. cbn [from_option].
    split; [done|]. by eexists "", _.
  - rewrite re_sub_skip by done. cbn [fst].
    destruct pre as [|c0 pre].
    + destruct (reference_opening q id Hq Hid) as (x & w & Ew & _ & W1 & W2).
      cbn in Hs. rewrite Ew in Hs. cbn in Hs. injection Hs as -> ->.
      rewrite sub_plain_run by done. cbn [fst].
      split; [done|]. eexists "", _. by rewrite Ew.
    + cbn in Hs. injection Hs as -> Hs.
      apply (occurs_app_l q id (String c0 "")). by eapply IH.
Qed.

(** A pass that finds no key of the map changes nothing. *)
Lemma sub_unresolvable s n :
  (∀ id, occurs p id s → calc_map !! id = None) → sub s n = (s, n).
Proof.
  revert n.
  induction s as [|s m rest Hm IH|c s Hm IH] using (re_sub_scan_ind p);
    intros n Hnone.
  - apply re_sub_nil.
  - rewrite (re_sub_match _ _ _ _ _ _ Hm).
    apply match_at_spec in Hm as (id & Hid & -> & ->);
      [|by apply closer_not_digit].
    rewrite replace_calc_id_match.
    rewrite (Hnone id) by (split; [done|]; by exists "", rest).
    cbn [from_option fst snd]. rewrite IH; [done|].
    intros id' Hocc. by apply Hnone, occurs_app_l.
  - rewrite re_sub_skip by done. rewrite IH; [done|].
    intros id' Hocc. by apply Hnone, (occurs_app_l p id' (String c "")).
Qed.

End Preservation.

(** X2: identifiers that are no keys of the map stay as they are: when no
    reference of a non-empty formula names a key, the formula comes back
    unchanged, with "Unresolved References" if it has a reference and
    "Success" if it has none. *)
Theorem unresolvable_left_verbatim (raw_formula : string)
    (calc_map : gmap string string) :
  raw_formula ≠ "" →
  (∀ p id, p ∈ any_reference → occurs p id raw_formula →
           calc_map !! id = None) →
  fst (clean_calculation_formula raw_formula calc_map) = raw_formula ∧
  (has_reference raw_formula →
     snd (clean_calculation_formula raw_formula calc_map) =
       "Unresolved References") ∧
  (¬ has_reference raw_formula →
     snd (clean_calculation_formula raw_formula calc_map) = "Success").
Proof.
  intros Hne Hnone.
  destruct pass_patterns as (Hc & Ha & Hd).
  assert (Hsub : substitute_references raw_formula calc_map = (raw_formula, 0)).
  { unfold substitute_references.
    change (replace_at_id calc_map) with (replace_calc_id calc_map).
    change (replace_direct_id calc_map) with (replace_calc_id calc_map).
    rewrite !sub_unresolvable; eauto. }
  unfold clean_calculation_formula. rewrite decide_False, Hsub by done.
  change (0 =? 0) with true. change (0 <? 0) with false. cbn [andb].
  destruct (re_search any_reference raw_formula) eqn:E; cbn [fst snd].
  - split_and!; [done..|]. intros Href. exfalso.
    by apply Href, re_search_has_reference.
  - split_and!; [done| |done]. intros Href%re_search_has_reference.
    congruence.
Qed.

(** X3: the cleaned formula is empty only for the empty formula, and "No
    Formula" is the status of the empty formula only. *)
Theorem cleaned_empty_iff (raw_formula : string)
    (calc_map : gmap string string) :
  (fst (clean_calculation_formula raw_formula calc_map) = "" ↔
   raw_formula = "") ∧
  (snd (clean_calculation_formula raw_formula calc_map) = "No Formula" ↔
   raw_formula = "").
Proof.
  unfold clean_calculation_formula.
  destruct (decide (raw_formula = "")) as [->|Hne]; [done|].
  pose proof (proj2 (substitute_references_counter raw_formula calc_map) Hne)
    as Hout.
  destruct (substitute_references raw_formula calc_map) as [cleaned n].
  cbn [fst snd] in *. split; [done|].
  split; [|done].
  by destruct ((n =? 0) && _), ((0 <? n) && _).
Qed.

Lemma clean_fst raw calc_map :
  fst (clean_calculation_formula raw calc_map) =
    fst (substitute_references raw calc_map).
Proof.
  unfold clean_calculation_formula.
  destruct (decide (raw = "")) as [->|Hne].
  - unfold substitute_references. rewrite !re_sub_nil. reflexivity.
  - by destruct (substitute_references raw calc_map).
Qed.

(** The intermediate strings of the three passes. *)
Lemma substitute_references_passes raw calc_map :
  ∃ s1 n1 s2 n2,
    re_sub calc_pattern (replace_calc_id calc_map) raw 0 = (s1, n1) ∧
    re_sub at_pattern (replace_calc_id calc_map) s1 n1 = (s2, n2) ∧
    substitute_references raw calc_map =
      re_sub direct_id_pattern (replace_calc_id calc_map) s2 n2.
Proof.
  unfold substitute_references.
  change (replace_at_id calc_map) with (replace_calc_id calc_map).
  change (replace_direct_id calc_map) with (replace_calc_id calc_map).
  destruct (re_sub calc_pattern _ raw 0) as [s1 n1] eqn:E1.
  destruct (re_sub at_pattern _ s1 n1) as [s2 n2] eqn:E2.
  by exists s1, n1, s2, n2.
Qed.

Lemma substitute_references_keeps raw calc_map q id :
  q ∈ any_reference → occurs q id raw → calc_map !! id = None →
  occurs q id (fst (substitute_references raw calc_map)).
Proof.
  intros Hq Hocc Hnone. destruct pass_patterns as (Hc & Ha & Hd).
  destruct (substitute_references_passes raw calc_map)
    as (s1 & n1 & s2 & n2 & E1 & E2 & ->).
  apply (sub_keeps calc_map direct_id_pattern Hd q id s2 n2); [done..|].
  replace s2 with (fst (re_sub at_pattern (replace_calc_id calc_map) s1 n1))
    by (by rewrite E2).
  apply (sub_keeps calc_map at_pattern Ha q id s1 n1); [done..|].
  replace s1 with (fst (re_sub calc_pattern (replace_calc_id calc_map) raw 0))
    by (by rewrite E1).
  by apply (sub_keeps calc_map calc_pattern Hc q id raw 0).
Qed.

(** X4: with plain captions, the references of the cleaned formula are
    exactly the references of the raw formula that name no key of the
    map. *)
Theorem remaining_references (raw_formula : string)
    (calc_map : gmap string string) (q : ref_pattern) (id : string) :
  captions_plain calc_map → q ∈ any_reference →
  occurs q id (fst (clean_calculation_formula raw_formula calc_map)) ↔
  occurs q id raw_formula ∧ calc_map !! id = None.
Proof.
  intros Hplain Hq. rewrite clean_fst. split.
  - by apply substitute_references_occurs.
  - intros [Hocc Hnone]. by apply substitute_references_keeps.
Qed.

Lemma resolvable_ids_pos calc_map p s :
  p ∈ any_reference →
  0 < length (resolvable_ids calc_map (reference_ids p s)) ↔
  ∃ id, occurs p id s ∧ is_Some (calc_map !! id).
Proof.
  intros Hp. unfold resolvable_ids. split.
  - intros Hlen.
    destruct (filter _ (reference_ids p s)) as [|id l] eqn:E; [cbn in Hlen; lia|].
    assert (id ∈ filter (λ id, is_Some (calc_map !! id)) (reference_ids p s))
      as [Hsome Hin]%list_elem_of_filter by (rewrite E; left).
    exists id. split; [by apply reference_ids_occurs|done].
  - intros (id & Hocc & Hsome).
    assert (id ∈ filter (λ id, is_Some (calc_map !! id)) (reference_ids p s))
      as Hin.
    { apply list_elem_of_filter. split; [done|].
      by apply occurs_reference_ids. }
    destruct (filter _ (reference_ids p s)); [by apply elem_of_nil in Hin|].
    cbn. lia.
Qed.

(** With plain captions, the passes count something exactly when some
    reference of the raw formula names a key of the map. *)
Lemma substitute_references_pos raw calc_map :
  captions_plain calc_map →
  0 < snd (substitute_references raw calc_map) ↔
  resolvable_reference calc_map raw.
Proof.
  intros Hplain. destruct pass_patterns as (Hc & Ha & Hd).
  destruct (substitute_references_passes raw calc_map)
    as (s1 & n1 & s2 & n2 & E1 & E2 & ->).
  pose proof (sub_count calc_map calc_pattern raw 0 Hc) as C1.
  pose proof (sub_count calc_map at_pattern s1 n1 Ha) as C2.
  pose proof (sub_count calc_map direct_id_pattern s2 n2 Hd) as C3.
  rewrite E1 in C1. rewrite E2 in C2. cbn [snd] in C1, C2.
  pose proof (resolvable_ids_pos calc_map calc_pattern raw Hc) as P1.
  pose proof (resolvable_ids_pos calc_map at_pattern s1 Ha) as P2.
  pose proof (resolvable_ids_pos calc_map direct_id_pattern s2 Hd) as P3.
  assert (S1 : s1 = fst (re_sub calc_pattern (replace_calc_id calc_map) raw 0))
    by (by rewrite E1).
  assert (S2 : s2 = fst (re_sub at_pattern (replace_calc_id calc_map) s1 n1))
    by (by rewrite E2).
  split.
  - intros Hpos.
    assert (0 < length (resolvable_ids calc_map (reference_ids calc_pattern raw))
            ∨ 0 < length (resolvable_ids calc_map (reference_ids at_pattern s1))
            ∨ 0 < length (resolvable_ids calc_map
                            (reference_ids direct_id_pattern s2)))
      as [H|[H|H]] by lia.
    + apply P1 in H as (id & Hocc & Hsome). by exists calc_pattern, id.
    + apply P2 in H as (id & Hocc & Hsome). exists at_pattern, id.
      split_and!; [done| |done]. rewrite S1 in Hocc.
      by apply (sub_occurs calc_map calc_pattern Hc Hplain) in Hocc as [? _].
    + apply P3 in H as (id & Hocc & Hsome). exists direct_id_pattern, id.
      split_and!; [done| |done]. rewrite S2 in Hocc.
      apply (sub_occurs calc_map at_pattern Ha Hplain) in Hocc as [Hocc _];
        [|done].
      rewrite S1 in Hocc.
      by apply (sub_occurs calc_map calc_pattern Hc Hplain) in Hocc as [? _].
  - intros (p & id & Hp & Hocc & Hsome). pattern_cases Hp.
    + assert (0 < length (resolvable_ids calc_map
                            (reference_ids calc_pattern raw)))
        by (apply P1; eauto). lia.
    + assert (0 < length (resolvable_ids calc_map
                            (reference_ids direct_id_pattern s2))); [|lia].
      apply P3. exists id. split; [|done]. rewrite S2.
      apply sub_keeps; [done..| |]; [discriminate|]. rewrite S1.
      apply sub_keeps; [done..| |]; [discriminate|done].
    + assert (0 < length (resolvable_ids calc_map
                            (reference_ids at_pattern s1))); [|lia].
      apply P2. exists id. split; [|done]. rewrite S1.
      apply sub_keeps; [done..| |]; [discriminate|done].
Qed.

(** X5: with plain captions the status of a non-empty formula is read off
    the raw formula and the map: "Success" when every reference names a
    key, "Unresolved References" when there are references and none names a
    key, "Partially Resolved" when some do and some do not. *)
Theorem status_by_references (raw_formula : string)
    (calc_map : gmap string string) :
  raw_formula ≠ "" → captions_plain calc_map →
  let status := snd (clean_calculation_formula raw_formula calc_map) in
  (status = "Success" ↔ references_resolvable calc_map raw_formula) ∧
  (status = "Unresolved References" ↔
     has_reference raw_formula ∧ ¬ resolvable_reference calc_map raw_formula) ∧
  (status = "Partially Resolved" ↔
     resolvable_reference calc_map raw_formula ∧
     unresolvable_reference calc_map raw_formula).
Proof.
  intros Hne Hplain status.
  pose proof (substitute_references_pos raw_formula calc_map Hplain) as Hpos.
  assert (Hleft : has_reference (fst (substitute_references raw_formula calc_map))
                  ↔ unresolvable_reference calc_map raw_formula).
  { split.
    - intros (q & id & Hq & Hocc).
      apply substitute_references_occurs in Hocc as [? ?]; [|done..].
      by exists q, id.
    - intros (q & id & Hq & Hocc & Hnone). exists q, id. split; [done|].
      by apply substitute_references_keeps. }
  assert (Hall : references_resolvable calc_map raw_formula ↔
                 ¬ unresolvable_reference calc_map raw_formula).
  { split.
    - intros Hres (q & id & Hq & Hocc & Hnone).
      destruct (Hres q id Hq Hocc). congruence.
    - intros Hno q id Hq Hocc.
      destruct (calc_map !! id) eqn:E; [eauto|].
      exfalso. apply Hno. by exists q, id. }
  assert (Hsplit : has_reference raw_formula →
                   resolvable_reference calc_map raw_formula ∨
                   unresolvable_reference calc_map raw_formula).
  { intros (q & id & Hq & Hocc).
    destruct (calc_map !! id) eqn:E.
    - left. exists q, id. rewrite E. eauto.
    - right. by exists q, id. }
  assert (Hhas : unresolvable_reference calc_map raw_formula →
                 has_reference raw_formula).
  { intros (q & id & Hq & Hocc & _). by exists q, id. }
  subst status. unfold clean_calculation_formula.
  rewrite decide_False by done.
  destruct (substitute_references raw_formula calc_map) as [cleaned n].
  cbn [fst snd] in *. rewrite Hall.
  rewrite <- !re_search_has_reference in *.
  destruct n as [|n].
  - assert (Hno : ¬ resolvable_reference calc_map raw_formula)
      by (intros H%Hpos; lia).
    change (0 =? 0) with true. change (0 <? 0) with false. cbn [andb].
    destruct (re_search any_reference raw_formula) eqn:E0; cbn [snd];
      split_and!; split; try done; intuition congruence.
  - assert (Hyes : resolvable_reference calc_map raw_formula)
      by (apply Hpos; lia).
    change (S n =? 0) with false. change (0 <? S n) with true. cbn [andb].
    destruct (re_search any_reference cleaned) eqn:E1; cbn [snd];
      split_and!; split; try done; intuition congruence.
Qed.

End ResolverFurther.

(** *** Examples, with the decimal digits of Unicode 14.0 *)

Section ResolverFurtherExamples.
#[local] Existing Instance unicode_14_0.

Lemma unresolvable_left_verbatim_witness :
  "SUM([Sales])+@{7}" ≠ "" ∧
  (∀ p id, p ∈ any_reference → occurs p id "SUM([Sales])+@{7}" →
           profit_sales_map !! id = None) ∧
  fst (clean_calculation_formula "SUM([Sales])+@{7}" profit_sales_map) =
    "SUM([Sales])+@{7}".
Proof.
  assert (H1 : "SUM([Sales])+@{7}" ≠ "") by discriminate.
  assert (H2 : ∀ p id, p ∈ any_reference →
                 occurs p id "SUM([Sales])+@{7}" →
                 profit_sales_map !! id = None).
  { intros p id Hp Hocc. apply occurs_reference_ids in Hocc; [|done].
    pattern_cases Hp; vm_compute in Hocc;
      repeat (apply elem_of_cons in Hocc as [->|Hocc]; [reflexivity|]);
      by apply elem_of_nil in Hocc. }
  split; [exact H1|]. split; [exact H2|].
  exact (proj1 (unresolvable_left_verbatim _ _ H1 H2)).
Defined.

Lemma remaining_references_witness :
  captions_plain profit_sales_map ∧ calc_pattern ∈ any_reference ∧
  (occurs calc_pattern "7"
     (fst (clean_calculation_formula
             "[Calculation_1001]+[Calculation_7]" profit_sales_map)) ↔
   occurs calc_pattern "7" "[Calculation_1001]+[Calculation_7]" ∧
   profit_sales_map !! "7" = None).
Proof.
  assert (H1 : captions_plain profit_sales_map)
    by (apply captions_plain_check; vm_compute; reflexivity).
  assert (H2 : calc_pattern ∈ any_reference) by apply pass_patterns.
  split; [exact H1|]. split; [exact H2|].
  exact (remaining_references _ _ _ _ H1 H2).
Defined.

Lemma status_by_references_witness :
  "[Calculation_1001]+[Calculation_7]" ≠ "" ∧
  captions_plain profit_sales_map ∧
  (snd (clean_calculation_formula "[Calculation_1001]+[Calculation_7]"
          profit_sales_map) = "Partially Resolved" ↔
   resolvable_reference profit_sales_map
     "[Calculation_1001]+[Calculation_7]" ∧
   unresolvable_reference profit_sales_map
     "[Calculation_1001]+[Calculation_7]").
Proof.
  assert (H1 : "[Calculation_1001]+[Calculation_7]" ≠ "") by discriminate.
  assert (H2 : captions_plain profit_sales_map)
    by (apply captions_plain_check; vm_compute; reflexivity).
  split; [exact H1|]. split; [exact H2|].
  exact (proj2 (proj2 (status_by_references _ _ H1 H2))).
Defined.

End ResolverFurtherExamples.

(** ** Extractor: what the passes record *)

Lemma calculation_step_eq data calc :
  calculation_step data calc =
    if decide (get calc "name" "" ≠ "" ∧
               get calc "name" "" ∉ Field.name <$> fields data)
    then mkData (fields data ++ [calculation_field calc]) (calculations data)
           (field_worksheet_usage data) (connections data)
    else data.
Proof.
  unfold calculation_step.
  assert (existsb (λ f, bool_decide (Field.name f = get calc "name" ""))
            (fields data) = true ↔
          get calc "name" "" ∈ Field.name <$> fields data) as Hex.
  { rewrite existsb_exists, list_elem_of_fmap. split.
    - intros (f & Hf%list_elem_of_In & E%bool_decide_eq_true). eauto.
    - intros (f & E & Hf%list_elem_of_In). exists f.
      split; [done|]. by apply bool_decide_eq_true. }
  destruct (existsb _ (fields data)) eqn:E.
  - rewrite andb_false_r, decide_False; [done|]. intros [_ H].
    by apply H, Hex.
  - rewrite andb_true_r. case_bool_decide as Hn.
    + rewrite decide_True; [done|]. split; [done|].
      intros H%Hex. congruence.
    + rewrite decide_False; [done|]. by intros [? _].
Qed.

(** What the loop over the calculation elements appends: fields with new,
    pairwise distinct, non-empty names, each from one of the elements; and
    afterwards every named element has a field of its name. *)
Lemma fold_left_calculation_step_fields calcs data :
  ∃ standalone,
    fold_left calculation_step calcs data =
      mkData (fields data ++ standalone) (calculations data)
        (field_worksheet_usage data) (connections data) ∧
    NoDup (Field.name <$> standalone) ∧
    Forall (λ f, Field.name f ≠ "" ∧
                 (Field.name f ∉ Field.name <$> fields data) ∧
                 ∃ calc, calc ∈ calcs ∧ f = calculation_field calc)
      standalone ∧
    Forall (λ calc, get calc "name" "" ≠ "" →
                    get calc "name" "" ∈
                      Field.name <$> (fields data ++ standalone)) calcs.
Proof.
  revert data; induction calcs as [|calc calcs IH]; intros data.
  - exists []. rewrite app_nil_r. destruct data.
    split_and!; [done|constructor|constructor|constructor].
  - cbn [fold_left]. destruct (IH (calculation_step data calc))
      as (st & -> & Hnd & Hst & Hcov).
    rewrite calculation_step_eq in *. case_decide as Hadd.
    + destruct Hadd as [Hname Hnew]. cbn [fields calculations
        field_worksheet_usage connections] in *.
      exists (calculation_field calc :: st).
      rewrite <- app_assoc in *. cbn [app] in *.
      split_and!.
      * done.
      * cbn. constructor; [|done]. intros Hin.
        apply list_elem_of_fmap in Hin as (f & Ef & Hf).
        rewrite Forall_forall in Hst. destruct (Hst f Hf) as (_ & Hnot & _).
        apply Hnot. rewrite fmap_app. apply elem_of_app. right.
        cbn. rewrite <- Ef. left.
      * constructor.
        -- split_and!; [done..|]. exists calc. split; [left|done].
        -- eapply Forall_impl; [exact Hst|]. cbn.
           intros f (? & Hnot & calc' & ? & ?). split_and!; [done| |].
           ++ intros Hin. apply Hnot. rewrite fmap_app.
              apply elem_of_app. by left.
           ++ exists calc'. split; [by right|done].
      * constructor; [|done]. intros _. rewrite fmap_app.
        apply elem_of_app. right. cbn. left.
    + exists st. split_and!; [done..| |].
      * eapply Forall_impl; [exact Hst|]. cbn.
        intros f (? & ? & calc' & ? & ?). split_and!; [done..|].
        exists calc'. split; [by right|done].
      * constructor; [|done]. intros Hname. rewrite fmap_app.
        apply elem_of_app. left.
        destruct (decide (get calc "name" "" ∈ Field.name <$> fields data));
          [done|]. exfalso. by apply Hadd.
Qed.

Lemma extract_all_data_fields root filename :
  ∃ standalone,
    fields (extract_all_data root filename) =
      datasource_fields root ++ standalone ∧
    NoDup (Field.name <$> standalone) ∧
    Forall (λ f, Field.name f ≠ "" ∧
                 (Field.name f ∉ Field.name <$> datasource_fields root) ∧
                 ∃ calc, calc ∈ findall root "calculation" ∧
                         f = calculation_field calc)
      standalone ∧
    Forall (λ calc, get calc "name" "" ≠ "" →
                    get calc "name" "" ∈
                      Field.name <$> fields (extract_all_data root filename))
      (findall root "calculation").
Proof.
  unfold extract_all_data. cbv zeta. rewrite fold_left_datasource_step.
  match goal with |- context [fold_left calculation_step ?l ?d] =>
    destruct (fold_left_calculation_step_fields l d)
      as (st & -> & Hnd & Hst & Hcov) end.
  cbn [fields app] in *. by exists st.
Qed.

Lemma first_of_each_name_other (n : string) (calcs : list Element) :
  first_of_each_name (filter (λ c, get c "name" "" ≠ n) calcs) =
    filter (λ c, get c "name" "" ≠ n) (first_of_each_name calcs).
Proof.
  induction calcs as [|calc calcs IH]; [done|].
  cbn [first_of_each_name]. rewrite !filter_cons.
  destruct (decide (get calc "name" "" ≠ n)) as [Hk|Hk].
  - cbn [first_of_each_name]. rewrite IH. f_equal.
    rewrite !list_filter_filter. apply list_filter_iff. intros c. tauto.
  - rewrite IH, list_filter_filter. apply list_filter_iff. intros c.
    split; [|tauto]. intros Hc. split; [done|].
    intros E. apply Hk. intros E'. apply Hc. by rewrite E.
Qed.

(** The loop over the calculation elements appends the fields of the
    elements with a new name, the first of every name. *)
Lemma fold_left_calculation_step_first calcs data :
  fold_left calculation_step calcs data =
    mkData
      (fields data ++
       (calculation_field <$>
          first_of_each_name
            (filter (new_name (Field.name <$> fields data)) calcs)))
      (calculations data) (field_worksheet_usage data) (connections data).
Proof.
  revert data; induction calcs as [|calc calcs IH]; intros data.
  - cbn. rewrite app_nil_r. by destruct data.
  - cbn [fold_left]. rewrite IH, calculation_step_eq, filter_cons.
    fold (new_name (Field.name <$> fields data) calc).
    destruct (decide (new_name (Field.name <$> fields data) calc))
      as [Hnew|Hold]; [|done].
    cbn [fields calculations field_worksheet_usage connections
         first_of_each_name].
    rewrite <- app_assoc, fmap_cons. cbn [app]. do 4 f_equal.
    rewrite <- first_of_each_name_other. f_equal. rewrite list_filter_filter. apply list_filter_iff.
    intros c. unfold new_name. rewrite fmap_app, elem_of_app.
    cbn. rewrite list_elem_of_singleton. tauto.
Qed.

(** An element kept as the first of its name has no element of that name
    before it. *)
Lemma first_of_each_name_first seen calcs calc :
  calc ∈ first_of_each_name (filter (new_name seen) calcs) →
  new_name seen calc ∧
  ∃ before after,
    calcs = before ++ calc :: after ∧
    Forall (λ c, get c "name" "" ≠ get calc "name" "") before.
Proof.
  induction calcs as [|x calcs IH]; [by intros ?%elem_of_nil|].
  rewrite filter_cons. destruct (decide (new_name seen x)) as [Hx|Hx].
  - cbn [first_of_each_name].
    intros [->|[Hne Hin]%list_elem_of_filter]%elem_of_cons.
    + split; [done|]. by exists [], calcs.
    + destruct (IH Hin) as (Hnew & before & after & -> & Hb).
      split; [done|]. exists (x :: before), after. split; [done|].
      constructor; [congruence|done].
  - intros Hin. destruct (IH Hin) as (Hnew & before & after & -> & Hb).
    split; [done|]. exists (x :: before), after. split; [done|].
    constructor; [|done]. intros E. apply Hx. unfold new_name in *.
    by rewrite E.
Qed.

(** X6: standalone calculations are recorded first-wins.  The field list
    is the fields of the datasource columns followed by one field for every
    calculation element with a name that no datasource column has, in
    document order; of several calculation elements with the same name the
    first is recorded and the others are skipped.  Each of these fields has
    the type "Calculated Field" and no datasource. *)
Theorem standalone_fields_first_wins (root : Element) (filename : string) :
  fields (extract_all_data root filename) =
    datasource_fields root ++
    (calculation_field <$> standalone_calculations root) ∧
  Forall (λ calc,
      get calc "name" "" ≠ "" ∧
      (get calc "name" "" ∉ Field.name <$> datasource_fields root) ∧
      Field.datasource (calculation_field calc) = "" ∧
      Field.field_type (calculation_field calc) = "Calculated Field" ∧
      ∃ before after,
        findall root "calculation" = before ++ calc :: after ∧
        Forall (λ c, get c "name" "" ≠ get calc "name" "") before)
    (standalone_calculations root) ∧
  NoDup ((λ calc, get calc "name" "") <$> standalone_calculations root) ∧
  Forall (λ calc, get calc "name" "" ≠ "" →
                  get calc "name" "" ∈
                    Field.name <$> fields (extract_all_data root filename))
    (findall root "calculation").
Proof.
  assert (E : fields (extract_all_data root filename) =
            datasource_fields root ++
            (calculation_field <$> standalone_calculations root)).
  { unfold extract_all_data. cbv zeta. rewrite fold_left_datasource_step.
    rewrite fold_left_calculation_step_first. cbn [fields app]. done. }
  split; [exact E|]. split.
  - apply Forall_forall. intros calc Hcalc.
    apply first_of_each_name_first in Hcalc as ([Hname Hnew] & Hfirst).
    by split_and!.
  - destruct (extract_all_data_fields root filename)
      as (st & Est & Hnd & _ & Hcov).
    split; [|done]. rewrite E in Est. apply app_inv_head in Est as <-.
    by rewrite <- list_fmap_compose in Hnd.
Qed.

Lemma last_write_Some {V} k (writes : list (string * V)) v :
  last_write k writes = Some v → (k, v) ∈ writes.
Proof.
  unfold last_write. intros H.
  destruct (last (filter (λ w, fst w = k) writes)) as [[k' v']|] eqn:E;
    [|done].
  cbn in H. injection H as ->.
  apply last_Some_elem_of, list_elem_of_filter in E as [Hk Hin].
  cbn in Hk. by subst.
Qed.

Lemma last_write_is_Some {V} k (writes : list (string * V)) :
  is_Some (last_write k writes) ↔ ∃ v, (k, v) ∈ writes.
Proof.
  split.
  - intros [v Hv]. exists v. by apply last_write_Some.
  - intros [v Hin]. unfold last_write.
    assert ((k, v) ∈ filter (λ w, fst w = k) writes) as Hf
      by (by apply list_elem_of_filter).
    destruct (filter (λ w, fst w = k) writes) as [|w l] using rev_ind.
    + by apply elem_of_nil in Hf.
    + rewrite last_snoc. by eexists.
Qed.

Lemma calculation_writes_non_empty root id name :
  (id, name) ∈ calculation_writes root → id ≠ "" ∧ name ≠ "".
Proof.
  assert (Hcol : ∀ l : list Element,
                   (id, name) ∈ omap column_declaration l →
                      id ≠ "" ∧ name ≠ "").
  { intros l (col & _ & H)%list_elem_of_omap. unfold column_declaration in H.
    destruct (find col "calculation"); [|done]. cbn in H.
    case_decide; [|done]. by injection H as <- <-. }
  unfold calculation_writes. rewrite !elem_of_app.
  intros [H|[H|H]]; [by eapply Hcol| |by eapply Hcol].
  apply list_elem_of_omap in H as (calc & _ & H).
  unfold calculation_declaration in H.
  case_decide; [|done]. by injection H as <- <-.
Qed.

(** X7: an identifier is a key of the calculation map exactly when some
    declaration carries it, and every entry comes from a declaration with a
    non-empty identifier and a non-empty caption (or name). *)
Theorem calculation_map_entries (root : Element) (filename id : string) :
  (is_Some (calculations (extract_all_data root filename) !! id) ↔
   ∃ name, (id, name) ∈ calculation_writes root) ∧
  (∀ name, calculations (extract_all_data root filename) !! id = Some name →
           (id, name) ∈ calculation_writes root ∧ id ≠ "" ∧ name ≠ "").
Proof.
  destruct (extract_all_data_eq root filename) as [st ->].
  cbn [calculations]. rewrite fold_left_write, lookup_empty.
  split.
  - rewrite <- last_write_is_Some. by destruct (last_write _ _).
  - intros name Hname.
    assert ((id, name) ∈ calculation_writes root) as Hin.
    { apply last_write_Some. by destruct (last_write _ _). }
    split; [done|]. by eapply calculation_writes_non_empty.
Qed.

(** X8: a datasource name is a key of the connections map exactly when some
    datasource element of that name has a connection element. *)
Theorem connections_domain (root : Element) (filename ds_name : string) :
  is_Some (connections (extract_all_data root filename) !! ds_name) ↔
  ∃ ds, ds ∈ findall root "datasource" ∧ get ds "name" "" = ds_name ∧
        is_Some (find ds "connection").
Proof.
  destruct (extract_all_data_eq root filename) as [st ->].
  cbn [connections]. rewrite fold_left_write, lookup_empty.
  transitivity (is_Some (last_write ds_name
                  (omap datasource_connection (findall root "datasource")))).
  { by destruct (last_write _ _). }
  rewrite last_write_is_Some. split.
  - intros (c & (ds & Hds & H)%list_elem_of_omap).
    unfold datasource_connection in H.
    destruct (find ds "connection") as [conn|] eqn:E; [|done].
    cbn in H. injection H as <- _. exists ds. by rewrite E.
  - intros (ds & Hds & <- & [conn E]). eexists.
    apply list_elem_of_omap. exists ds. split; [done|].
    unfold datasource_connection. rewrite E. reflexivity.
Qed.

Lemma dependency_usage_eq ws_name usage dep :
  dependency_usage ws_name usage dep =
    usage ++ omap (dependency_entry ws_name dep) (findall dep "column").
Proof.
  unfold dependency_usage. revert usage.
  induction (findall dep "column") as [|col cols IH]; intros usage; cbn.
  - by rewrite app_nil_r.
  - rewrite IH. unfold dependency_entry at 2.
    case_decide; [done|]. by rewrite <- app_assoc.
Qed.

Lemma fold_left_dependency_usage ws_name deps usage :
  fold_left (dependency_usage ws_name) deps usage =
    usage ++ flat_map (λ dep, omap (dependency_entry ws_name dep)
                                (findall dep "column")) deps.
Proof.
  revert usage; induction deps as [|dep deps IH]; intros usage; cbn.
  - by rewrite app_nil_r.
  - by rewrite IH, dependency_usage_eq, <- app_assoc.
Qed.

Lemma encoding_usage_worksheet ws_name usage enc_col :
  ∃ new, encoding_usage ws_name usage enc_col = usage ++ new ∧
         Forall (λ u, Usage.worksheet u = ws_name ∧ Usage.datasource u = "")
           new.
Proof.
  unfold encoding_usage. case_decide.
  - exists []. by rewrite app_nil_r.
  - eexists [_]. split; [reflexivity|]. by constructor.
Qed.

Lemma fold_left_encoding_usage ws_name encs usage :
  ∃ new, fold_left (encoding_usage ws_name) encs usage = usage ++ new ∧
         Forall (λ u, Usage.worksheet u = ws_name ∧ Usage.datasource u = "")
           new.
Proof.
  revert usage; induction encs as [|e encs IH]; intros usage; cbn.
  - exists []. by rewrite app_nil_r.
  - destruct (encoding_usage_worksheet ws_name usage e) as (n1 & -> & H1).
    destruct (IH (usage ++ n1)) as (n2 & -> & H2).
    exists (n1 ++ n2). rewrite <- app_assoc. split; [done|].
    by apply Forall_app.
Qed.

Lemma worksheet_step_eq usage ws :
  ∃ encoded,
    worksheet_step usage ws =
      usage ++
      flat_map (λ dep, omap (dependency_entry (get ws "name" "") dep)
                         (findall dep "column"))
        (findall ws "datasource-dependencies") ++ encoded ∧
    Forall (λ u, Usage.worksheet u = get ws "name" "" ∧
                 Usage.datasource u = "") encoded.
Proof.
  unfold worksheet_step. rewrite fold_left_dependency_usage.
  destruct (fold_left_encoding_usage (get ws "name" "")
              (findall2 ws "encoding" "column")
              (usage ++ flat_map (λ dep, omap
                 (dependency_entry (get ws "name" "") dep)
                 (findall dep "column"))
                 (findall ws "datasource-dependencies")))
    as (new & -> & Hnew).
  exists new. by rewrite <- app_assoc.
Qed.

Lemma fold_left_worksheet_step wss usage :
  ∃ new,
    fold_left worksheet_step wss usage = usage ++ new ∧
    Forall (usage_origin wss) new ∧
    ∀ ws dep col,
      ws ∈ wss → dep ∈ findall ws "datasource-dependencies" →
      col ∈ findall dep "column" → get col "name" "" ≠ "" →
      (get col "name" "", get ws "name" "") ∈ usage_key <$> new.
Proof.
  revert usage; induction wss as [|ws wss IH]; intros usage; cbn [fold_left].
  - exists []. rewrite app_nil_r. split_and!; [done|constructor|].
    intros ws dep col Hws. by apply elem_of_nil in Hws.
  - destruct (worksheet_step_eq usage ws) as (enc & -> & Henc).
    destruct (IH (usage ++
        flat_map (λ dep, omap (dependency_entry (get ws "name" "") dep)
                           (findall dep "column"))
          (findall ws "datasource-dependencies") ++ enc))
      as (new & -> & Hnew & Hcov).
    eexists. rewrite <- !app_assoc. split; [reflexivity|]. split.
    + rewrite !Forall_app. split_and!.
      * apply Forall_forall. intros u Hu.
        apply list_elem_of_In, in_flat_map in Hu as (dep & _ & Hu).
        apply list_elem_of_In, list_elem_of_omap in Hu as (col & _ & Hu).
        unfold dependency_entry in Hu. case_decide; [done|].
        injection Hu as <-. exists ws. split_and!; [left|done..].
      * eapply Forall_impl; [exact Henc|]. cbn. intros u [Hw Hd].
        exists ws. split_and!; [left|done|]. by rewrite Hd.
      * eapply Forall_impl; [exact Hnew|]. cbn.
        intros u (ws' & ? & ?). exists ws'. split; [by right|done].
    + intros ws' dep col Hws Hdep Hcol Hname.
      rewrite !fmap_app, !elem_of_app.
      apply elem_of_cons in Hws as [->|Hws].
      * left. apply list_elem_of_fmap.
        eexists {| Usage.field := _; Usage.worksheet := _;
                   Usage.datasource := get dep "datasource" "" |}.
        split; [reflexivity|].
        apply list_elem_of_In, in_flat_map. exists dep.
        split; [by apply list_elem_of_In|].
        apply list_elem_of_In, list_elem_of_omap. exists col.
        split; [done|]. unfold dependency_entry. by rewrite decide_False.
      * right. right. by eapply Hcov.
Qed.

(** X9: every usage pair the extractor returns names a worksheet element of
    the document, and has a non-empty field when it carries a datasource;
    and every named column of a worksheet's datasource dependencies is
    among the returned pairs. *)
Theorem usage_pairs_of_worksheets (root : Element) (filename : string) :
  Forall (usage_origin (findall root "worksheet"))
    (field_worksheet_usage (extract_all_data root filename)) ∧
  ∀ ws dep col,
    ws ∈ findall root "worksheet" →
    dep ∈ findall ws "datasource-dependencies" →
    col ∈ findall dep "column" → get col "name" "" ≠ "" →
    (get col "name" "", get ws "name" "") ∈
      usage_key <$> field_worksheet_usage (extract_all_data root filename).
Proof.
  destruct (extract_all_data_eq root filename) as [st ->].
  cbn [field_worksheet_usage]. unfold collect_usage, remove_duplicates.
  destruct (fold_left_worksheet_step (findall root "worksheet") [])
    as (new & -> & Hnew & Hcov). cbn [app].
  destruct (fold_left_unique_step new ∅ [])
    as (kept & -> & Hnd & Hset & Hsub); [done|constructor|].
  cbn [snd app] in *. split.
  - apply Forall_forall. intros u Hu. rewrite Forall_forall in Hnew.
    apply Hnew. by eapply elem_of_sublist.
  - intros ws dep col Hws Hdep Hcol Hname.
    specialize (Hcov ws dep col Hws Hdep Hcol Hname).
    rewrite union_empty_l_L in Hset.
    apply (elem_of_list_to_set (C := gset (string * string))).
    rewrite Hset. by apply elem_of_list_to_set.
Qed.

Lemma endswith_snoc s c c' :
  endswith (s +:+ String c "") c' = Ascii.eqb c c'.
Proof.
  induction s as [|a s IH]; cbn; [done|].
  rewrite IH. by destruct s.
Qed.

Lemma endswith_inv r c : endswith r c = true → ∃ s, r = s +:+ String c "".
Proof.
  induction r as [|a r IH]; cbn; [done|]. destruct r as [|b r].
  - intros ->%Ascii.eqb_eq. by exists "".
  - intros [s ->]%IH. by exists (String a s).
Qed.

Lemma drop_last_snoc s c : drop_last (s +:+ String c "") = s.
Proof.
  induction s as [|a s IH]; cbn; [done|].
  rewrite IH. by destruct s.
Qed.

(** The test for a bracketed reference, and what the slice leaves. *)
Lemma bracketed_iff r :
  startswith r "[" && endswith r "]" = true ↔ ∃ s, r = "[" +:+ s +:+ "]".
Proof.
  split.
  - intros [H1 H2]%andb_true_iff. destruct r as [|a r]; [done|].
    unfold startswith in H1. cbn [strip_prefix] in H1.
    destruct (Ascii.eqb_spec "["%char a) as [<-|]; [|done].
    destruct r as [|b r]; [done|].
    change (endswith (String "[" (String b r)) "]")
      with (endswith (String b r) "]") in H2.
    apply endswith_inv in H2 as [s ->]. by exists s.
  - intros [s ->]. apply andb_true_iff. split; [done|].
    change ("[" +:+ s +:+ "]") with (String "[" (s +:+ "]")).
    destruct (s +:+ "]") as [|b t] eqn:E; [by destruct s|].
    change (endswith (String "[" (String b t)) "]")
      with (endswith (String b t) "]").
    by rewrite <- E, endswith_snoc.
Qed.

Lemma slice_bracketed s : slice_1_m1 ("[" +:+ s +:+ "]") = s.
Proof. cbn. apply drop_last_snoc. Qed.

(** What the loop body records for an encoding column with a non-empty
    reference. *)
Lemma encoding_usage_reference (ws_name : string) (enc_col : Element)
    (r : string) :
  r ≠ "" →
  text enc_col = Some r ∨
  ((text enc_col = None ∨ text enc_col = Some "") ∧
   get enc_col "column" "" = r) →
  ∃ f, (∀ usage, encoding_usage ws_name usage enc_col =
                   usage ++ [ {| Usage.field := f;
                                 Usage.worksheet := ws_name;
                                 Usage.datasource := "" |} ]) ∧
       (∀ s, r = "[" +:+ s +:+ "]" → f = s) ∧
       ((∀ s, r ≠ "[" +:+ s +:+ "]") → f = r).
Proof.
  intros Hr Href.
  assert (Eref : match text enc_col with
                 | Some t =>
                     if decide (t = "") then get enc_col "column" "" else t
                 | None => get enc_col "column" ""
                 end = r).
  { destruct Href as [->|[[->| ->] <-]]; [by rewrite decide_False|done..]. }
  exists (if startswith r "[" && endswith r "]" then slice_1_m1 r else r).
  split.
  { intros usage. unfold encoding_usage. cbv zeta.
    by rewrite Eref, decide_False. }
  destruct (startswith r "[" && endswith r "]") eqn:E.
  - apply bracketed_iff in E as [s ->]. rewrite slice_bracketed. split.
    + intros s' [= Hs]. change (s +:+ "]" = s' +:+ "]") in Hs.
      clear -Hs. revert s' Hs. induction s as [|a s IH]; intros [|b s'] Hs;
        cbn in Hs; try done.
      * injection Hs as _ Hs. by destruct s'.
      * injection Hs as _ Hs. by destruct s.
      * injection Hs as -> Hs. f_equal. by apply IH.
    + intros Hno. by destruct (Hno s).
  - split; [|done].
    intros s ->. assert (startswith ("[" +:+ s +:+ "]") "[" &&
                         endswith ("[" +:+ s +:+ "]") "]" = true) as E'
      by (apply bracketed_iff; eauto).
    congruence.
Qed.

(** The pair of an encoding column is among the pairs collected. *)
Lemma fold_left_encoding_usage_covers ws_name encs usage enc_col u :
  enc_col ∈ encs →
  (∀ usage', encoding_usage ws_name usage' enc_col = usage' ++ [u]) →
  u ∈ fold_left (encoding_usage ws_name) encs usage.
Proof.
  intros Hin Hu. revert usage.
  induction encs as [|e encs IH]; intros usage; [by apply elem_of_nil in Hin|].
  cbn [fold_left]. apply elem_of_cons in Hin as [<-|Hin]; [|by apply IH].
  rewrite Hu.
  destruct (fold_left_encoding_usage ws_name encs (usage ++ [u]))
    as (new & -> & _).
  rewrite !elem_of_app, list_elem_of_singleton. auto.
Qed.

Lemma collect_usage_encoding root ws enc_col u :
  ws ∈ findall root "worksheet" →
  enc_col ∈ findall2 ws "encoding" "column" →
  (∀ usage, encoding_usage (get ws "name" "") usage enc_col = usage ++ [u]) →
  u ∈ collect_usage root.
Proof.
  intros Hws Henc Hu. unfold collect_usage.
  generalize (@nil Usage.t) as usage.
  induction (findall root "worksheet") as [|w wss IH]; intros usage;
    [by apply elem_of_nil in Hws|].
  cbn [fold_left]. apply elem_of_cons in Hws as [<-|Hws]; [|by apply IH].
  destruct (fold_left_worksheet_step wss (worksheet_step usage ws))
    as (new & -> & _). apply elem_of_app. left.
  unfold worksheet_step. by eapply fold_left_encoding_usage_covers.
Qed.

Lemma remove_duplicates_keys usages :
  list_to_set (usage_key <$> remove_duplicates usages) =@{gset _}
    list_to_set (usage_key <$> usages).
Proof.
  unfold remove_duplicates.
  destruct (fold_left_unique_step usages ∅ [])
    as (kept & -> & _ & Hset & _); [done|constructor|].
  cbn [snd app] in *. by rewrite union_empty_l_L in Hset.
Qed.

(** X10: an encoding column of a worksheet names its field by its text or,
    when it has no text, by its [column] attribute.  When that reference is
    not empty the extractor returns a usage pair for the field and the
    worksheet; the loop records the pair without datasource; a reference
    written "[name]" is recorded as "name", any other as it stands. *)
Theorem encoding_reference_brackets (root : Element) (filename : string)
    (ws enc_col : Element) (r : string) :
  ws ∈ findall root "worksheet" →
  enc_col ∈ findall2 ws "encoding" "column" →
  r ≠ "" →
  text enc_col = Some r ∨
  ((text enc_col = None ∨ text enc_col = Some "") ∧
   get enc_col "column" "" = r) →
  ∃ f, (f, get ws "name" "") ∈
         usage_key <$> field_worksheet_usage (extract_all_data root filename) ∧
       (∀ usage, encoding_usage (get ws "name" "") usage enc_col =
                   usage ++ [ {| Usage.field := f;
                                 Usage.worksheet := get ws "name" "";
                                 Usage.datasource := "" |} ]) ∧
       (∀ s, r = "[" +:+ s +:+ "]" → f = s) ∧
       ((∀ s, r ≠ "[" +:+ s +:+ "]") → f = r).
Proof.
  intros Hws Henc Hr Href.
  destruct (encoding_usage_reference (get ws "name" "") enc_col r Hr Href)
    as (f & Hu & Hb & Hp).
  exists f. split_and!; [|done..].
  pose proof (collect_usage_encoding root ws enc_col _ Hws Henc Hu) as Hin.
  destruct (extract_all_data_eq root filename) as [st ->].
  cbn [field_worksheet_usage].
  apply (elem_of_list_to_set (C := gset (string * string))).
  rewrite remove_duplicates_keys. apply elem_of_list_to_set.
  by apply (list_elem_of_fmap_2 usage_key) in Hin.
Qed.

Lemma encoding_reference_brackets_witness :
  map_worksheet ∈ findall encoded_document "worksheet" ∧
  region_encoding ∈ findall2 map_worksheet "encoding" "column" ∧
  "[Region]" ≠ "" ∧
  ∃ f, (f, get map_worksheet "name" "") ∈
         usage_key <$>
           field_worksheet_usage (extract_all_data encoded_document "m.twb") ∧
       (∀ usage, encoding_usage (get map_worksheet "name" "") usage
                   region_encoding =
                   usage ++ [ {| Usage.field := f;
                                 Usage.worksheet := get map_worksheet "name" "";
                                 Usage.datasource := "" |} ]) ∧
       (∀ s, "[Region]" = "[" +:+ s +:+ "]" → f = s) ∧
       ((∀ s, "[Region]" ≠ "[" +:+ s +:+ "]") → f = "[Region]").
Proof.
  assert (H1 : map_worksheet ∈ findall encoded_document "worksheet")
    by (vm_compute; left).
  assert (H2 : region_encoding ∈ findall2 map_worksheet "encoding" "column")
    by (vm_compute; left).
  assert (H3 : "[Region]" ≠ "") by discriminate.
  split; [exact H1|]. split; [exact H2|]. split; [exact H3|].
  exact (encoding_reference_brackets encoded_document "m.twb" map_worksheet
           region_encoding "[Region]" H1 H2 H3 (or_introl eq_refl)).
Defined.

(** ** Extractor: the deduplication keeps first occurrences *)

Lemma fold_left_unique_step_acc usages seen acc :
  snd (fold_left unique_step usages (seen, acc)) =
    acc ++ kept_after seen usages.
Proof.
  unfold kept_after. revert seen acc.
  induction usages as [|u usages IH]; intros seen acc; cbn [fold_left].
  - cbn. by rewrite app_nil_r.
  - unfold unique_step at 2 4. case_decide.
    + apply IH.
    + rewrite (IH _ (acc ++ [u])), (IH _ ([] ++ [u])).
      by rewrite <- app_assoc.
Qed.

Lemma kept_after_cons seen u usages :
  kept_after seen (u :: usages) =
    if decide (usage_key u ∈ seen) then kept_after seen usages
    else u :: kept_after ({[usage_key u]} ∪ seen) usages.
Proof.
  unfold kept_after at 1. cbn [fold_left]. unfold unique_step at 2.
  fold (usage_key u). case_decide; [done|].
  by rewrite fold_left_unique_step_acc.
Qed.

Lemma kept_after_filter seen usages :
  kept_after seen usages =
    kept_after ∅ (filter (λ v, usage_key v ∉ seen) usages).
Proof.
  remember (length usages) as k eqn:Hk. revert seen usages Hk.
  induction (lt_wf k) as [k _ IH]. intros seen usages ->.
  destruct usages as [|u usages]; [done|].
  rewrite kept_after_cons, filter_cons. case_decide as Hin.
  - rewrite decide_False by (by intros ?). eapply IH; [|done]. cbn. lia.
  - rewrite decide_True by done. rewrite kept_after_cons.
    rewrite decide_False by set_solver. f_equal.
    rewrite (IH (length usages)); [|cbn; lia|done].
    rewrite (IH (length (filter (λ v, usage_key v ∉ seen) usages))
               (ltac:(cbn; pose proof (length_filter
                        (λ v, usage_key v ∉ seen) usages); lia))
               ({[usage_key u]} ∪ ∅) _ eq_refl).
    f_equal. rewrite list_filter_filter. apply list_filter_iff.
    intros v. generalize (usage_key v) (usage_key u). clear. set_solver.
Qed.

Lemma filter_all {A} (P : A → Prop) `{!∀ x, Decision (P x)} (l : list A) :
  (∀ x, x ∈ l → P x) → filter P l = l.
Proof.
  induction l as [|x l IH]; [done|]. intros Hall.
  rewrite filter_cons_True by (apply Hall; left).
  f_equal. apply IH. intros y Hy. apply Hall. by right.
Qed.

(** X11: deduplication keeps the first pair of every key and drops the later
    ones; it changes nothing in a list without repeated key, and so changes
    nothing when applied twice. *)
Theorem deduplication_keeps_first (u : Usage.t) (usages : list Usage.t) :
  remove_duplicates (u :: usages) =
    u :: remove_duplicates (filter (λ v, usage_key v ≠ usage_key u) usages) ∧
  (NoDup (usage_key <$> usages) → remove_duplicates usages = usages) ∧
  remove_duplicates (remove_duplicates usages) = remove_duplicates usages.
Proof.
  assert (Hcons : ∀ v l, remove_duplicates (v :: l) =
            v :: remove_duplicates
                   (filter (λ w, usage_key w ≠ usage_key v) l)).
  { intros v l. change (kept_after ∅ (v :: l) =
              v :: kept_after ∅ (filter (λ w, usage_key w ≠ usage_key v) l)).
    rewrite kept_after_cons, decide_False by set_solver.
    f_equal. rewrite kept_after_filter. f_equal.
    apply list_filter_iff. intros w.
    generalize (usage_key w) (usage_key v). clear. set_solver. }
  assert (Hid : ∀ l, NoDup (usage_key <$> l) → remove_duplicates l = l).
  { induction l as [|v l IH]; [done|]. rewrite fmap_cons.
    intros [Hv Hl]%NoDup_cons. rewrite Hcons. f_equal.
    rewrite <- (IH Hl) at 2. f_equal.
    apply filter_all. intros w Hw E.
    apply Hv. rewrite <- E. by apply list_elem_of_fmap_2. }
  split_and!; [apply Hcons|apply Hid|]. apply Hid.
  unfold remove_duplicates.
  by destruct (fold_left_unique_step usages ∅ [])
    as (kept & -> & Hnd & _); [done|constructor|].
Qed.

(** ** Row builder: what the rows are made of *)

Section RowBuilderFurther.
Context {unicode : UnicodeData}.

Lemma elem_of_flat_map {A B} (f : A → list B) (l : list A) (x : B) :
  x ∈ flat_map f l ↔ ∃ y, y ∈ l ∧ x ∈ f y.
Proof.
  split.
  - intros (y & Hy%list_elem_of_In & Hx%list_elem_of_In)%list_elem_of_In%in_flat_map.
    eauto.
  - intros (y & Hy%list_elem_of_In & Hx%list_elem_of_In).
    apply list_elem_of_In, in_flat_map. eauto.
Qed.

Lemma field_rows_row_of fn data f id :
  Forall (λ r, ∃ w i, w ∈ worksheets_of data (Field.name f) ∧
                      r = row_of fn data f i w)
    (field_rows fn data f id).
Proof.
  rewrite field_rows_eq. apply Forall_forall. intros r Hr.
  apply elem_of_lookup_imap in Hr as (i & w & -> & Hw).
  exists w, (id + i). split; [|done]. by eapply list_elem_of_lookup_2.
Qed.

Lemma fields_rows_row_of fn data fs id :
  Forall (λ r, ∃ f w i, f ∈ fs ∧ w ∈ worksheets_of data (Field.name f) ∧
                        r = row_of fn data f i w)
    (fields_rows fn data fs id).
Proof.
  revert id. induction fs as [|f fs IH]; intros id; cbn; [constructor|].
  apply Forall_app. split.
  - eapply Forall_impl; [apply field_rows_row_of|].
    intros r (w & i & Hw & ->). exists f, w, i. split; [left|done].
  - eapply Forall_impl; [apply IH|].
    intros r (f' & w & i & Hf & Hw & ->). exists f', w, i. split; [by right|done].
Qed.

Lemma workbooks_rows_row_of wbs id :
  Forall (λ r, ∃ fn data f w i, (fn, data) ∈ wbs ∧ f ∈ fields data ∧
                 w ∈ worksheets_of data (Field.name f) ∧
                 r = row_of fn data f i w)
    (workbooks_rows wbs id).
Proof.
  revert id. induction wbs as [|[fn data] wbs IH]; intros id; cbn;
    [constructor|].
  apply Forall_app. split.
  - eapply Forall_impl; [apply fields_rows_row_of|].
    intros r (f & w & i & Hf & Hw & ->). exists fn, data, f, w, i.
    split; [left|done].
  - eapply Forall_impl; [apply IH|].
    intros r (fn' & data' & f & w & i & Hin & Hf & Hw & ->).
    exists fn', data', f, w, i. split; [by right|done].
Qed.

Lemma worksheets_of_usage data k w :
  w ∈ worksheets_of data k → w ≠ "" →
  ∃ u, u ∈ field_worksheet_usage data ∧ Usage.field u = k ∧
       Usage.worksheet u = w.
Proof.
  unfold worksheets_of. intros Hw Hne.
  assert (w ∈ usages_of data k) as Hu.
  { destruct (usages_of data k); [|done].
    apply list_elem_of_singleton in Hw. done. }
  apply list_elem_of_fmap in Hu as (u & -> & Hu).
  apply list_elem_of_filter in Hu as [Hk Hu]. by exists u.
Qed.

Lemma usage_worksheets_of data u :
  u ∈ field_worksheet_usage data →
  Usage.worksheet u ∈ worksheets_of data (Usage.field u).
Proof.
  intros Hu. unfold worksheets_of.
  assert (Usage.worksheet u ∈ usages_of data (Usage.field u)) as Hin.
  { apply list_elem_of_fmap_2, list_elem_of_filter. done. }
  destruct (usages_of data (Usage.field u)); [|done].
  by apply elem_of_nil in Hin.
Qed.

(** X12: the rows join fields and usage pairs by field name alone. Every
    usage pair that names a field of its model gives a row of that field
    for the pair's worksheet, and every row marked "Yes" stands for a usage
    pair of its workbook with the row's field name and worksheet. *)
Theorem usage_join_by_name (all_workbook_data : list (string * Data)) :
  (∀ filename data f u,
     (filename, data) ∈ all_workbook_data → f ∈ fields data →
     u ∈ field_worksheet_usage data → Usage.field u = Field.name f →
     ∃ r, r ∈ build_final_output all_workbook_data ∧
          row_key r = (filename, Field.name f, Usage.worksheet u)) ∧
  Forall (λ r, Row.field_used_in_worksheets r = "Yes" →
            ∃ filename data u,
              (filename, data) ∈ all_workbook_data ∧
              u ∈ field_worksheet_usage data ∧
              Row.file_name r = filename ∧
              Usage.field u = Row.column_name r ∧
              Usage.worksheet u = Row.worksheet_name r)
    (build_final_output all_workbook_data).
Proof.
  rewrite build_final_output_rows. split.
  - intros fn data f u Hwb Hf Hu Hname.
    assert ((fn, Field.name f, Usage.worksheet u) ∈
              row_key <$> workbooks_rows all_workbook_data 1) as Hk.
    { rewrite workbooks_rows_keys. apply elem_of_flat_map.
      exists (fn, data). split; [done|].
      apply elem_of_flat_map. exists f. split; [done|].
      rewrite <- Hname.
      apply (list_elem_of_fmap_2 (λ w, (fn, Usage.field u, w))).
      by apply usage_worksheets_of. }
    apply list_elem_of_fmap in Hk as (r & Hr & Hin). by exists r.
  - eapply Forall_impl; [apply workbooks_rows_row_of|].
    intros r (fn & data & f & w & i & Hwb & Hf & Hw & ->) Hyes.
    cbn in Hyes. case_decide as Hne; [done|].
    destruct (worksheets_of_usage _ _ _ Hw Hne) as (u & Hu & Hk & Hws).
    by exists fn, data, u.
Qed.

(** What cleaning returns for a formula that is not empty. *)
Lemma clean_non_empty raw calc_map :
  raw ≠ "" →
  fst (clean_calculation_formula raw calc_map) ≠ "" ∧
  snd (clean_calculation_formula raw calc_map) ∈
    ["Success"; "Unresolved References"; "Partially Resolved"].
Proof.
  intros Hne. unfold clean_calculation_formula.
  rewrite decide_False by done.
  pose proof (proj2 (substitute_references_counter raw calc_map) Hne) as Hout.
  destruct (substitute_references raw calc_map) as [cleaned n].
  cbn [fst snd] in *. split; [done|].
  destruct ((n =? 0) && _), ((0 <? n) && _); set_solver.
Qed.

(** X13: the three formula columns of a row. A field without formula has an
    empty cleaned formula and the status "No Calculation"; a field with a
    formula has what the resolver returns for it with the calculation map
    of its own workbook: a cleaned formula that is not empty and one of the
    statuses "Success", "Unresolved References" and "Partially Resolved".
    The status "No Formula" occurs in no row. *)
Theorem formula_columns (all_workbook_data : list (string * Data)) :
  Forall (λ r,
      Row.calc_clean_status r ≠ "No Formula" ∧
      (Row.original_calculation r = "" →
         Row.calculation_formula r = "" ∧
         Row.calc_clean_status r = "No Calculation") ∧
      (Row.original_calculation r ≠ "" →
         Row.calculation_formula r ≠ "" ∧
         Row.calc_clean_status r ∈
           ["Success"; "Unresolved References"; "Partially Resolved"] ∧
         ∃ filename data f,
           (filename, data) ∈ all_workbook_data ∧ f ∈ fields data ∧
           Row.file_name r = filename ∧
           Row.column_name r = Field.name f ∧
           Row.original_calculation r = Field.formula f ∧
           (Row.calculation_formula r, Row.calc_clean_status r) =
             clean_calculation_formula (Field.formula f) (calculations data)))
    (build_final_output all_workbook_data).
Proof.
  rewrite build_final_output_rows.
  eapply Forall_impl; [apply workbooks_rows_row_of|].
  intros r (fn & data & f & w & i & Hwb & Hf & Hw & ->).
  unfold row_of. cbn [final_row Row.calc_clean_status
    Row.original_calculation Row.calculation_formula Row.file_name
    Row.column_name].
  destruct (decide (Field.formula f = "")) as [He|Hne].
  - cbn [fst snd]. by split_and!.
  - destruct (clean_non_empty _ (calculations data) Hne) as [H1 H2].
    split_and!; [|done|].
    + clear -H2. intros E. rewrite E in H2. set_solver.
    + intros _. split_and!; [done..|].
      exists fn, data, f. split_and!; try done.
      by destruct (clean_calculation_formula _ _).
Qed.

(** ** Row builder: how many rows, and how workbooks compose *)

(** X14: the rows of a batch are the rows of its first workbooks followed by
    the rows of the remaining ones, whose Column IDs alone change: they move
    up by the number of rows before them. *)
Theorem output_of_appended_workbooks
    (first_workbooks rest : list (string * Data)) :
  build_final_output (first_workbooks ++ rest) =
    build_final_output first_workbooks ++
    (shift_column_id (length (build_final_output first_workbooks)) <$>
       build_final_output rest).
Proof.
  rewrite !build_final_output_rows, workbooks_rows_app. f_equal.
  rewrite <- workbooks_rows_shift. f_equal. lia.
Qed.

Lemma worksheets_of_length data k :
  length (worksheets_of data k) = 1 `max` length (usages_of data k).
Proof. unfold worksheets_of. destruct (usages_of data k); cbn; lia. Qed.

Lemma fields_rows_length fn data fs id :
  length (fields_rows fn data fs id) =
    sum_list ((λ f, 1 `max` length (usages_of data (Field.name f))) <$> fs).
Proof.
  revert id. induction fs as [|f fs IH]; intros id; cbn; [done|].
  by rewrite length_app, field_rows_length, worksheets_of_length, IH.
Qed.

Lemma workbooks_rows_length wbs id :
  length (workbooks_rows wbs id) =
    sum_list (flat_map (λ '(_, data),
      (λ f, 1 `max` length (usages_of data (Field.name f))) <$> fields data)
      wbs).
Proof.
  revert id. induction wbs as [|[fn data] wbs IH]; intros id; cbn; [done|].
  by rewrite length_app, fields_rows_length, sum_list_with_app, IH.
Qed.

(** X15: the number of rows is the sum, over the fields of all workbooks, of
    the number of usage pairs that name the field, counted as one when
    there is none; so there is at least one row for every field, and the
    output is empty exactly when no workbook has a field. *)
Theorem output_row_count (all_workbook_data : list (string * Data)) :
  length (build_final_output all_workbook_data) =
    sum_list (flat_map (λ '(_, data),
      (λ f, 1 `max` length (usages_of data (Field.name f))) <$> fields data)
      all_workbook_data) ∧
  sum_list ((λ item, length (fields (snd item))) <$> all_workbook_data) ≤
    length (build_final_output all_workbook_data) ∧
  (build_final_output all_workbook_data = [] ↔
   Forall (λ item, fields (snd item) = []) all_workbook_data).
Proof.
  rewrite build_final_output_rows, workbooks_rows_length.
  assert (Hf : ∀ data (fs : list Field.t),
    length fs ≤ sum_list ((λ f, 1 `max` length (usages_of data (Field.name f)))
                            <$> fs) ∧
    (sum_list ((λ f, 1 `max` length (usages_of data (Field.name f))) <$> fs)
       = 0 → fs = [])).
  { intros data fs. induction fs as [|f fs [IH1 IH2]]; cbn; [done|].
    split; lia. }
  split; [done|].
  rewrite <- length_zero_iff_nil, workbooks_rows_length.
  induction all_workbook_data as [|[fn data] wbs [IH1 IH2]]; cbn.
  { split; [done|]. split; [done|constructor]. }
  rewrite sum_list_with_app. destruct (Hf data (fields data)) as [L Z].
  split; [lia|]. split.
  - intros E. constructor; [apply Z; lia|]. apply IH2. lia.
  - intros [Hd Hw]%Forall_cons. cbn in Hd. rewrite Hd. cbn.
    by apply IH2.
Qed.

(** X16: when the connections map has a record for the datasource of a
    field, every row emitted for the field carries the record's name and
    alias. *)
Theorem present_connection_rows (filename : string) (data : Data)
    (field : Field.t) (conn_info : Connection.t) (column_id : nat) :
  connections data !! Field.datasource field = Some conn_info →
  Forall (λ r, Row.connection_name r = Connection.name conn_info ∧
               Row.connection_alias r = Connection.alias conn_info)
    (field_rows filename data field column_id).
Proof.
  intros Hc. eapply Forall_impl; [apply field_rows_row_of|].
  intros r (w & i & _ & ->). rewrite !(proj1 (row_of_connection _ _ _ _ _)),
    !(proj2 (row_of_connection _ _ _ _ _)), Hc. done.
Qed.

End RowBuilderFurther.

(** *** Examples, with the decimal digits of Unicode 14.0 *)

Section RowBuilderFurtherExamples.
#[local] Existing Instance unicode_14_0.

Lemma present_connection_rows_witness :
  connections sales_model !! Field.datasource sales_field =
    Some sales_connection ∧
  Forall (λ r, Row.connection_name r = Connection.name sales_connection ∧
               Row.connection_alias r = Connection.alias sales_connection)
    (field_rows "book.twb" sales_model sales_field 1).
Proof.
  assert (H : connections sales_model !! Field.datasource sales_field =
                Some sales_connection) by reflexivity.
  split; [exact H|].
  exact (present_connection_rows "book.twb" sales_model sales_field
           sales_connection 1 H).
Defined.

End RowBuilderFurtherExamples.

(** ** From the document to the rows *)

Section DocumentToRows.
Context {unicode : UnicodeData}.

Lemma extract_all_data_usage root filename :
  field_worksheet_usage (extract_all_data root filename) =
    remove_duplicates (collect_usage root).
Proof. by destruct (extract_all_data_eq root filename) as [st ->]. Qed.

Lemma remove_duplicates_NoDup usages :
  NoDup (usage_key <$> remove_duplicates usages).
Proof.
  unfold remove_duplicates.
  by destruct (fold_left_unique_step usages ∅ [])
    as (kept & -> & Hnd & _); [done|constructor|].
Qed.

Lemma NoDup_worksheets_of_field (usages : list Usage.t) (k : string) :
  NoDup (usage_key <$> usages) →
  NoDup (Usage.worksheet <$> filter (λ u, Usage.field u = k) usages).
Proof.
  induction usages as [|u usages IH]; [constructor|].
  rewrite fmap_cons. intros [Hu Hnd]%NoDup_cons.
  rewrite filter_cons. case_decide as Hk; [|by apply IH].
  rewrite fmap_cons. apply NoDup_cons. split; [|by apply IH].
  intros (v & Hw & [Hv Hin]%list_elem_of_filter)%list_elem_of_fmap.
  apply Hu. apply list_elem_of_fmap. exists v. split; [|done].
  unfold usage_key. congruence.
Qed.

Lemma NoDup_worksheets_of data k :
  NoDup (usage_key <$> field_worksheet_usage data) →
  NoDup (worksheets_of data k).
Proof.
  intros Hnd. unfold worksheets_of.
  pose proof (NoDup_worksheets_of_field _ k Hnd) as H.
  fold (usages_of data k) in H.
  destruct (usages_of data k); [|done]. apply NoDup_singleton.
Qed.

Lemma NoDup_fields_rows_keys (fn : string) data fs :
  NoDup (usage_key <$> field_worksheet_usage data) →
  NoDup (Field.name <$> fs) →
  NoDup (flat_map (λ f, (λ w, (fn, Field.name f, w)) <$>
                          worksheets_of data (Field.name f)) fs).
Proof.
  intros Hu. induction fs as [|f fs IH]; [constructor|].
  rewrite fmap_cons. intros [Hf Hnd]%NoDup_cons. cbn [flat_map].
  apply NoDup_app. split_and!.
  - apply (NoDup_fmap_2 (λ w, (fn, Field.name f, w)));
      first [by intros w1 w2 [= ->]|by apply NoDup_worksheets_of].
  - intros key (w & -> & Hw)%list_elem_of_fmap
      (f' & Hf' & (w' & [= E _] & _)%list_elem_of_fmap)%elem_of_flat_map.
    apply Hf. rewrite E. by apply list_elem_of_fmap_2.
  - by apply IH.
Qed.

(** X17: in the rows built from an extracted workbook, the rows of one field
    have pairwise distinct worksheets; and when the field names of the
    workbook are pairwise distinct, no two rows agree on field name and
    worksheet. *)
Theorem extracted_rows_distinct (root : Element) (filename : string) :
  let data := extract_all_data root filename in
  (∀ field column_id,
     NoDup (Row.worksheet_name <$> field_rows filename data field column_id)) ∧
  (NoDup (Field.name <$> fields data) →
   NoDup (row_key <$> build_final_output [(filename, data)])).
Proof.
  intros data.
  assert (Hu : NoDup (usage_key <$> field_worksheet_usage data)).
  { unfold data. rewrite extract_all_data_usage.
    apply remove_duplicates_NoDup. }
  split.
  - intros f cid.
    assert (Row.worksheet_name <$> field_rows filename data f cid =
            worksheets_of data (Field.name f)) as ->.
    { pose proof (field_rows_keys filename data f cid) as Hk.
      apply (f_equal (fmap snd)) in Hk.
      rewrite <- !list_fmap_compose in Hk.
      change (Row.worksheet_name <$> field_rows filename data f cid =
              id <$> worksheets_of data (Field.name f)) in Hk.
      by rewrite list_fmap_id in Hk. }
    by apply NoDup_worksheets_of.
  - intros Hf. rewrite build_final_output_rows, workbooks_rows_keys.
    cbn [flat_map]. rewrite app_nil_r. by apply NoDup_fields_rows_keys.
Qed.

Lemma collect_usage_no_worksheet root :
  findall root "worksheet" = [] → collect_usage root = [].
Proof. unfold collect_usage. by intros ->. Qed.

(** X18: a document without worksheet element gives exactly one row for every
    field of the workbook, each with an empty Worksheet Name and marked
    "No". *)
Theorem no_worksheet_one_row_per_field (root : Element) (filename : string) :
  findall root "worksheet" = [] →
  let data := extract_all_data root filename in
  Row.column_name <$> build_final_output [(filename, data)] =
    Field.name <$> fields data ∧
  Forall (λ r, Row.worksheet_name r = "" ∧
               Row.field_used_in_worksheets r = "No")
    (build_final_output [(filename, data)]).
Proof.
  intros Hws data.
  assert (Hu : ∀ k, worksheets_of data k = [""]).
  { intros k. unfold worksheets_of, usages_of, data.
    by rewrite extract_all_data_usage, collect_usage_no_worksheet. }
  rewrite build_final_output_rows. cbn [workbooks_rows].
  rewrite app_nil_r. split.
  - generalize 1. induction (fields data) as [|f fs IH]; intros id;
      cbn [fields_rows]; [done|].
    rewrite fmap_app, fmap_cons, IH, field_rows_eq, Hu. done.
  - eapply Forall_impl; [apply fields_rows_row_of|].
    intros r (f & w & i & _ & Hw & ->). rewrite Hu in Hw.
    apply list_elem_of_singleton in Hw as ->. done.
Qed.

End DocumentToRows.

(** *** Examples, with the decimal digits of Unicode 14.0 *)

Section DocumentToRowsExamples.
#[local] Existing Instance unicode_14_0.

Lemma no_worksheet_one_row_per_field_witness :
  findall shared_id_document "worksheet" = [] ∧
  Row.column_name <$>
    build_final_output
      [("book.twb", extract_all_data shared_id_document "book.twb")] =
    Field.name <$> fields (extract_all_data shared_id_document "book.twb").
Proof.
  assert (H : findall shared_id_document "worksheet" = []) by reflexivity.
  split; [exact H|].
  exact (proj1 (no_worksheet_one_row_per_field shared_id_document
                  "book.twb" H)).
Defined.

End DocumentToRowsExamples.

(** ** Loader and batch *)

Lemma lower_app (a b : string) : lower (a +:+ b) = lower a +:+ lower b.
Proof. induction a as [|c a IH]; cbn; [done|]. by rewrite IH. Qed.

Lemma lower_app_inv (n a b : string) :
  lower n = a +:+ b →
  ∃ n1 n2, n = n1 +:+ n2 ∧ lower n1 = a ∧ lower n2 = b.
Proof.
  revert n. induction a as [|c a IH]; intros n E; cbn in E.
  - by exists "", n.
  - destruct n as [|x n]; [done|]. cbn in E. injection E as Hc E.
    destruct (IH n E) as (n1 & n2 & -> & <- & <-).
    exists (String x n1), n2. cbn. by rewrite Hc.
Qed.

Lemma endswith_str_spec (s suffix : string) :
  endswith_str s suffix = true ↔ ∃ p, s = p +:+ suffix.
Proof.
  induction s as [|c s IH]; cbn [endswith_str].
  - rewrite orb_false_r, bool_decide_eq_true. split.
    + intros <-. by exists "".
    + intros [p E]. by destruct p.
  - rewrite orb_true_iff, bool_decide_eq_true, IH. split.
    + intros [<-|[p ->]]; [by exists ""|by exists (String c p)].
    + intros [[|x p] E]; cbn in E; [by left|].
      injection E as -> ->. right. by exists p.
Qed.

Lemma endswith_lower (name ext : string) :
  endswith_str (lower name) ext = true ↔ has_extension ext name.
Proof.
  rewrite endswith_str_spec. split.
  - intros [p (n1 & n2 & -> & _ & He)%lower_app_inv]. by exists n1, n2.
  - intros (stem & e & -> & <-). exists (lower stem). apply lower_app.
Qed.

Lemma next_twb_none (names : list string) :
  Forall (λ n, ¬ has_extension ".twb" n) names → next_twb names = Raised "".
Proof.
  intros Hall. unfold next_twb.
  assert (filter (λ n, endswith_str (lower n) ".twb" = true) names = [])
    as ->; [|done].
  induction Hall as [|n names Hn _ IH]; [done|].
  rewrite filter_cons_False; [done|]. by rewrite endswith_lower.
Qed.

Lemma next_twb_first (before after : list string) (twb : string) :
  Forall (λ n, ¬ has_extension ".twb" n) before →
  has_extension ".twb" twb →
  next_twb (before ++ twb :: after) = Ok twb.
Proof.
  intros Hall Htwb. unfold next_twb.
  induction Hall as [|n names Hn _ IH]; cbn [app].
  - rewrite filter_cons_True; [done|]. by rewrite endswith_lower.
  - rewrite filter_cons_False; [done|]. by rewrite endswith_lower.
Qed.

Lemma dict_set_keys {V} (k : string) (v : V) (d : list (string * V)) :
  fst <$> dict_set k v d =
    if decide (k ∈ fst <$> d) then fst <$> d else (fst <$> d) ++ [k].
Proof.
  induction d as [|[k' v'] d IH]; cbn [dict_set].
  - rewrite decide_False; [done|]. apply not_elem_of_nil.
  - rewrite !fmap_cons. cbn [fst]. destruct (decide (k' = k)) as [->|Hne].
    + rewrite decide_True; [done|]. left.
    + rewrite fmap_cons, IH. cbn [fst].
      destruct (decide (k ∈ fst <$> d)) as [Hin|Hin].
      * rewrite decide_True; [done|]. by right.
      * rewrite decide_False; [done|].
        intros [?|?]%elem_of_cons; congruence.
Qed.

Lemma dict_set_get {V} (k k' : string) (v : V) (d : list (string * V)) :
  dict_get k' (dict_set k v d) =
    if decide (k' = k) then Some v else dict_get k' d.
Proof.
  unfold dict_get. induction d as [|[k0 v0] d IH]; cbn [dict_set].
  - rewrite filter_cons, filter_nil. cbn [fst].
    destruct (decide (k = k')) as [->|?].
    + by rewrite decide_True.
    + by rewrite decide_False by congruence.
  - destruct (decide (k0 = k)) as [->|Hne].
    + rewrite !filter_cons. cbn [fst].
      destruct (decide (k = k')) as [->|?].
      * by rewrite decide_True.
      * by rewrite decide_False by congruence.
    + rewrite !(filter_cons _ (k0, v0)). cbn [fst].
      destruct (decide (k0 = k')) as [->|?].
      * by rewrite decide_False by congruence.
      * done.
Qed.

Lemma dict_set_elem_of {V} (k : string) (v : V) (d : list (string * V)) x :
  x ∈ dict_set k v d → x = (k, v) ∨ x ∈ d.
Proof.
  induction d as [|[k' v'] d IH]; cbn [dict_set].
  - intros ->%list_elem_of_singleton. by left.
  - case_decide.
    + intros [->|?]%elem_of_cons; [by left|]. right. by right.
    + intros [->|[->|?]%IH]%elem_of_cons; [right; left|by left|].
      right. by right.
Qed.

(** The writes of the batch, one after the other. *)
Lemma fold_dict_set_elem_of {V} (l d : list (string * V)) x :
  x ∈ fold_left (λ d item, dict_set (fst item) (snd item) d) l d →
  x ∈ l ∨ x ∈ d.
Proof.
  revert d. induction l as [|[k v] l IH]; intros d; cbn [fold_left];
    [by right|].
  intros [?|[->|?]%dict_set_elem_of]%IH.
  - left. by right.
  - left. left.
  - by right.
Qed.

Lemma fold_dict_set_get {V} (l d : list (string * V)) (k : string) :
  dict_get k (fold_left (λ d item, dict_set (fst item) (snd item) d) l d) =
    match last_write k l with
    | Some v => Some v
    | None => dict_get k d
    end.
Proof.
  revert d. induction l as [|[k0 v0] l IH]; intros d; cbn [fold_left];
    [done|].
  rewrite IH, dict_set_get. unfold last_write. rewrite filter_cons.
  cbn [fst snd]. destruct (decide (k0 = k)) as [->|Hne].
  - rewrite decide_True by done.
    destruct (filter (λ w, fst w = k) l) as [|w ws] eqn:E; [reflexivity|].
    rewrite (last_cons (k, v0)). by destruct (last (w :: ws)).
  - by rewrite decide_False by congruence.
Qed.

Lemma fold_dict_set_keys {V} (l d : list (string * V)) :
  fst <$> fold_left (λ d item, dict_set (fst item) (snd item) d) l d =
    (fst <$> d) ++
    filter (λ k, k ∉ fst <$> d) (first_occurrences (fst <$> l)).
Proof.
  revert d. induction l as [|[k v] l IH]; intros d; cbn [fold_left].
  - cbn. by rewrite app_nil_r.
  - rewrite IH, dict_set_keys, fmap_cons. cbn [fst first_occurrences].
    rewrite filter_cons. destruct (decide (k ∈ fst <$> d)) as [Hin|Hin].
    + rewrite decide_False by (by intros ?). f_equal.
      rewrite list_filter_filter. apply list_filter_iff.
      intros k'. split; [|tauto]. intros Hk'. split; [done|]. by intros ->.
    + rewrite decide_True by done. rewrite <- app_assoc. cbn [app].
      do 2 f_equal. rewrite list_filter_filter. apply list_filter_iff.
      intros k'. rewrite elem_of_app, list_elem_of_singleton. tauto.
Qed.

Lemma first_occurrences_NoDup (l : list string) : NoDup (first_occurrences l).
Proof.
  induction l as [|x l IH]; cbn; [constructor|]. apply NoDup_cons. split.
  - by intros [? _]%list_elem_of_filter.
  - by apply NoDup_filter.
Qed.

Lemma omap_cons_eq {A B} (f : A → option B) (x : A) (l : list A) :
  omap f (x :: l) =
    match f x with Some y => y :: omap f l | None => omap f l end.
Proof. done. Qed.

Section Batch.
Context `{FileSystem} {unicode : UnicodeData}.

Lemma extract_twb_tree_basename (path : string) root filename :
  extract_twb_tree path = Ok (root, filename) →
  filename = os_path_basename path.
Proof.
  unfold extract_twb_tree. destruct (endswith_str (lower path) ".twbx").
  - destruct (zip_namelist path) as [names|]; [|done]. cbn.
    destruct (next_twb names) as [twb|]; [|done]. cbn.
    destruct (zip_parse path twb); [|done]. cbn. congruence.
  - destruct (et_parse path); [|done]. cbn. congruence.
Qed.

(** X19: how a workbook is loaded. A path that does not end in ".twbx",
    whatever the case of the letters, is parsed as it is. Of an archive, the
    first member whose name ends in ".twb", whatever the case, is parsed,
    and no other; an archive that cannot be listed fails with the message of
    that failure, one without such a member with an empty message. *)
Theorem archive_member_selection (path : string) :
  (¬ has_extension ".twbx" path →
   extract_twb_tree path =
     (root ← et_parse path; Ok (root, os_path_basename path))) ∧
  (has_extension ".twbx" path →
   (∀ message, zip_namelist path = Raised message →
      extract_twb_tree path = Raised message) ∧
   (∀ names, zip_namelist path = Ok names →
      (Forall (λ n, ¬ has_extension ".twb" n) names →
         extract_twb_tree path = Raised "") ∧
      (∀ before twb after,
         names = before ++ twb :: after →
         Forall (λ n, ¬ has_extension ".twb" n) before →
         has_extension ".twb" twb →
         extract_twb_tree path =
           (root ← zip_parse path twb; Ok (root, os_path_basename path))))).
Proof.
  unfold extract_twb_tree. split.
  - intros Hno. rewrite <- endswith_lower in Hno.
    by destruct (endswith_str (lower path) ".twbx").
  - intros ->%endswith_lower. split.
    + by intros message ->.
    + intros names ->. cbn. split.
      * intros Hall. by rewrite next_twb_none.
      * intros before twb after -> Hb Htwb. by rewrite next_twb_first.
Qed.

Lemma fold_left_file_step (root_dir : string) (files : list string)
    (d : list (string * Data)) (printed : list string) :
  let wfs := (λ f, (root_dir, f)) <$>
               filter (λ f, endswith_str (lower f) ".twb" ||
                            endswith_str (lower f) ".twbx" = true) files in
  fold_left (file_step root_dir) files (d, printed) =
    (fold_left (λ d item, dict_set (fst item) (snd item) d)
       (omap loaded_workbook wfs) d,
     printed ++ (printed_line <$> wfs)).
Proof.
  cbv zeta. revert d printed.
  induction files as [|f files IH]; intros d printed; cbn [fold_left].
  - cbn. by rewrite app_nil_r.
  - rewrite filter_cons. unfold file_step at 2.
    destruct (endswith_str (lower f) ".twb" ||
              endswith_str (lower f) ".twbx") eqn:E.
    + rewrite decide_True by done. rewrite !fmap_cons, omap_cons_eq.
      unfold loaded_workbook at 1, printed_line at 1. cbn [fst snd].
      destruct (extract_twb_tree (os_path_join root_dir f))
        as [[root filename]|message]; rewrite IH, <- app_assoc; done.
    + rewrite decide_False by (by intros ?). apply IH.
Qed.

Lemma process_all_files_eq (input_dir : string) :
  process_all_files input_dir =
    (fold_left (λ d item, dict_set (fst item) (snd item) d)
       (omap loaded_workbook (workbook_files input_dir)) [],
     printed_line <$> workbook_files input_dir).
Proof.
  unfold process_all_files, workbook_files.
  assert (Hgen : ∀ (walk : list (string * list string * list string)) d printed,
    fold_left (λ st '(root_dir, _, files),
                 fold_left (file_step root_dir) files st) walk (d, printed) =
    (fold_left (λ d item, dict_set (fst item) (snd item) d)
       (omap loaded_workbook
          (flat_map (λ '(root_dir, _, files),
             (λ f, (root_dir, f)) <$>
               filter (λ f, endswith_str (lower f) ".twb" ||
                            endswith_str (lower f) ".twbx" = true) files)
             walk)) d,
     printed ++ (printed_line <$>
       flat_map (λ '(root_dir, _, files),
         (λ f, (root_dir, f)) <$>
           filter (λ f, endswith_str (lower f) ".twb" ||
                        endswith_str (lower f) ".twbx" = true) files)
         walk))).
  { induction walk as [|[[root_dir dirs] files] walk IH]; intros d printed;
      cbn [fold_left flat_map].
    - cbn. by rewrite app_nil_r.
    - rewrite fold_left_file_step, IH. cbv zeta.
      rewrite omap_app, fold_left_app, fmap_app, <- app_assoc. done. }
  by rewrite Hgen.
Qed.

(** X20: the batch prints exactly one line for every workbook file of the
    walk, in the order of the walk: the "Processing" line with the display
    name when the file loads, the "Error processing" line with the file
    name and the message when it does not. A file that does not load
    leaves the dictionary as it is: the result is what the files that load
    give, written one after the other. *)
Theorem batch_skips_failures (input_dir : string) :
  snd (process_all_files input_dir) =
    printed_line <$> workbook_files input_dir ∧
  fst (process_all_files input_dir) =
    fold_left (λ d item, dict_set (fst item) (snd item) d)
      (omap loaded_workbook (workbook_files input_dir)) [] ∧
  length (fst (process_all_files input_dir)) ≤
    length (omap loaded_workbook (workbook_files input_dir)).
Proof.
  rewrite process_all_files_eq. cbn [fst snd]. split_and!; [done..|].
  rewrite <- (length_fmap fst), fold_dict_set_keys. cbn [fmap list_fmap app].
  etrans; [apply length_filter|].
  generalize (omap loaded_workbook (workbook_files input_dir)).
  intros l. rewrite <- (length_fmap fst l).
  induction (fst <$> l) as [|k ks IH]; cbn; [done|].
  pose proof (length_filter (λ y, y ≠ k) (first_occurrences ks)). lia.
Qed.

(** X21: the dictionary of the batch has one entry for every display name
    that loaded, in the order in which the names first loaded; when several
    files load under the same display name, the entry is the model of the
    last of them. *)
Theorem same_name_last_wins (input_dir : string) :
  let result := fst (process_all_files input_dir) in
  let loaded := omap loaded_workbook (workbook_files input_dir) in
  NoDup (fst <$> result) ∧
  fst <$> result = first_occurrences (fst <$> loaded) ∧
  ∀ filename, dict_get filename result = last_write filename loaded.
Proof.
  cbv zeta. rewrite process_all_files_eq. cbn [fst snd].
  assert (Hk : fst <$> fold_left (λ d item, dict_set (fst item) (snd item) d)
                 (omap loaded_workbook (workbook_files input_dir)) [] =
               first_occurrences
                 (fst <$> omap loaded_workbook (workbook_files input_dir))).
  { rewrite fold_dict_set_keys. cbn [fmap list_fmap app].
    apply filter_all. intros k _. apply not_elem_of_nil. }
  split_and!.
  - rewrite Hk. apply first_occurrences_NoDup.
  - done.
  - intros filename. rewrite fold_dict_set_get.
    by destruct (last_write _ _).
Qed.

(** X22: every row built from the batch carries, as File Name, the base name
    of the path of a workbook file of the walk that loaded, and the name of
    a field of the model extracted from a document loaded from such a
    file under that name. *)
Theorem rows_file_names (input_dir : string) :
  Forall (λ r, ∃ root_dir f root field,
            (root_dir, f) ∈ workbook_files input_dir ∧
            extract_twb_tree (os_path_join root_dir f) =
              Ok (root, Row.file_name r) ∧
            Row.file_name r = os_path_basename (os_path_join root_dir f) ∧
            field ∈ fields (extract_all_data root (Row.file_name r)) ∧
            Row.column_name r = Field.name field)
    (build_final_output (fst (process_all_files input_dir))).
Proof.
  rewrite build_final_output_rows.
  eapply Forall_impl; [apply workbooks_rows_origin|].
  intros r (fn & data & field & Hin & Hf & <- & Hname).
  rewrite process_all_files_eq in Hin. cbn [fst] in Hin.
  apply fold_dict_set_elem_of in Hin as [Hin|Hin];
    [|by apply elem_of_nil in Hin].
  apply list_elem_of_omap in Hin as ([root_dir f] & Hwf & Hl).
  unfold loaded_workbook in Hl. cbn [fst snd] in Hl.
  destruct (extract_twb_tree (os_path_join root_dir f))
    as [[root filename]|] eqn:E; [|done].
  injection Hl as <- <-. exists root_dir, f, root, field.
  split_and!; try done. by eapply extract_twb_tree_basename.
Qed.

End Batch.
